(** * libgit2 remote orchestration engine (src/remote.c)

    A shallow embedding of the remote handle of libgit2's asynchronous
    fork: the [insteadOf] URL rewriter, the config binding, the
    pending-callback stack with the resumable operation driver, default
    branch discovery, and the reference reconciliation passes
    ([update_tips], prune).

    C integers are [Z] (return codes) or [N]/[nat] (sizes), C strings are
    [string], vectors are lists, the reference database is a finite map. *)

From Stdlib Require Import ZArith NArith Bool Ascii.
From Stdlib Require OrderedTypeEx.
From stdpp Require Import base option list gmap strings.

Local Open Scope Z_scope.

(** ** Return codes (git2/errors.h) *)

Definition GIT_OK : Z := 0.
Definition GIT_ERROR : Z := -1.
Definition GIT_ENOTFOUND : Z := -3.
Definition GIT_EEXISTS : Z := -4.
Definition GIT_EINVALIDSPEC : Z := -12.
Definition GIT_EINVALID : Z := -21.
Definition GIT_PASSTHROUGH : Z := -30.
Definition GIT_ITEROVER : Z := -31.

Inductive git_direction : Type :=
| GIT_DIRECTION_FETCH
| GIT_DIRECTION_PUSH.

(** ** C string helpers *)

Module Cstr.

Definition strlen (s : string) : nat := String.length s.

(** [s + n]: the string that starts [n] characters into [s].  Past the
    terminator the C expression is undefined; the model yields the empty
    string there. *)
Fixpoint offset (s : string) (n : nat) : string :=
  match n, s with
  | O, _ => s
  | S n', String _ s' => offset s' n'
  | S _, EmptyString => EmptyString
  end.

(** Modelled from the spec: [git__prefixcmp] of util.c, which is not part
    of the sources at hand; it is zero exactly when [pfx] is a prefix of
    [str] (the rewriter "checks if entry value is a prefix of URL"). *)
Definition git__prefixcmp (str pfx : string) : Z :=
  if String.prefix pfx str then 0 else 1.

(** [size_t] subtraction of two lengths: it wraps around (64 bits) when
    the second operand is the larger one. *)
Definition size_sub (a b : N) : N :=
  (if b <=? a then a - b else a + 2 ^ 64 - b)%N.

(** [git__strndup (s, n)]: at most [n] leading characters of [s]. *)
Definition git__strndup (s : string) (n : N) : string :=
  String.substring 0 (N.to_nat (N.min n (N.of_nat (strlen s)))) s.

Definition ends_with (suf s : string) : bool :=
  (strlen suf <=? strlen s)%nat
  && String.eqb (offset s (strlen s - strlen suf)) suf.

Lemma app_cons (c : ascii) (a b : string) : String c a +:+ b = String c (a +:+ b).
Proof. reflexivity. Qed.

Lemma append_assoc (a b c : string) : (a +:+ b) +:+ c = a +:+ (b +:+ c).
Proof. induction a as [|x a IH]; [reflexivity|]. rewrite !app_cons. now rewrite IH. Qed.

Lemma strlen_app (a b : string) : strlen (a +:+ b) = (strlen a + strlen b)%nat.
Proof. induction a as [|c a IH]; simpl; [reflexivity|]. unfold strlen in *. simpl. now rewrite IH. Qed.

Lemma offset_app (a b : string) : offset (a +:+ b) (strlen a) = b.
Proof. induction a as [|c a IH]; simpl; [now destruct b|exact IH]. Qed.

Lemma offset_0 (s : string) : offset s 0 = s.
Proof. now destruct s. Qed.

Lemma substring_app (a b : string) : String.substring 0 (strlen a) (a +:+ b) = a.
Proof.
  unfold strlen. induction a as [|c a IH]; simpl.
  - now destruct b.
  - now rewrite IH.
Qed.

Lemma prefix_app (a b : string) : String.prefix a (a +:+ b) = true.
Proof.
  induction a as [|c a IH]; simpl.
  - now destruct b.
  - destruct (ascii_dec c c); [exact IH|congruence].
Qed.

Lemma prefix_split (p s : string) :
  String.prefix p s = true -> s = p +:+ offset s (strlen p).
Proof.
  revert s. induction p as [|c p IH]; intros s H.
  - simpl. now destruct s.
  - destruct s as [|d s]; simpl in H; [discriminate|].
    destruct (ascii_dec c d) as [->|]; [|discriminate].
    change (String d s = String d (p +:+ offset s (strlen p))).
    f_equal. now apply IH.
Qed.

Lemma prefix_same_length (p q s : string) :
  String.prefix p s = true -> String.prefix q s = true ->
  strlen p = strlen q -> p = q.
Proof.
  revert q s. induction p as [|c p IH]; intros q s Hp Hq Hl.
  - destruct q; [reflexivity|discriminate].
  - destruct q as [|d q]; [discriminate|].
    destruct s as [|e s]; simpl in Hp, Hq; [discriminate|].
    destruct (ascii_dec c e) as [->|]; [|discriminate].
    destruct (ascii_dec d e) as [->|]; [|discriminate].
    f_equal. apply (IH q s); auto.
Qed.

Lemma ends_with_app (a suf : string) : ends_with suf (a +:+ suf) = true.
Proof.
  unfold ends_with. rewrite strlen_app.
  apply andb_true_iff; split.
  - apply Nat.leb_le. lia.
  - replace (strlen a + strlen suf - strlen suf)%nat with (strlen a) by lia.
    rewrite offset_app. apply String.eqb_refl.
Qed.

Lemma offset_add (s : string) (n k : nat) : offset (offset s n) k = offset s (n + k).
Proof.
  revert s; induction n as [|n IH]; intros s; simpl.
  - now rewrite offset_0.
  - destruct s as [|c s]; [now destruct k|apply IH].
Qed.

Lemma substring_offset (s : string) (n : nat) :
  (n <= strlen s)%nat -> s = String.substring 0 n s +:+ offset s n.
Proof.
  unfold strlen. revert s; induction n as [|n IH]; intros s Hn.
  - rewrite offset_0. now destruct s.
  - destruct s as [|c s]; simpl in *; [lia|].
    rewrite app_cons. f_equal. apply IH. lia.
Qed.

Lemma strlen_substring (s : string) (n : nat) :
  (n <= strlen s)%nat -> strlen (String.substring 0 n s) = n.
Proof.
  unfold strlen. revert s; induction n as [|n IH]; intros s Hn.
  - now destruct s.
  - destruct s as [|c s]; simpl in *; [lia|]. rewrite IH; lia.
Qed.

Lemma strlen_offset (s : string) (n : nat) : strlen (offset s n) = (strlen s - n)%nat.
Proof.
  unfold strlen. revert s; induction n as [|n IH]; intros s.
  - rewrite offset_0. lia.
  - destruct s as [|c s]; simpl; [reflexivity|apply IH].
Qed.

Lemma size_sub_le (x y : nat) :
  (y <= x)%nat -> size_sub (N.of_nat x) (N.of_nat y) = N.of_nat (x - y).
Proof.
  intros H. unfold size_sub.
  destruct (N.leb_spec (N.of_nat y) (N.of_nat x)); lia.
Qed.

(** A string with a given head and tail that do not overlap has a middle. *)
Lemma prefix_suffix_split (p q s : string) :
  String.prefix p s = true -> ends_with q s = true ->
  (strlen p + strlen q <= strlen s)%nat ->
  exists r, s = p +:+ r +:+ q.
Proof.
  intros Hp Hq Hl.
  apply prefix_split in Hp.
  apply andb_true_iff in Hq as [_ Hq]. apply String.eqb_eq in Hq.
  set (t := offset s (strlen p)) in *.
  assert (Ht : strlen t = (strlen s - strlen p)%nat) by apply strlen_offset.
  exists (String.substring 0 (strlen t - strlen q) t).
  rewrite Hp at 1. f_equal.
  rewrite (substring_offset t (strlen t - strlen q)) at 1 by lia.
  f_equal. rewrite Ht. unfold t. rewrite offset_add.
  transitivity (offset s (strlen s - strlen q)); [f_equal; lia|exact Hq].
Qed.

End Cstr.

(** ** Object ids, advertised heads, refspecs

    A [git_oid] is the number its 20 raw bytes spell (big endian), so that
    [memcmp] order is numeric order and the all-zero id is [0]. *)

Abbreviation git_oid := N (only parsing).

Definition zero_id : git_oid := 0%N.

Definition git_oid_cmp (a b : git_oid) : Z :=
  match (a ?= b)%N with
  | Eq => 0
  | Lt => -1
  | Gt => 1
  end.

Lemma git_oid_cmp_0 (a b : git_oid) : git_oid_cmp a b = 0 <-> a = b.
Proof.
  unfold git_oid_cmp. destruct (N.compare_spec a b); split; intros; subst; try lia; easy.
Qed.

(** [strcmp] / [git__strcmp]: only the sign matters to the callers. *)
Definition git__strcmp (a b : string) : Z :=
  match String.compare a b with
  | Eq => 0
  | Lt => -1
  | Gt => 1
  end.

Lemma git__strcmp_0 (a b : string) : git__strcmp a b = 0 <-> a = b.
Proof.
  unfold git__strcmp. destruct (String.compare a b) eqn:E.
  - split; [intros _; now apply String.compare_eq_iff|reflexivity].
  - split; [lia|]. intros ->.
    pose proof (String.compare_antisym b b) as A. rewrite E in A. discriminate.
  - split; [lia|]. intros ->.
    pose proof (String.compare_antisym b b) as A. rewrite E in A. discriminate.
Qed.

(** [git_remote_head] (git2/net.h). *)
Record git_remote_head : Type := {
  rh_name : string;
  rh_oid : git_oid;
  rh_symref_target : option string
}.

(** [git_refspec] (refspec.h); [rs_dst] is [None] for a NULL destination. *)
Record git_refspec : Type := {
  rs_string : string;
  rs_src : string;
  rs_dst : option string;
  rs_force : bool;
  rs_push : bool;
  rs_pattern : bool
}.

Inductive git_remote_autotag_option_t : Type :=
| GIT_REMOTE_DOWNLOAD_TAGS_UNSPECIFIED
| GIT_REMOTE_DOWNLOAD_TAGS_AUTO
| GIT_REMOTE_DOWNLOAD_TAGS_NONE
| GIT_REMOTE_DOWNLOAD_TAGS_ALL.

Definition GIT_HEAD_FILE : string := "HEAD".
Definition GIT_REFS_HEADS_DIR : string := "refs/heads/".
Definition GIT_REFS_HEADS_MASTER_FILE : string := "refs/heads/master".
Definition GIT_REFSPEC_TAGS : string := "refs/tags/*:refs/tags/*".

(** ** Configuration entries

    A configuration is the sequence of its entries in iteration order;
    a multivar is a key that occurs more than once. *)

Record git_config_entry : Type := {
  ce_name : string;
  ce_value : string
}.

(** ** The [insteadOf] URL rewriter ([apply_insteadof]) *)

Module Insteadof.
Import Cstr.

Definition PREFIX : string := "url".
Definition SUFFIX_FETCH : string := "insteadof".
Definition SUFFIX_PUSH : string := "pushinsteadof".

Definition suffix_for (direction : git_direction) : string :=
  match direction with
  | GIT_DIRECTION_FETCH => SUFFIX_FETCH
  | GIT_DIRECTION_PUSH => SUFFIX_PUSH
  end.

(** Modelled from the spec: the glob iterator of config.c (not part of
    the sources at hand) yields, in iteration order, the "config entries
    matching [url.<replacement>.insteadof]" (or [pushinsteadof]). *)
Definition glob_matches (suffix name : string) : bool :=
  String.prefix (PREFIX +:+ ".") name
  && ends_with ("." +:+ suffix) name
  && (strlen (PREFIX +:+ ".") + strlen ("." +:+ suffix) <=? strlen name)%nat.

Definition git_config_iterator_glob (config : list git_config_entry) (suffix : string)
  : list git_config_entry :=
  List.filter (fun e => glob_matches suffix (ce_name e)) config.

(** The two locals the loop of [apply_insteadof] updates. *)
Record rewrite_state : Type := {
  match_length : nat;
  replacement : option string
}.

(** One turn of the [while (git_config_next (...) == 0)] loop. *)
Definition insteadof_next (url : string) (prefix_length suffix_length : nat)
    (st : rewrite_state) (entry : git_config_entry) : rewrite_state :=
  if negb (git__prefixcmp url (ce_value entry) =? 0) then st
  else
    let n := strlen (ce_value entry) in
    if (n <=? match_length st)%nat then st
    else
      let replacement_length :=
        size_sub (N.of_nat (strlen (ce_name entry)))
                 (N.of_nat (prefix_length + suffix_length)) in
      {| match_length := n;
         replacement :=
           Some (git__strndup (offset (ce_name entry) prefix_length)
                              replacement_length) |}.

Definition apply_insteadof (config : list git_config_entry) (url : string)
    (direction : git_direction) : string :=
  let prefix_length := (strlen PREFIX + 1)%nat in
  let suffix := suffix_for direction in
  let suffix_length := (strlen suffix + 1)%nat in
  let st :=
    fold_left (insteadof_next url prefix_length suffix_length)
              (git_config_iterator_glob config suffix)
              {| match_length := 0; replacement := None |} in
  if (match_length st =? 0)%nat then url
  else
    match replacement st with
    | Some r => r +:+ offset url (match_length st)
    | None => offset url (match_length st)
    end.

(** An entry that can win: its value is a non-empty prefix of the URL. *)
Definition usable (url : string) (e : git_config_entry) : bool :=
  String.prefix (ce_value e) url && negb (strlen (ce_value e) =? 0)%nat.

(** The key of an entry for replacement [r]. *)
Definition key_of (r suffix : string) : string :=
  PREFIX +:+ "." +:+ r +:+ "." +:+ suffix.


(** State of the loop after the entries [l] were visited: nothing usable
    was met, or the first of the longest usable entries is held. *)
Definition holds_first_longest (url : string) (prefix_length suffix_length : nat)
    (l : list git_config_entry) (st : rewrite_state) : Prop :=
  (match_length st = 0%nat /\ Forall (fun e => usable url e = false) l)
  \/ exists l1 e l2,
       l = l1 ++ e :: l2
       /\ usable url e = true
       /\ Forall (fun e' => usable url e' = true ->
                            (strlen (ce_value e') < strlen (ce_value e))%nat) l1
       /\ Forall (fun e' => usable url e' = true ->
                            (strlen (ce_value e') <= strlen (ce_value e))%nat) l2
       /\ match_length st = strlen (ce_value e)
       /\ replacement st =
            Some (git__strndup (offset (ce_name e) prefix_length)
                    (size_sub (N.of_nat (strlen (ce_name e)))
                              (N.of_nat (prefix_length + suffix_length)))).

Lemma insteadof_next_keeps (url : string) (pl sl : nat) l st e :
  holds_first_longest url pl sl l st ->
  holds_first_longest url pl sl (l ++ [e]) (insteadof_next url pl sl st e).
Proof.
  intros Hinv. unfold insteadof_next.
  destruct (git__prefixcmp url (ce_value e) =? 0) eqn:Hp; simpl.
  - destruct (strlen (ce_value e) <=? match_length st)%nat eqn:Hlen.
    + (* a prefix, but not longer than what is held *)
      apply Nat.leb_le in Hlen.
      destruct Hinv as [[H0 Hall]|(l1 & e0 & l2 & -> & Hu & H1 & H2 & Hm & Hr)].
      * left. split; [exact H0|]. apply Forall_app; split; [exact Hall|].
        constructor; [|constructor]. unfold usable.
        replace (strlen (ce_value e)) with 0%nat by lia.
        now rewrite andb_false_r.
      * right. exists l1, e0, (l2 ++ [e]). rewrite <- app_assoc. simpl.
        repeat split; auto.
        apply Forall_app; split; [exact H2|]. constructor; [|constructor].
        intros _. lia.
    + (* a longer prefix: it replaces what is held *)
      apply Nat.leb_gt in Hlen.
      assert (Hue : usable url e = true).
      { unfold usable. unfold git__prefixcmp in Hp.
        destruct (String.prefix (ce_value e) url); [|discriminate].
        simpl. apply negb_true_iff, Nat.eqb_neq. lia. }
      right. exists l, e, []. simpl. repeat split; auto.
      destruct Hinv as [[H0 Hall]|(l1 & e0 & l2 & -> & Hu & H1 & H2 & Hm & Hr)].
      * eapply Forall_impl; [exact Hall|]. simpl. intros x Hx Hx'. congruence.
      * rewrite Hm in Hlen. apply Forall_app; split.
        -- eapply Forall_impl; [exact H1|]. simpl. intros x Hx Hx'.
           specialize (Hx Hx'). lia.
        -- constructor; [intros _; lia|].
           eapply Forall_impl; [exact H2|]. simpl. intros x Hx Hx'.
           specialize (Hx Hx'). lia.
  - (* not a prefix *)
    assert (Hue : usable url e = false).
    { unfold usable. unfold git__prefixcmp in Hp.
      destruct (String.prefix (ce_value e) url); [discriminate|reflexivity]. }
    destruct Hinv as [[H0 Hall]|(l1 & e0 & l2 & -> & Hu & H1 & H2 & Hm & Hr)].
    + left. split; [exact H0|]. apply Forall_app; split; [exact Hall|].
      now constructor.
    + right. exists l1, e0, (l2 ++ [e]). rewrite <- app_assoc. simpl.
      repeat split; auto.
      apply Forall_app; split; [exact H2|]. constructor; [|constructor].
      intros Hx. congruence.
Qed.

Lemma insteadof_loop_keeps (url : string) (pl sl : nat) es : forall l st,
  holds_first_longest url pl sl l st ->
  holds_first_longest url pl sl (l ++ es) (fold_left (insteadof_next url pl sl) es st).
Proof.
  induction es as [|e es IH]; intros l st Hinv; simpl.
  - now rewrite app_nil_r.
  - replace (l ++ e :: es) with ((l ++ [e]) ++ es) by now rewrite <- app_assoc.
    apply IH. now apply insteadof_next_keeps.
Qed.

(** The key of an entry the iterator yields has a replacement in it, and
    the length arithmetic of the loop cuts exactly that replacement out. *)
Lemma glob_key_shape suffix name :
  glob_matches suffix name = true -> exists r, name = key_of r suffix.
Proof.
  unfold glob_matches, key_of. intros H.
  apply andb_true_iff in H as [H Hl]. apply andb_true_iff in H as [Hp Hs].
  apply Nat.leb_le in Hl.
  destruct (prefix_suffix_split _ _ _ Hp Hs Hl) as [r Hr].
  exists r. rewrite Hr. now rewrite append_assoc.
Qed.

Lemma cut_replacement r suffix :
  git__strndup (offset (key_of r suffix) (strlen PREFIX + 1))
    (size_sub (N.of_nat (strlen (key_of r suffix)))
              (N.of_nat (strlen PREFIX + 1 + (strlen suffix + 1)))) = r.
Proof.
  unfold key_of.
  change (PREFIX +:+ "." +:+ r +:+ "." +:+ suffix)
    with ((PREFIX +:+ ".") +:+ (r +:+ "." +:+ suffix)).
  change (strlen PREFIX + 1)%nat with (strlen (PREFIX +:+ ".")).
  rewrite offset_app. unfold git__strndup.
  rewrite !strlen_app. change (strlen ".") with 1%nat.
  rewrite size_sub_le by lia.
  replace (N.to_nat _) with (strlen r) by lia.
  apply substring_app.
Qed.

(** Scenarios S2 and S3 of the specification. *)
Example insteadof_S2 :
  apply_insteadof
    [ {| ce_name := "url.git@github.com:.insteadof"; ce_value := "https://github.com/" |} ]
    "https://github.com/acme/widget.git" GIT_DIRECTION_FETCH
  = "git@github.com:acme/widget.git".
Proof. reflexivity. Qed.

Example insteadof_S3 :
  apply_insteadof
    [ {| ce_name := "url.git@github.com:.insteadof"; ce_value := "https://github.com/" |};
      {| ce_name := "url.FOO.insteadof"; ce_value := "https://github.com/acme/" |} ]
    "https://github.com/acme/widget.git" GIT_DIRECTION_FETCH
  = "FOOwidget.git".
Proof. reflexivity. Qed.

(** C2, as amended.  The rewrite scans the [url.<replacement>.insteadof]
    (fetch) or [url.<replacement>.pushinsteadof] (push) entries in
    iteration order.  If no entry has a non-empty value that is a prefix
    of the URL, the URL comes back unchanged.  Otherwise the winner is the
    entry with the longest such value, and among entries of equal length
    the one met FIRST: every usable entry before it is strictly shorter,
    every usable entry after it is at most as long.  The result is the
    winner's replacement followed by the URL without the matched prefix. *)
Theorem apply_insteadof_first_longest (config : list git_config_entry)
    (url : string) (direction : git_direction) :
  let es := git_config_iterator_glob config (suffix_for direction) in
  (Forall (fun e => usable url e = false) es
   /\ apply_insteadof config url direction = url)
  \/ exists l1 e l2 r,
       es = l1 ++ e :: l2
       /\ usable url e = true
       /\ Forall (fun e' => usable url e' = true ->
                            (strlen (ce_value e') < strlen (ce_value e))%nat) l1
       /\ Forall (fun e' => usable url e' = true ->
                            (strlen (ce_value e') <= strlen (ce_value e))%nat) l2
       /\ ce_name e = key_of r (suffix_for direction)
       /\ apply_insteadof config url direction
          = r +:+ offset url (strlen (ce_value e)).
Proof.
  intros es. unfold apply_insteadof. fold es.
  set (pl := (strlen PREFIX + 1)%nat). set (sl := (strlen (suffix_for direction) + 1)%nat).
  assert (Hinv : holds_first_longest url pl sl ([] ++ es)
            (fold_left (insteadof_next url pl sl) es
               {| match_length := 0; replacement := None |})).
  { apply insteadof_loop_keeps. left. split; [reflexivity|constructor]. }
  simpl in Hinv.
  destruct Hinv as [[H0 Hall]|(l1 & e & l2 & Hes & Hu & H1 & H2 & Hm & Hr)].
  - left. split; [exact Hall|]. now rewrite H0.
  - right.
    assert (Hin : In e es) by (rewrite Hes; apply in_or_app; right; now left).
    apply filter_In in Hin as [_ Hshape].
    destruct (glob_key_shape _ _ Hshape) as [r Hname].
    exists l1, e, l2, r. repeat split; auto.
    rewrite Hm, Hr.
    assert (Hpos : (strlen (ce_value e) =? 0)%nat = false).
    { unfold usable in Hu. apply andb_true_iff in Hu as [_ Hu].
      now apply negb_true_iff in Hu. }
    rewrite Hpos. rewrite Hname. unfold pl, sl. now rewrite cut_replacement.
Qed.

(** The claim as the specification words it: the winner is the longest
    prefix, ties going to the entry met LAST. *)
Definition last_longest_claim : Prop :=
  forall (config : list git_config_entry) (url : string) (direction : git_direction)
         (l1 l2 : list git_config_entry) (e : git_config_entry) (r : string),
    git_config_iterator_glob config (suffix_for direction) = l1 ++ e :: l2 ->
    String.prefix (ce_value e) url = true ->
    Forall (fun e' => String.prefix (ce_value e') url = true ->
                      (strlen (ce_value e') <= strlen (ce_value e))%nat) l1 ->
    Forall (fun e' => String.prefix (ce_value e') url = true ->
                      (strlen (ce_value e') < strlen (ce_value e))%nat) l2 ->
    ce_name e = key_of r (suffix_for direction) ->
    apply_insteadof config url direction = r +:+ offset url (strlen (ce_value e)).

Definition tie_config : list git_config_entry :=
  [ {| ce_name := "url.A.insteadof"; ce_value := "https://github.com/" |};
    {| ce_name := "url.B.insteadof"; ce_value := "https://github.com/" |} ].

(** C2, counterexample.  Two entries with the same value: the code keeps
    the first replacement ([A]), the claim asks for the last ([B]). *)
Lemma apply_insteadof_tie_goes_to_first :
  apply_insteadof tie_config "https://github.com/x.git" GIT_DIRECTION_FETCH = "Ax.git"
  /\ ~ last_longest_claim.
Proof.
  split; [reflexivity|].
  intros H.
  specialize (H tie_config "https://github.com/x.git" GIT_DIRECTION_FETCH
                [ {| ce_name := "url.A.insteadof"; ce_value := "https://github.com/" |} ]
                []
                {| ce_name := "url.B.insteadof"; ce_value := "https://github.com/" |}
                "B").
  assert (Hres : apply_insteadof tie_config "https://github.com/x.git" GIT_DIRECTION_FETCH
                 = "Bx.git").
  { apply H; try reflexivity.
    - constructor; [|constructor]. intros _. simpl. lia.
    - constructor. }
  discriminate Hres.
Qed.

End Insteadof.

(** ** Default branch discovery ([git_remote_default_branch]) *)

Module DefaultBranch.
Import Cstr.

(** What the function reads of the remote: its transport slot, and the
    heads the transport's [ls] hands out ([None]: no refs loaded, [ls]
    fails). *)
Record git_transport : Type := {
  tr_heads : option (list git_remote_head)
}.

Record git_remote : Type := {
  transport : option git_transport
}.

Definition git_remote_ls (remote : git_remote) : Z * list git_remote_head :=
  match transport remote with
  | None => (-1, [])
  | Some t =>
      match tr_heads t with
      | Some heads => (0, heads)
      | None => (-1, [])
      end
  end.

(** The loop [for (i = 1; i < heads_len; i++)] over [heads[1..]], with
    the local [guess]. *)
Fixpoint guess_loop (head_id : git_oid) (heads : list git_remote_head)
    (guess : option git_remote_head) : option git_remote_head :=
  match heads with
  | [] => guess
  | h :: rest =>
      if negb (git_oid_cmp head_id (rh_oid h) =? 0) then guess_loop head_id rest guess
      else if negb (git__prefixcmp (rh_name h) GIT_REFS_HEADS_DIR =? 0)
      then guess_loop head_id rest guess
      else
        match guess with
        | None => guess_loop head_id rest (Some h)
        | Some _ =>
            if git__strcmp GIT_REFS_HEADS_MASTER_FILE (rh_name h) =? 0
            then Some h
            else guess_loop head_id rest guess
        end
  end.

(** Returns the code and the contents of the [out] buffer. *)
Definition git_remote_default_branch (out : string) (remote : git_remote)
  : Z * string :=
  let '(error, heads) := git_remote_ls remote in
  if error <? 0 then (error, out)
  else
    match heads with
    | [] => (GIT_ENOTFOUND, out)
    | head0 :: rest =>
        if negb (git__strcmp (rh_name head0) GIT_HEAD_FILE =? 0)
        then (GIT_ENOTFOUND, out)
        else
          match rh_symref_target head0 with
          | Some target => (0, out +:+ target)
          | None =>
              match guess_loop (rh_oid head0) rest None with
              | None => (GIT_ENOTFOUND, out)
              | Some guess => (0, out +:+ rh_name guess)
              end
          end
    end.

(** The claim, in its own words.  HEAD's id is the id of the advertised
    head that is named [HEAD]; a candidate is an advertised head under
    [refs/heads/] with that id. *)
Definition is_head (h : git_remote_head) : bool :=
  String.eqb (rh_name h) GIT_HEAD_FILE.

Definition is_candidate (head_id : git_oid) (h : git_remote_head) : bool :=
  String.prefix GIT_REFS_HEADS_DIR (rh_name h) && (rh_oid h =? head_id)%N.

Definition is_master (h : git_remote_head) : bool :=
  String.eqb (rh_name h) GIT_REFS_HEADS_MASTER_FILE.

(** [refs/heads/master] if it is a candidate, else the first candidate. *)
Definition pick_candidate (head_id : git_oid) (heads : list git_remote_head)
  : option string :=
  let candidates := List.filter (is_candidate head_id) heads in
  if existsb is_master candidates then Some GIT_REFS_HEADS_MASTER_FILE
  else
    match candidates with
    | first :: _ => Some (rh_name first)
    | [] => None
    end.

Definition guess_claim (heads : list git_remote_head) : option string :=
  match List.find is_head heads with
  | Some head => pick_candidate (rh_oid head) heads
  | None => None
  end.

(** The symbolic target of the first head when that head is [HEAD] and
    has one; otherwise the pick among the candidates. *)
Definition default_branch_claim (heads : list git_remote_head) : option string :=
  match heads with
  | [] => None
  | head0 :: _ =>
      if is_head head0 then
        match rh_symref_target head0 with
        | Some target => Some target
        | None => guess_claim heads
        end
      else guess_claim heads
  end.

(** The claim as a statement about the code. *)
Definition default_branch_claim_holds : Prop :=
  forall (heads : list git_remote_head) (out : string),
    git_remote_default_branch out {| transport := Some {| tr_heads := Some heads |} |}
    = match default_branch_claim heads with
      | Some branch => (0, out +:+ branch)
      | None => (GIT_ENOTFOUND, out)
      end.











(** The same heads, with [HEAD] advertised in second place. *)
Definition heads_dev_first : list git_remote_head :=
  [ {| rh_name := "refs/heads/dev"; rh_oid := 7%N; rh_symref_target := None |};
    {| rh_name := "HEAD"; rh_oid := 7%N; rh_symref_target := None |};
    {| rh_name := "refs/heads/master"; rh_oid := 7%N; rh_symref_target := None |} ].

(** C9, counterexample.  [dev], [HEAD] and [master] share an id and
    [dev] is advertised first.  The first head is not [HEAD], so the
    claim goes to the candidates: [dev] and [master] are under
    [refs/heads/] with HEAD's id, and master is among them, so the claim
    gives [refs/heads/master].  The code stops at the name of the first
    head and answers not-found, with the buffer untouched. *)
Lemma default_branch_needs_head_first :
  default_branch_claim heads_dev_first = Some "refs/heads/master"
  /\ git_remote_default_branch EmptyString
       {| transport := Some {| tr_heads := Some heads_dev_first |} |}
     = (GIT_ENOTFOUND, EmptyString)
  /\ ~ default_branch_claim_holds.
Proof.
  split; [reflexivity|]. split; [reflexivity|].
  intros H. specialize (H heads_dev_first EmptyString). discriminate H.
Qed.

End DefaultBranch.

(** ** The pending-callback stack and the resumable operation driver *)

Module Driver.

(** The resume closures of remote.c that are pushed on the stack, and
    [cb_transport k], a closure that code outside remote.c (a transport)
    registered for itself. *)
Inductive git_perform_cb : Type :=
| cb_connect_perform
| cb_connect_performurl
| cb_download_perform_negotiate
| cb_download_performconnect
| cb_fetch_performdisconnect
| cb_fetch_performdownload
| cb_fetch_performconnect
| cb_upload_perform_finish
| cb_upload_performconnect
| cb_push_performdisconnect
| cb_push_performupload
| cb_push_performconnect
| cb_transport (k : nat).

(** The [set_fd_events] hook: the file's own [select]-based one, or one
    of the caller. *)
Inductive fd_events_cb : Type :=
| fd_events_default
| fd_events_custom.

(** [git_remote_callbacks]: which hooks are set ([true]: not NULL). *)
Record git_remote_callbacks : Type := {
  cbs_version : nat;
  cbs_resolve_url : bool;
  cbs_transport : bool;
  cbs_push_update_reference : bool;
  cbs_set_fd_events : option fd_events_cb
}.

Definition GIT_REMOTE_CALLBACKS_VERSION : nat := 1.
Definition GIT_FETCH_OPTIONS_VERSION : nat := 1.
Definition GIT_PUSH_OPTIONS_VERSION : nat := 1.

Definition GIT_REMOTE_CALLBACKS_INIT : git_remote_callbacks :=
  {| cbs_version := GIT_REMOTE_CALLBACKS_VERSION;
     cbs_resolve_url := false;
     cbs_transport := false;
     cbs_push_update_reference := false;
     cbs_set_fd_events := None |}.

Inductive git_fetch_prune_t : Type :=
| GIT_FETCH_PRUNE_UNSPECIFIED
| GIT_FETCH_PRUNE
| GIT_FETCH_NO_PRUNE.

Record git_fetch_options : Type := {
  fo_version : nat;
  fo_callbacks : git_remote_callbacks;
  fo_prune : git_fetch_prune_t
}.

Record git_push_options : Type := {
  po_version : nat;
  po_callbacks : git_remote_callbacks
}.

Definition GIT_FETCH_OPTIONS_INIT : git_fetch_options :=
  {| fo_version := GIT_FETCH_OPTIONS_VERSION;
     fo_callbacks := GIT_REMOTE_CALLBACKS_INIT;
     fo_prune := GIT_FETCH_PRUNE_UNSPECIFIED |}.

Definition GIT_PUSH_OPTIONS_INIT : git_push_options :=
  {| po_version := GIT_PUSH_OPTIONS_VERSION;
     po_callbacks := GIT_REMOTE_CALLBACKS_INIT |}.

(** The fields of [struct git_remote] the driver reads and writes.
    Transport objects are named by numbers; [perform_callbacks] is the
    fixed-size array (a NULL slot is [None]) and [perform_num_cb] its
    fill count. *)
Record git_remote : Type := {
  repo : bool;
  url : option string;
  pushurl : option string;
  push_refspecs : list string;
  dir : git_direction;
  transport : option nat;
  connect_transport : option nat;
  callbacks : git_remote_callbacks;
  push : bool;
  prune_refs : bool;
  opts_fetch : git_fetch_options;
  opts_push : git_push_options;
  requested_refspecs : list string;
  passed_refspecs : bool;
  perform_callbacks : list (option git_perform_cb);
  perform_num_cb : nat
}.

Definition set_stack (r : git_remote) (a : list (option git_perform_cb)) (n : nat) : git_remote :=
  {| repo := repo r; url := url r; pushurl := pushurl r; push_refspecs := push_refspecs r;
     dir := dir r; transport := transport r; connect_transport := connect_transport r;
     callbacks := callbacks r; push := push r; prune_refs := prune_refs r;
     opts_fetch := opts_fetch r; opts_push := opts_push r;
     requested_refspecs := requested_refspecs r; passed_refspecs := passed_refspecs r;
     perform_callbacks := a; perform_num_cb := n |}.

Definition set_transports (r : git_remote) (t ct : option nat) : git_remote :=
  {| repo := repo r; url := url r; pushurl := pushurl r; push_refspecs := push_refspecs r;
     dir := dir r; transport := t; connect_transport := ct;
     callbacks := callbacks r; push := push r; prune_refs := prune_refs r;
     opts_fetch := opts_fetch r; opts_push := opts_push r;
     requested_refspecs := requested_refspecs r; passed_refspecs := passed_refspecs r;
     perform_callbacks := perform_callbacks r; perform_num_cb := perform_num_cb r |}.

Definition set_dir_callbacks (r : git_remote) (d : git_direction)
    (c : git_remote_callbacks) : git_remote :=
  {| repo := repo r; url := url r; pushurl := pushurl r; push_refspecs := push_refspecs r;
     dir := d; transport := transport r; connect_transport := connect_transport r;
     callbacks := c; push := push r; prune_refs := prune_refs r;
     opts_fetch := opts_fetch r; opts_push := opts_push r;
     requested_refspecs := requested_refspecs r; passed_refspecs := passed_refspecs r;
     perform_callbacks := perform_callbacks r; perform_num_cb := perform_num_cb r |}.

Definition set_push (r : git_remote) (p : bool) : git_remote :=
  {| repo := repo r; url := url r; pushurl := pushurl r; push_refspecs := push_refspecs r;
     dir := dir r; transport := transport r; connect_transport := connect_transport r;
     callbacks := callbacks r; push := p; prune_refs := prune_refs r;
     opts_fetch := opts_fetch r; opts_push := opts_push r;
     requested_refspecs := requested_refspecs r; passed_refspecs := passed_refspecs r;
     perform_callbacks := perform_callbacks r; perform_num_cb := perform_num_cb r |}.

Definition set_opts (r : git_remote) (f : git_fetch_options) (p : git_push_options)
  : git_remote :=
  {| repo := repo r; url := url r; pushurl := pushurl r; push_refspecs := push_refspecs r;
     dir := dir r; transport := transport r; connect_transport := connect_transport r;
     callbacks := callbacks r; push := push r; prune_refs := prune_refs r;
     opts_fetch := f; opts_push := p;
     requested_refspecs := requested_refspecs r; passed_refspecs := passed_refspecs r;
     perform_callbacks := perform_callbacks r; perform_num_cb := perform_num_cb r |}.

Definition set_requested (r : git_remote) (l : list string) (passed : bool) : git_remote :=
  {| repo := repo r; url := url r; pushurl := pushurl r; push_refspecs := push_refspecs r;
     dir := dir r; transport := transport r; connect_transport := connect_transport r;
     callbacks := callbacks r; push := push r; prune_refs := prune_refs r;
     opts_fetch := opts_fetch r; opts_push := opts_push r;
     requested_refspecs := l; passed_refspecs := passed;
     perform_callbacks := perform_callbacks r; perform_num_cb := perform_num_cb r |}.

(** Calls that leave remote.c. *)
Inductive ext_call : Type :=
| X_resolve_url
| X_transport_cb
| X_transport_new
| X_set_custom_headers
| X_set_callbacks
| X_connect
| X_is_connected
| X_cancel
| X_close
| X_ls
| X_parse_refspec
| X_dwim
| X_negotiate
| X_download_pack
| X_push_new
| X_push_set_options
| X_push_add_refspec
| X_push_finish
| X_push_status_foreach
| X_update_tips
| X_prune
| X_select
| X_resume (k : nat).

(** What such a call does, as far as the driver can tell: the code it
    returns and, possibly, a resume closure of its own that it registered
    on the remote before returning. *)
Record ext_outcome : Type := {
  ret_code : Z;
  registers : option nat
}.

(** The environment: the outcome of the [n]-th call that leaves the file,
    by callee. *)
Definition world : Type := ext_call -> nat -> ext_outcome.

(** The remote and the count of calls made so far. *)
Record machine : Type := {
  rem : git_remote;
  clock : nat
}.

(** Computations over the machine; [None] is a run that did not finish
    (a fault such as a NULL dereference, or no fuel left). *)
Definition M (A : Type) : Type := machine -> option (A * machine).

Definition ret {A : Type} (a : A) : M A := fun m => Some (a, m).

Definition bind {A B : Type} (c : M A) (k : A -> M B) : M B :=
  fun m => match c m with
           | Some (a, m') => k a m'
           | None => None
           end.

Definition fault {A : Type} : M A := fun _ => None.

Definition get : M git_remote := fun m => Some (rem m, m).

Definition put (r : git_remote) : M unit :=
  fun m => Some (tt, {| rem := r; clock := clock m |}).

Notation "'let!' x ':=' c 'in' k" := (bind c (fun x => k))
  (at level 10, x name, c at level 200, k at level 200, only parsing).

(** [remote->perform_callbacks[i] = cb]: a store past the array is a fault. *)
Definition array_store (a : list (option git_perform_cb)) (i : nat)
    (cb : option git_perform_cb) : option (list (option git_perform_cb)) :=
  if (i <? length a)%nat then Some (<[i := cb]> a) else None.

Definition git_remote_add_performcb (cb : git_perform_cb) : M Z :=
  let! remote := get in
  let num_cb := perform_num_cb remote in
  if (num_cb <? length (perform_callbacks remote))%nat then
    match array_store (perform_callbacks remote) num_cb (Some cb) with
    | Some a =>
        let! _ := put (set_stack remote a (S num_cb)) in
        ret GIT_OK
    | None => fault
    end
  else ret GIT_ERROR.

Definition check_version (v : option nat) (max : nat) : bool :=
  match v with
  | None => true
  | Some actual => (0 <? actual)%nat && (actual <=? max)%nat
  end.

Definition is_sync (c : git_remote_callbacks) : bool :=
  match cbs_set_fd_events c with
  | None => true
  | Some fd_events_default => true
  | Some fd_events_custom => false
  end.

Definition GIT_EVENT_READ : Z := 1.
Definition GIT_EVENT_WRITE : Z := 2.
Definition GIT_EVENT_ERR : Z := 4.
Definition GIT_EVENT_TIMEOUT : Z := 8.

Section Stages.

(** The fork's two additional return codes; git2/errors.h is not among
    the sources, so their values are parameters. *)
Variable GIT_EAGAIN : Z.
Variable GIT_EBUSY : Z.

Variable w : world.

(** A call that leaves the file. *)
Definition ext (c : ext_call) : M Z :=
  fun m =>
    let o := w c (clock m) in
    let m1 := {| rem := rem m; clock := S (clock m) |} in
    match registers o with
    | None => Some (ret_code o, m1)
    | Some k =>
        match git_remote_add_performcb (cb_transport k) m1 with
        | Some (e, m2) => if e <? 0 then Some (e, m2) else Some (ret_code o, m2)
        | None => None
        end
    end.

Definition check_busy : M Z :=
  let! remote := get in
  if negb (perform_num_cb remote =? 0)%nat then ret GIT_EBUSY else ret GIT_OK.

Definition init_remote_callbacks (cbs : option git_remote_callbacks) : M unit :=
  let! remote := get in
  match cbs with
  | Some c => put (set_dir_callbacks remote (dir remote) c)
  | None => put (set_dir_callbacks remote (dir remote) GIT_REMOTE_CALLBACKS_INIT)
  end.

Definition init_eventcb_data : M unit :=
  let! remote := get in
  if is_sync (callbacks remote) then
    let c := callbacks remote in
    put (set_dir_callbacks remote (dir remote)
           {| cbs_version := cbs_version c;
              cbs_resolve_url := cbs_resolve_url c;
              cbs_transport := cbs_transport c;
              cbs_push_update_reference := cbs_push_update_reference c;
              cbs_set_fd_events := Some fd_events_default |})
  else ret tt.

Definition resolve_url : M Z :=
  let! remote := get in
  if cbs_resolve_url (callbacks remote) then
    let! status := ext X_resolve_url in
    if negb (status =? GIT_PASSTHROUGH) then ret status else ret 0
  else ret 0.

Definition git_remote__urlfordirection : M Z :=
  let! remote := get in
  let u := match dir remote with
           | GIT_DIRECTION_FETCH => url remote
           | GIT_DIRECTION_PUSH =>
               match pushurl remote with
               | Some p => Some p
               | None => url remote
               end
           end in
  match u with
  | None => ret GIT_EINVALID
  | Some _ => resolve_url
  end.

(** [git_remote_connected]: the transport's answer, 0 without one. *)
Definition git_remote_connected : M Z :=
  let! remote := get in
  match transport remote with
  | None => ret 0
  | Some _ => ext X_is_connected
  end.

(** [git_remote_stop]: the transport's [cancel], when there is a
    transport; whatever that call does, the result is 0. *)
Definition git_remote_stop : M Z :=
  let! remote := get in
  match transport remote with
  | None => ret 0
  | Some _ =>
      let! _ := ext X_cancel in
      ret 0
  end.

(** [git_remote_disconnect]: the transport's [close], when
    [git_remote_connected] is not 0; the result of [close] is dropped and
    the function returns 0. *)
Definition git_remote_disconnect : M Z :=
  let! connected := git_remote_connected in
  if negb (connected =? 0) then
    let! _ := ext X_close in
    ret 0
  else ret 0.

Definition git_remote_ls : M Z :=
  let! remote := get in
  match transport remote with
  | None => ret (-1)
  | Some _ => ext X_ls
  end.

Definition ls_to_vector : M Z :=
  let! e := git_remote_ls in
  if e <? 0 then ret (-1) else ret 0.

(** The recursive calls: what is below the entry popped by a dispatch is
    run by [dispatch], and the wait loop has [loop_fuel] turns. *)
Variable dispatch : Z -> M Z.
Variable loop_fuel : nat.

Definition git_remote_rearm_performcb (events : Z) (cb : git_perform_cb) : M Z :=
  let! err := dispatch events in
  if (err <? 0) && (err =? GIT_EAGAIN) then
    let! err2 := git_remote_add_performcb cb in
    if err2 <? 0 then ret err2 else ret GIT_EAGAIN
  else ret err.

Definition git_remote_perform (events : Z) : M Z :=
  let! err := dispatch events in
  if (err <? 0) && (err =? GIT_ENOTFOUND) then ret GIT_ERROR else ret err.

(** [perform_all]: the [do ... while (err == GIT_EAGAIN)] loop around
    [select].  A non-negative result of [select] stands for the set of
    events found on the descriptor (none: a timeout). *)
Fixpoint perform_all (n : nat) : M Z :=
  match n with
  | O => fault
  | S n' =>
      let! sret := ext X_select in
      if sret <? 0 then
        let! _ := git_remote_stop in
        ret GIT_ERROR
      else
        let events := if sret =? 0 then GIT_EVENT_TIMEOUT else sret in
        let! err := git_remote_perform events in
        if err =? GIT_EAGAIN then perform_all n' else ret err
  end.

Definition perform_all_fun (func : M Z) : M Z :=
  let! _ := init_eventcb_data in
  let! err := func in
  let! remote := get in
  if (err =? GIT_EAGAIN) && is_sync (callbacks remote)
  then perform_all loop_fuel
  else ret err.

(** *** connect *)

Definition connect_on_error (t : option nat) (error : Z) : M Z :=
  let! remote := get in
  let! _ := put (if decide (t = transport remote)
                 then set_transports remote None (connect_transport remote)
                 else remote) in
  ret error.

Definition git_remote__connect_goturl : M Z :=
  let! remote := get in
  let t0 := transport remote in
  (* a transport object: the one at hand, the caller's factory, the registry *)
  let! made :=
    match t0 with
    | Some t => ret (0, Some t)
    | None =>
        if cbs_transport (callbacks remote) then
          let! m := (fun m => Some (clock m, m)) in
          let! error := ext X_transport_cb in
          if error <? 0 then ret (error, None) else ret (0, Some m)
        else
          let! m := (fun m => Some (clock m, m)) in
          let! error := ext X_transport_new in
          if error <? 0 then ret (error, None) else ret (0, Some m)
    end in
  let '(error, t) := made in
  if error <? 0 then connect_on_error t error
  else
    let! error := ext X_set_custom_headers in
    if negb (error =? 0) then connect_on_error t error
    else
      let! error := ext X_set_callbacks in
      if error <? 0 then connect_on_error t error
      else
        let! error := ext X_connect in
        if error <? 0 then
          if error =? GIT_EAGAIN then
            let! error := git_remote_add_performcb cb_connect_perform in
            if error <? 0 then connect_on_error t error
            else
              let! remote := get in
              let! _ := put (set_transports remote (transport remote) t) in
              ret GIT_EAGAIN
          else connect_on_error t error
        else
          let! remote := get in
          let! _ := put (set_transports remote t (connect_transport remote)) in
          ret GIT_OK.

Definition git_remote__connect_perform (events : Z) : M Z :=
  let! remote := get in
  let t := connect_transport remote in
  let! err := git_remote_rearm_performcb events cb_connect_perform in
  let! remote := get in
  if err <? 0 then
    if negb (err =? GIT_EAGAIN) then
      match t with
      | None => fault
      | Some _ =>
          let! _ := put (set_transports remote
                           (if decide (t = transport remote) then None else transport remote)
                           None) in
          ret err
      end
    else ret err
  else
    let! _ := put (set_transports remote t None) in
    ret err.

Definition git_remote__connect_performurl (events : Z) : M Z :=
  let! err := git_remote_rearm_performcb events cb_connect_performurl in
  if err <? 0 then ret err else git_remote__connect_goturl.

Definition git_remote__connect : M Z :=
  let! error := git_remote__urlfordirection in
  if error <? 0 then
    if error =? GIT_EAGAIN then
      let! error := git_remote_add_performcb cb_connect_performurl in
      if 0 <=? error then ret GIT_EAGAIN else ret error
    else ret error
  else git_remote__connect_goturl.

Definition git_remote_connect (direction : git_direction)
    (cbs : option git_remote_callbacks) : M Z :=
  let! err := check_busy in
  if err <? 0 then ret err
  else if negb (check_version (cbs_version <$> cbs) GIT_REMOTE_CALLBACKS_VERSION)
  then ret (-1)
  else
    let! remote := get in
    let! _ := put (set_dir_callbacks remote direction (callbacks remote)) in
    let! _ := init_remote_callbacks cbs in
    perform_all_fun git_remote__connect.

(** *** download *)

Definition git_remote_download_negotiated : M Z := ext X_download_pack.

Definition git_remote_download_perform_negotiate (events : Z) : M Z :=
  let! err := git_remote_rearm_performcb events cb_download_perform_negotiate in
  if err <? 0 then ret err else git_remote_download_negotiated.

Definition git_remote_download_connected : M Z :=
  let! remote := get in
  let! _ := put (set_push remote false) in
  let! error := ext X_negotiate in
  if error <? 0 then
    if error =? GIT_EAGAIN then
      let! error := git_remote_add_performcb cb_download_perform_negotiate in
      if 0 <=? error then ret GIT_EAGAIN else ret error
    else ret error
  else git_remote_download_negotiated.

Definition git_remote_download_performconnect (events : Z) : M Z :=
  let! err := git_remote_rearm_performcb events cb_download_performconnect in
  if err <? 0 then ret err else perform_all_fun git_remote_download_connected.

(** The loop over the refspecs the caller passed ([add_refspec_to]). *)
Fixpoint add_refspecs (call : ext_call) (strings : list string) : M Z :=
  match strings with
  | [] => ret 0
  | _ :: rest =>
      let! error := ext call in
      if error <? 0 then ret error else add_refspecs call rest
  end.

Definition git_remote_download (refspecs : option (list string))
    (opts : option git_fetch_options) : M Z :=
  let! error := check_busy in
  if error <? 0 then ret error
  else
    let! remote := get in
    if negb (repo remote) then ret (-1)
    else if negb (check_version (fo_version <$> opts) GIT_FETCH_OPTIONS_VERSION)
    then ret (-1)
    else if negb (check_version ((fun o => cbs_version (fo_callbacks o)) <$> opts)
                    GIT_REMOTE_CALLBACKS_VERSION)
    then ret (-1)
    else
      let cbs := fo_callbacks <$> opts in
      let! error := ls_to_vector in
      if error <? 0 then ret error
      else
        let! remote := get in
        let! _ := put (set_requested remote (requested_refspecs remote) false) in
        let! error :=
          match refspecs with
          | None | Some [] => ret 0
          | Some strings =>
              let! error := add_refspecs X_parse_refspec strings in
              if error <? 0 then ret error
              else
                let! remote := get in
                let! _ := put (set_requested remote (requested_refspecs remote) true) in
                ret 0
          end in
        if error <? 0 then ret error
        else
          let! error := ext X_dwim in
          if error <? 0 then ret error
          else
            let! error := ext X_dwim in
            if error <? 0 then ret error
            else
              let! connected := git_remote_connected in
              if negb (connected =? 0) then
                let! _ := init_remote_callbacks cbs in
                perform_all_fun git_remote_download_connected
              else
                let! error := git_remote_connect GIT_DIRECTION_FETCH cbs in
                if error <? 0 then
                  if error =? GIT_EAGAIN then
                    let! error := git_remote_add_performcb cb_download_performconnect in
                    if 0 <=? error then ret GIT_EAGAIN else ret error
                  else ret error
                else perform_all_fun git_remote_download_connected.

(** *** fetch *)

Definition git_remote_fetch_cleanup (err : Z) : M Z :=
  let! remote := get in
  let! _ := put (set_requested remote [] (passed_refspecs remote)) in
  ret err.

Definition git_remote_fetch_disconnected : M Z :=
  let! error := ext X_update_tips in
  if error <? 0 then git_remote_fetch_cleanup error
  else
    let! remote := get in
    let prune :=
      match fo_prune (opts_fetch remote) with
      | GIT_FETCH_PRUNE => true
      | GIT_FETCH_PRUNE_UNSPECIFIED => prune_refs remote
      | GIT_FETCH_NO_PRUNE => false
      end in
    if prune then
      let! error := ext X_prune in
      git_remote_fetch_cleanup error
    else git_remote_fetch_cleanup error.

Definition git_remote_fetch_performdisconnect (events : Z) : M Z :=
  let! err := git_remote_rearm_performcb events cb_fetch_performdisconnect in
  if err <? 0 then
    if err =? GIT_EAGAIN then ret err else git_remote_fetch_cleanup err
  else git_remote_fetch_disconnected.

Definition git_remote_fetch_downloaded : M Z :=
  let! error := git_remote_disconnect in
  if error <? 0 then
    if error =? GIT_EAGAIN then
      let! error := git_remote_add_performcb cb_fetch_performdisconnect in
      if 0 <=? error then ret GIT_EAGAIN else git_remote_fetch_cleanup error
    else git_remote_fetch_cleanup error
  else git_remote_fetch_disconnected.

Definition git_remote_fetch_performdownload (events : Z) : M Z :=
  let! err := git_remote_rearm_performcb events cb_fetch_performdownload in
  if err <? 0 then
    if err =? GIT_EAGAIN then ret err else git_remote_fetch_cleanup err
  else git_remote_fetch_downloaded.

Definition git_remote_fetch_connected : M Z :=
  let! remote := get in
  let! error := git_remote_download (Some (requested_refspecs remote))
                                    (Some (opts_fetch remote)) in
  if error <? 0 then
    if error =? GIT_EAGAIN then
      let! error := git_remote_add_performcb cb_fetch_performdownload in
      if 0 <=? error then ret GIT_EAGAIN else git_remote_fetch_cleanup error
    else git_remote_fetch_cleanup error
  else git_remote_fetch_downloaded.

Definition git_remote_fetch_performconnect (events : Z) : M Z :=
  let! err := git_remote_rearm_performcb events cb_fetch_performconnect in
  if err <? 0 then
    if negb (err =? GIT_EAGAIN) then git_remote_fetch_cleanup err else ret err
  else git_remote_fetch_connected.

Definition git_remote_fetch (refspecs : option (list string))
    (opts : option git_fetch_options) : M Z :=
  let! error := check_busy in
  if error <? 0 then ret error
  else if negb (check_version (fo_version <$> opts) GIT_FETCH_OPTIONS_VERSION)
  then ret (-1)
  else
    let! remote := get in
    let! _ := put (set_opts remote (default GIT_FETCH_OPTIONS_INIT opts)
                                   (opts_push remote)) in
    let cbs := fo_callbacks <$> opts in
    let! remote := get in
    let! _ := match refspecs with
              | Some strings => put (set_requested remote strings (passed_refspecs remote))
              | None => ret tt
              end in
    let! error := git_remote_connect GIT_DIRECTION_FETCH cbs in
    if error <? 0 then
      if error =? GIT_EAGAIN then
        let! error := git_remote_add_performcb cb_fetch_performconnect in
        if 0 <=? error then ret GIT_EAGAIN else git_remote_fetch_cleanup error
      else git_remote_fetch_cleanup error
    else git_remote_fetch_connected.

(** *** upload *)

Definition git_remote_upload_finished : M Z :=
  let! remote := get in
  if cbs_push_update_reference (callbacks remote)
  then ext X_push_status_foreach
  else ret GIT_OK.

Definition git_remote_upload_perform_finish (events : Z) : M Z :=
  let! err := git_remote_rearm_performcb events cb_upload_perform_finish in
  if err <? 0 then ret err else git_remote_upload_finished.

Definition git_remote_upload_connected : M Z :=
  let! error := ext X_push_finish in
  if error <? 0 then
    if error =? GIT_EAGAIN then
      let! error := git_remote_add_performcb cb_upload_perform_finish in
      if 0 <=? error then ret GIT_EAGAIN else ret error
    else ret error
  else git_remote_upload_finished.

Definition git_remote_upload_performconnect (events : Z) : M Z :=
  let! err := git_remote_rearm_performcb events cb_upload_performconnect in
  if err <? 0 then ret err else perform_all_fun git_remote_upload_connected.

Definition git_remote_upload (refspecs : option (list string))
    (opts : option git_push_options) : M Z :=
  let! error := check_busy in
  if error <? 0 then ret error
  else
    let! remote := get in
    if negb (repo remote) then ret (-1)
    else if negb (check_version (po_version <$> opts) GIT_PUSH_OPTIONS_VERSION)
    then ret (-1)
    else if negb (check_version ((fun o => cbs_version (po_callbacks o)) <$> opts)
                    GIT_REMOTE_CALLBACKS_VERSION)
    then ret (-1)
    else
      let cbs := po_callbacks <$> opts in
      let! error := ext X_dwim in
      if error <? 0 then ret error
      else
        let! remote := get in
        let! _ := put (set_push remote false) in
        let! error := ext X_push_new in
        if error <? 0 then ret error
        else
          let! remote := get in
          let! _ := put (set_push remote true) in
          let! error := match opts with
                        | Some _ => ext X_push_set_options
                        | None => ret 0
                        end in
          if error <? 0 then ret error
          else
            let! remote := get in
            let! error :=
              match refspecs with
              | None | Some [] => add_refspecs X_push_add_refspec (push_refspecs remote)
              | Some strings => add_refspecs X_push_add_refspec strings
              end in
            if error <? 0 then ret error
            else
              let! connected := git_remote_connected in
              if negb (connected =? 0) then
                let! _ := init_remote_callbacks cbs in
                perform_all_fun git_remote_upload_connected
              else
                let! error := git_remote_connect GIT_DIRECTION_PUSH cbs in
                if error <? 0 then
                  if error =? GIT_EAGAIN then
                    let! error := git_remote_add_performcb cb_upload_performconnect in
                    if 0 <=? error then ret GIT_EAGAIN else ret error
                  else ret error
                else perform_all_fun git_remote_upload_connected.

(** *** push *)

Definition git_remote_push_cleanup (err : Z) : M Z :=
  let! remote := get in
  let! _ := put (set_requested remote [] (passed_refspecs remote)) in
  ret err.

Definition git_remote_push_disconnected : M Z :=
  let! err := ext X_update_tips in
  git_remote_push_cleanup err.

Definition git_remote_push_performdisconnect (events : Z) : M Z :=
  let! err := git_remote_rearm_performcb events cb_push_performdisconnect in
  if err <? 0 then
    if err =? GIT_EAGAIN then ret err else git_remote_push_cleanup err
  else git_remote_push_disconnected.

Definition git_remote_push_uploaded : M Z :=
  let! error := git_remote_disconnect in
  if error <? 0 then
    if error =? GIT_EAGAIN then
      let! error := git_remote_add_performcb cb_push_performdisconnect in
      if 0 <=? error then ret GIT_EAGAIN else git_remote_push_cleanup error
    else git_remote_push_cleanup error
  else git_remote_push_disconnected.

Definition git_remote_push_performupload (events : Z) : M Z :=
  let! err := git_remote_rearm_performcb events cb_push_performupload in
  if err <? 0 then
    if err =? GIT_EAGAIN then ret err else git_remote_push_cleanup err
  else git_remote_push_uploaded.

Definition git_remote_push_connected : M Z :=
  let! remote := get in
  let! error := git_remote_upload (Some (requested_refspecs remote))
                                  (Some (opts_push remote)) in
  if error <? 0 then
    if error =? GIT_EAGAIN then
      let! error := git_remote_add_performcb cb_push_performupload in
      if 0 <=? error then ret GIT_EAGAIN else git_remote_push_cleanup error
    else git_remote_push_cleanup error
  else git_remote_push_uploaded.

Definition git_remote_push_performconnect (events : Z) : M Z :=
  let! err := git_remote_rearm_performcb events cb_push_performconnect in
  if err <? 0 then
    if negb (err =? GIT_EAGAIN) then git_remote_push_cleanup err else ret err
  else git_remote_push_connected.

Definition git_remote_push (refspecs : option (list string))
    (opts : option git_push_options) : M Z :=
  let! error := check_busy in
  if negb (error =? 0) then ret error
  else
    let! remote := get in
    if negb (repo remote) then ret (-1)
    else if negb (check_version (po_version <$> opts) GIT_PUSH_OPTIONS_VERSION)
    then ret (-1)
    else
      let! _ := put (set_opts remote (opts_fetch remote)
                                     (default GIT_PUSH_OPTIONS_INIT opts)) in
      let cbs := po_callbacks <$> opts in
      let! remote := get in
      let! _ := match refspecs with
                | Some strings => put (set_requested remote strings (passed_refspecs remote))
                | None => ret tt
                end in
      let! error := git_remote_connect GIT_DIRECTION_PUSH cbs in
      if error <? 0 then
        if error =? GIT_EAGAIN then
          let! error := git_remote_add_performcb cb_push_performconnect in
          if 0 <=? error then ret GIT_EAGAIN else git_remote_push_cleanup error
        else git_remote_push_cleanup error
      else git_remote_push_connected.

(** *** dispatch *)

(** Running a closure that was popped off the stack. *)
Definition call_cb (cb : git_perform_cb) (events : Z) : M Z :=
  match cb with
  | cb_connect_perform => git_remote__connect_perform events
  | cb_connect_performurl => git_remote__connect_performurl events
  | cb_download_perform_negotiate => git_remote_download_perform_negotiate events
  | cb_download_performconnect => git_remote_download_performconnect events
  | cb_fetch_performdisconnect => git_remote_fetch_performdisconnect events
  | cb_fetch_performdownload => git_remote_fetch_performdownload events
  | cb_fetch_performconnect => git_remote_fetch_performconnect events
  | cb_upload_perform_finish => git_remote_upload_perform_finish events
  | cb_upload_performconnect => git_remote_upload_performconnect events
  | cb_push_performdisconnect => git_remote_push_performdisconnect events
  | cb_push_performupload => git_remote_push_performupload events
  | cb_push_performconnect => git_remote_push_performconnect events
  | cb_transport k => ext (X_resume k)
  end.

(** The body of [git_remote_dispatch_performcb]. *)
Definition dispatch_performcb (events : Z) : M Z :=
  let! remote := get in
  let num_cb := perform_num_cb remote in
  if negb (num_cb =? 0)%nat then
    match perform_callbacks remote !! (num_cb - 1)%nat with
    | None => fault
    | Some cb =>
        let! _ := put (set_stack remote (perform_callbacks remote) (num_cb - 1)) in
        match cb with
        | Some f => call_cb f events
        | None => ret GIT_EINVALID
        end
    end
  else ret GIT_ENOTFOUND.

End Stages.

(** Tying the knot: a dispatch may run [fuel] nested dispatches and wait
    loops of [fuel] turns. *)
Fixpoint git_remote_dispatch_performcb (GIT_EAGAIN GIT_EBUSY : Z) (w : world)
    (fuel : nat) (events : Z) : M Z :=
  match fuel with
  | O => fault
  | S fuel' =>
      dispatch_performcb GIT_EAGAIN GIT_EBUSY w
        (git_remote_dispatch_performcb GIT_EAGAIN GIT_EBUSY w fuel') fuel' events
  end.


(** The operations as a caller runs them. *)
Definition run_perform (GIT_EAGAIN GIT_EBUSY : Z) (w : world) (fuel : nat)
    (events : Z) : M Z :=
  git_remote_perform (git_remote_dispatch_performcb GIT_EAGAIN GIT_EBUSY w fuel) events.

Definition run_connect (GIT_EAGAIN GIT_EBUSY : Z) (w : world) (fuel : nat)
    (direction : git_direction) (cbs : option git_remote_callbacks) : M Z :=
  git_remote_connect GIT_EAGAIN GIT_EBUSY w
    (git_remote_dispatch_performcb GIT_EAGAIN GIT_EBUSY w fuel) fuel direction cbs.

Definition run_download (GIT_EAGAIN GIT_EBUSY : Z) (w : world) (fuel : nat)
    (refspecs : option (list string)) (opts : option git_fetch_options) : M Z :=
  git_remote_download GIT_EAGAIN GIT_EBUSY w
    (git_remote_dispatch_performcb GIT_EAGAIN GIT_EBUSY w fuel) fuel refspecs opts.

Definition run_fetch (GIT_EAGAIN GIT_EBUSY : Z) (w : world) (fuel : nat)
    (refspecs : option (list string)) (opts : option git_fetch_options) : M Z :=
  git_remote_fetch GIT_EAGAIN GIT_EBUSY w
    (git_remote_dispatch_performcb GIT_EAGAIN GIT_EBUSY w fuel) fuel refspecs opts.

Definition run_upload (GIT_EAGAIN GIT_EBUSY : Z) (w : world) (fuel : nat)
    (refspecs : option (list string)) (opts : option git_push_options) : M Z :=
  git_remote_upload GIT_EAGAIN GIT_EBUSY w
    (git_remote_dispatch_performcb GIT_EAGAIN GIT_EBUSY w fuel) fuel refspecs opts.

Definition run_push (GIT_EAGAIN GIT_EBUSY : Z) (w : world) (fuel : nat)
    (refspecs : option (list string)) (opts : option git_push_options) : M Z :=
  git_remote_push GIT_EAGAIN GIT_EBUSY w
    (git_remote_dispatch_performcb GIT_EAGAIN GIT_EBUSY w fuel) fuel refspecs opts.

(** *** The bounded stack *)

(** C8.  A push always returns (no store ever leaves the array) and keeps
    the array's size.  With room left it writes the closure into the
    first free slot, counts it, and returns [GIT_OK]; the count stays
    within the array.  With the array full it returns [GIT_ERROR] and
    leaves the remote exactly as it was. *)
Theorem add_performcb_bounded (cb : git_perform_cb) (m : machine) :
  exists code m',
    git_remote_add_performcb cb m = Some (code, m')
    /\ length (perform_callbacks (rem m')) = length (perform_callbacks (rem m))
    /\ if (perform_num_cb (rem m) <? length (perform_callbacks (rem m)))%nat
       then code = GIT_OK
            /\ perform_callbacks (rem m')
               = <[perform_num_cb (rem m) := Some cb]> (perform_callbacks (rem m))
            /\ perform_callbacks (rem m') !! perform_num_cb (rem m) = Some (Some cb)
            /\ perform_num_cb (rem m') = S (perform_num_cb (rem m))
            /\ (perform_num_cb (rem m') <= length (perform_callbacks (rem m)))%nat
       else code = GIT_ERROR /\ m' = m.
Proof.
  unfold git_remote_add_performcb, bind, get, put, ret, array_store. simpl.
  destruct (perform_num_cb (rem m) <? length (perform_callbacks (rem m)))%nat eqn:Hlt.
  - apply Nat.ltb_lt in Hlt.
    eexists _, _. split; [reflexivity|]. simpl.
    rewrite length_insert. repeat split; auto.
    now apply list_lookup_insert_eq.
  - eexists _, _. split; [reflexivity|]. auto.
Qed.

(** The [n]-th machine of a remote. *)
Definition machine_of (r : git_remote) (n : nat) : machine :=
  {| rem := r; clock := n |}.

(** A full stack makes a suspended stage fail: when what was resumed
    blocks again and leaves no room, the closure that wanted to re-arm
    itself reports [GIT_ERROR] instead of would-block. *)
Lemma rearm_overflow_fails (GIT_EAGAIN : Z) (dispatch : Z -> M Z)
    (events : Z) (cb : git_perform_cb) (m m1 : machine) :
  GIT_EAGAIN < 0 ->
  dispatch events m = Some (GIT_EAGAIN, m1) ->
  (length (perform_callbacks (rem m1)) <= perform_num_cb (rem m1))%nat ->
  git_remote_rearm_performcb GIT_EAGAIN dispatch events cb m = Some (GIT_ERROR, m1).
Proof.
  intros Hneg Hd Hfull.
  unfold git_remote_rearm_performcb, bind. rewrite Hd.
  replace (GIT_EAGAIN <? 0) with true by (symmetry; now apply Z.ltb_lt).
  rewrite Z.eqb_refl. simpl.
  unfold git_remote_add_performcb, bind, get, ret.
  replace (perform_num_cb (rem m1) <? length (perform_callbacks (rem m1)))%nat
    with false by (symmetry; apply Nat.ltb_ge; lia).
  reflexivity.
Qed.


(** *** The busy flag *)

Lemma check_busy_busy (GIT_EBUSY : Z) (m : machine) :
  perform_num_cb (rem m) <> 0%nat ->
  check_busy GIT_EBUSY m = Some (GIT_EBUSY, m).
Proof.
  intros Hn. unfold check_busy, bind, get, ret.
  destruct (Nat.eqb_spec (perform_num_cb (rem m)) 0); [contradiction|reflexivity].
Qed.

(** Every high-level entry point fails with the busy code, and changes
    nothing, when the pending-callback stack is not empty. *)
Theorem entry_points_busy (GIT_EAGAIN GIT_EBUSY : Z) (w : world) (fuel : nat)
    (m : machine) :
  GIT_EBUSY < 0 ->
  perform_num_cb (rem m) <> 0%nat ->
  (forall direction cbs,
     run_connect GIT_EAGAIN GIT_EBUSY w fuel direction cbs m = Some (GIT_EBUSY, m))
  /\ (forall refspecs opts,
        run_download GIT_EAGAIN GIT_EBUSY w fuel refspecs opts m = Some (GIT_EBUSY, m))
  /\ (forall refspecs opts,
        run_fetch GIT_EAGAIN GIT_EBUSY w fuel refspecs opts m = Some (GIT_EBUSY, m))
  /\ (forall refspecs opts,
        run_upload GIT_EAGAIN GIT_EBUSY w fuel refspecs opts m = Some (GIT_EBUSY, m))
  /\ (forall refspecs opts,
        run_push GIT_EAGAIN GIT_EBUSY w fuel refspecs opts m = Some (GIT_EBUSY, m)).
Proof.
  intros Hneg Hbusy.
  assert (Hlt : (GIT_EBUSY <? 0) = true) by now apply Z.ltb_lt.
  assert (Hnz : (GIT_EBUSY =? 0) = false) by (apply Z.eqb_neq; lia).
  repeat split; intros;
    unfold run_connect, run_download, run_fetch, run_upload, run_push,
      git_remote_connect, git_remote_download, git_remote_fetch,
      git_remote_upload, git_remote_push, bind;
    rewrite (check_busy_busy GIT_EBUSY m Hbusy); rewrite ?Hlt, ?Hnz; reflexivity.
Qed.

Lemma entry_points_busy_witness :
  run_fetch (-35) (-36) (fun _ _ => {| ret_code := 0; registers := None |}) 1 None None
    (machine_of
       {| repo := true; url := Some "https://example.test/repo.git"; pushurl := None;
          push_refspecs := []; dir := GIT_DIRECTION_FETCH;
          transport := None; connect_transport := Some 0%nat;
          callbacks := GIT_REMOTE_CALLBACKS_INIT; push := false; prune_refs := false;
          opts_fetch := GIT_FETCH_OPTIONS_INIT; opts_push := GIT_PUSH_OPTIONS_INIT;
          requested_refspecs := []; passed_refspecs := false;
          perform_callbacks := Some cb_connect_perform :: replicate 7 None;
          perform_num_cb := 1 |} 3)
  = Some (-36,
      machine_of
       {| repo := true; url := Some "https://example.test/repo.git"; pushurl := None;
          push_refspecs := []; dir := GIT_DIRECTION_FETCH;
          transport := None; connect_transport := Some 0%nat;
          callbacks := GIT_REMOTE_CALLBACKS_INIT; push := false; prune_refs := false;
          opts_fetch := GIT_FETCH_OPTIONS_INIT; opts_push := GIT_PUSH_OPTIONS_INIT;
          requested_refspecs := []; passed_refspecs := false;
          perform_callbacks := Some cb_connect_perform :: replicate 7 None;
          perform_num_cb := 1 |} 3).
Proof.
  apply (entry_points_busy (-35) (-36) _ 1 _); [lia|discriminate].
Defined.

(** *** A wait that fails *)

(** An idle remote with a fetch URL and an array of eight slots. *)
Definition idle_remote : git_remote :=
  {| repo := true; url := Some "https://example.test/repo.git"; pushurl := None;
     push_refspecs := []; dir := GIT_DIRECTION_FETCH;
     transport := None; connect_transport := None;
     callbacks := GIT_REMOTE_CALLBACKS_INIT; push := false; prune_refs := false;
     opts_fetch := GIT_FETCH_OPTIONS_INIT; opts_push := GIT_PUSH_OPTIONS_INIT;
     requested_refspecs := []; passed_refspecs := false;
     perform_callbacks := replicate 8 None;
     perform_num_cb := 0 |}.

(** The transport's [connect] would block, and [select] then fails (as
    it does when a signal interrupts it); every other call succeeds. *)
Definition select_fails (GIT_EAGAIN : Z) : world :=
  fun c _ =>
    match c with
    | X_connect => {| ret_code := GIT_EAGAIN; registers := None |}
    | X_select => {| ret_code := -1; registers := None |}
    | _ => {| ret_code := 0; registers := None |}
    end.

(** C1, the failing input.  A synchronous [git_remote_connect] (no
    callbacks given) on the idle remote: the transport blocks, the
    connect stage pushes its resume closure, the wait loop's [select]
    fails and [perform_all] returns [GIT_ERROR] at once.  The operation
    has ended with a terminal error, yet the closure is still on the
    stack; the next [git_remote_connect] is refused as busy. *)
Theorem connect_select_failure_leaves_stack (GIT_EAGAIN GIT_EBUSY : Z) :
  GIT_EAGAIN < 0 ->
  GIT_EBUSY < 0 ->
  exists m',
    run_connect GIT_EAGAIN GIT_EBUSY (select_fails GIT_EAGAIN) 1
      GIT_DIRECTION_FETCH None (machine_of idle_remote 0)
    = Some (GIT_ERROR, m')
    /\ perform_num_cb (rem m') = 1%nat
    /\ perform_callbacks (rem m') !! 0%nat = Some (Some cb_connect_perform)
    /\ run_connect GIT_EAGAIN GIT_EBUSY (select_fails GIT_EAGAIN) 1
         GIT_DIRECTION_FETCH None m'
       = Some (GIT_EBUSY, m').
Proof.
  intros Hagain Hbusy.
  assert (Hlt : (GIT_EAGAIN <? 0) = true) by now apply Z.ltb_lt.
  eexists. split.
  - unfold run_connect, git_remote_connect, perform_all_fun, git_remote__connect,
      git_remote__connect_goturl, git_remote__urlfordirection, resolve_url,
      init_remote_callbacks, init_eventcb_data, check_busy, connect_on_error,
      git_remote_add_performcb, array_store, ext, bind, get, put, ret. simpl.
    rewrite Hlt, !Z.eqb_refl. simpl.
    unfold bind, ext, git_remote_stop, ret. simpl.
    rewrite Z.eqb_refl. simpl. reflexivity.
  - split; [reflexivity|]. split; [reflexivity|].
    unfold run_connect, git_remote_connect, bind.
    rewrite check_busy_busy by (simpl; discriminate).
    replace (GIT_EBUSY <? 0) with true by (symmetry; now apply Z.ltb_lt).
    reflexivity.
Qed.

Lemma connect_select_failure_leaves_stack_witness :
  exists m',
    run_connect (-35) (-36) (select_fails (-35)) 1
      GIT_DIRECTION_FETCH None (machine_of idle_remote 0)
    = Some (GIT_ERROR, m')
    /\ perform_num_cb (rem m') = 1%nat
    /\ perform_callbacks (rem m') !! 0%nat = Some (Some cb_connect_perform)
    /\ run_connect (-35) (-36) (select_fails (-35)) 1
         GIT_DIRECTION_FETCH None m'
       = Some (-36, m').
Proof.
  apply (connect_select_failure_leaves_stack (-35) (-36)); lia.
Defined.

(** *** The stack of a connect *)

Section ConnectInvariant.

Variable GIT_EAGAIN : Z.
Variable GIT_EBUSY : Z.
Variable w : world.

Hypothesis again_negative : GIT_EAGAIN < 0.
Hypothesis again_not_notfound : GIT_EAGAIN <> GIT_ENOTFOUND.
Hypothesis again_not_passthrough : GIT_EAGAIN <> GIT_PASSTHROUGH.
(** Code outside the file registers a closure only when it reports
    would-block, and [select] does not fail. *)
Hypothesis registers_when_blocked :
  forall c n, registers (w c n) <> None -> ret_code (w c n) = GIT_EAGAIN.
Hypothesis select_succeeds : forall n, 0 <= ret_code (w X_select n).

(** [{P} c {Q}] over the remote of the machine. *)
Definition triple {A : Type} (P : git_remote -> Prop) (c : M A)
    (Q : A -> git_remote -> Prop) : Prop :=
  forall m a m', P (rem m) -> c m = Some (a, m') -> Q a (rem m').

Lemma triple_ret {A : Type} (P : git_remote -> Prop) (a : A) (Q : A -> git_remote -> Prop) :
  (forall r, P r -> Q a r) -> triple P (ret a) Q.
Proof. intros H m a' m' HP Hc. injection Hc as <- <-. auto. Qed.

Lemma triple_bind {A B : Type} (P : git_remote -> Prop) (c : M A)
    (Q : A -> git_remote -> Prop) (k : A -> M B) (R : B -> git_remote -> Prop) :
  triple P c Q -> (forall a, triple (Q a) (k a) R) -> triple P (bind c k) R.
Proof.
  intros Hc Hk m b m' HP H. unfold bind in H.
  destruct (c m) as [[a m1]|] eqn:Hcm; [|discriminate H].
  exact (Hk a m1 b m' (Hc m a m1 HP Hcm) H).
Qed.

Lemma triple_get (P : git_remote -> Prop) :
  triple P get (fun r r' => r' = r /\ P r).
Proof. intros m a m' HP H. injection H as <- <-. auto. Qed.

Lemma triple_put (P : git_remote -> Prop) (r : git_remote) :
  triple P (put r) (fun _ r' => r' = r /\ exists r0, P r0).
Proof. intros m a m' HP H. injection H as <- <-. simpl. eauto. Qed.

Lemma triple_clock (P : git_remote -> Prop) :
  triple P (fun m => Some (clock m, m)) (fun _ r => P r).
Proof. intros m a m' HP H. injection H as <- <-. exact HP. Qed.

Lemma triple_false {A : Type} (c : M A) (Q : A -> git_remote -> Prop) :
  triple (fun _ => False) c Q.
Proof. intros m a m' []. Qed.

Lemma triple_fault {A : Type} (P : git_remote -> Prop) (Q : A -> git_remote -> Prop) :
  triple P fault Q.
Proof. intros m a m' _ H. discriminate H. Qed.

Lemma triple_weaken {A : Type} (P P' : git_remote -> Prop) (c : M A)
    (Q Q' : A -> git_remote -> Prop) :
  triple P' c Q' -> (forall r, P r -> P' r) -> (forall a r, Q' a r -> Q a r) ->
  triple P c Q.
Proof. intros H HP HQ m a m' Hm Hc. apply HQ. eapply H; eauto. Qed.

(** The stack, as far as a connect uses it. *)
Definition room (r : git_remote) : Prop := (2 <= length (perform_callbacks r))%nat.

Definition idle (r : git_remote) : Prop := room r /\ perform_num_cb r = 0%nat.

Definition holds (r : git_remote) (i : nat) (cb : git_perform_cb) : Prop :=
  perform_callbacks r !! i = Some (Some cb).

(** Nothing, or a closure of the transport. *)
Definition transport_pending (r : git_remote) : Prop :=
  room r
  /\ (perform_num_cb r = 0%nat
      \/ (perform_num_cb r = 1%nat /\ exists k, holds r 0 (cb_transport k))).

Definition connect_closure (cb : git_perform_cb) : Prop :=
  cb = cb_connect_perform \/ cb = cb_connect_performurl.

(** A suspended connect: at most a closure of the transport, under at
    most one of the two resume closures of the connect. *)
Definition connect_pending (r : git_remote) : Prop :=
  room r
  /\ (perform_num_cb r = 0%nat
      \/ (perform_num_cb r = 1%nat
          /\ exists cb, holds r 0 cb /\ ((exists k, cb = cb_transport k) \/ connect_closure cb))
      \/ (perform_num_cb r = 2%nat
          /\ (exists k, holds r 0 (cb_transport k))
          /\ exists cb, holds r 1 cb /\ connect_closure cb)).

Definition settled (P : git_remote -> Prop) (e : Z) (r : git_remote) : Prop :=
  P r /\ (e <> GIT_EAGAIN -> perform_num_cb r = 0%nat).

Lemma transport_is_connect r : transport_pending r -> connect_pending r.
Proof.
  intros [Hroom [H0|[H1 [k Hk]]]]; split; auto.
  right. left. split; [exact H1|]. exists (cb_transport k). eauto.
Qed.

Lemma idle_is_transport r : idle r -> transport_pending r.
Proof. intros [Hroom H0]. split; auto. Qed.

Lemma settled_idle P e r : settled P e r -> e <> GIT_EAGAIN -> room r -> idle r.
Proof. intros [_ H] He Hr. split; auto. Qed.

(** A call that leaves the file, made with an empty stack. *)
Lemma ext_idle (c : ext_call) :
  triple idle (ext w c) (settled transport_pending).
Proof.
  intros m e m' [Hroom H0] H. unfold ext in H.
  destruct (registers (w c (clock m))) as [k|] eqn:Hreg.
  - unfold git_remote_add_performcb, bind, get, put, ret, array_store in H. simpl in H.
    rewrite H0 in H.
    assert (Hlt : (0 <? length (perform_callbacks (rem m)))%nat = true).
    { apply Nat.ltb_lt. unfold room in Hroom. lia. }
    rewrite Hlt in H. simpl in H. injection H as <- <-. simpl.
    split.
    + split; [unfold room; simpl; rewrite length_insert; exact Hroom|].
      right. split; [reflexivity|]. exists k. unfold holds. simpl.
      apply list_lookup_insert_eq. unfold room in Hroom. lia.
    + intros He. exfalso. apply He. apply registers_when_blocked. now rewrite Hreg.
  - injection H as <- <-. simpl. split; [split; auto|auto].
Qed.


(** Predicates that only look at the stack. *)
Definition same_stack (r r' : git_remote) : Prop :=
  perform_callbacks r' = perform_callbacks r /\ perform_num_cb r' = perform_num_cb r.

Definition stackish (P : git_remote -> Prop) : Prop :=
  forall r r', same_stack r r' -> P r -> P r'.

Lemma stackish_idle : stackish idle.
Proof. intros r r' [Ha Hn] [Hroom H0]. unfold idle, room. rewrite Ha, Hn. auto. Qed.

Lemma stackish_transport : stackish transport_pending.
Proof.
  intros r r' [Ha Hn] H. unfold transport_pending, room, holds in *.
  rewrite Ha, Hn. exact H.
Qed.

Lemma stackish_connect : stackish connect_pending.
Proof.
  intros r r' [Ha Hn] H. unfold connect_pending, room, holds in *.
  rewrite Ha, Hn. exact H.
Qed.

Lemma stackish_settled P e : stackish P -> stackish (settled P e).
Proof.
  intros HP r r' Hs [H1 H2]. split; [eapply HP; eauto|].
  destruct Hs as [_ Hn]. rewrite Hn. exact H2.
Qed.

(** Reading the remote, and writing back fields other than the stack. *)
Lemma triple_read {A : Type} (P : git_remote -> Prop) (k : git_remote -> M A)
    (Q : A -> git_remote -> Prop) :
  (forall remote, triple P (k remote) Q) -> triple P (bind get k) Q.
Proof.
  intros H m a m' HP Hc. unfold bind, get in Hc. exact (H (rem m) m a m' HP Hc).
Qed.

Lemma triple_update {A : Type} (P : git_remote -> Prop) (f : git_remote -> git_remote)
    (k : M A) (Q : A -> git_remote -> Prop) :
  stackish P -> (forall r, same_stack r (f r)) -> triple P k Q ->
  triple P (bind get (fun remote => bind (put (f remote)) (fun _ => k))) Q.
Proof.
  intros HP Hf H m a m' Hm Hc. unfold bind, get, put in Hc.
  refine (H _ a m' _ Hc). simpl. eapply HP; [apply Hf|exact Hm].
Qed.

Lemma connect_on_error_keeps (P : git_remote -> Prop) (t : option nat) (e : Z) :
  stackish P -> triple P (connect_on_error t e) (fun a r => a = e /\ P r).
Proof.
  intros HP. unfold connect_on_error.
  apply (triple_update P
           (fun remote => if decide (t = transport remote)
                          then set_transports remote None (connect_transport remote)
                          else remote)); [exact HP| |].
  - intros r. destruct (decide (t = transport r)); split; reflexivity.
  - apply triple_ret. auto.
Qed.

Lemma settled_transport_idle e r :
  settled transport_pending e r -> e <> GIT_EAGAIN -> idle r.
Proof. intros [[Hroom _] H] He. split; auto. Qed.

Lemma settled_weaken e r :
  settled transport_pending e r -> settled connect_pending e r.
Proof. intros [H1 H2]. split; [now apply transport_is_connect|exact H2]. Qed.

Lemma idle_settled P e r : (forall r, idle r -> P r) -> idle r -> settled P e r.
Proof. intros HP H. split; [auto|]. intros _. apply H. Qed.

Lemma nonneg_not_again e : (e <? 0) = false -> e <> GIT_EAGAIN.
Proof. intros H%Z.ltb_ge. lia. Qed.

(** Pushing one of the connect's own closures over what the transport left. *)
Lemma add_connect_closure (cb : git_perform_cb) :
  connect_closure cb ->
  triple transport_pending (git_remote_add_performcb cb)
    (fun e r => e = GIT_OK /\ connect_pending r).
Proof.
  intros Hcb m e m' [Hroom Hn] H.
  unfold git_remote_add_performcb, bind, get, put, ret, array_store in H.
  assert (Hlt : (perform_num_cb (rem m) <? length (perform_callbacks (rem m)))%nat = true).
  { apply Nat.ltb_lt. unfold room in Hroom. destruct Hn as [Hn|[Hn _]]; lia. }
  rewrite Hlt in H. injection H as <- <-. split; [reflexivity|]. simpl.
  split; [unfold room; simpl; rewrite length_insert; exact Hroom|].
  unfold room in Hroom. unfold holds. simpl.
  destruct Hn as [Hn|[Hn [k Hk]]]; rewrite Hn.
  - right. left. split; [reflexivity|]. exists cb. split; [|auto].
    apply list_lookup_insert_eq. lia.
  - right. right. split; [reflexivity|]. split.
    + exists k. rewrite list_lookup_insert_ne by discriminate. exact Hk.
    + exists cb. split; [|exact Hcb]. apply list_lookup_insert_eq. lia.
Qed.


Lemma settled_after_success (e e' : Z) :
  (e <? 0) = false ->
  forall r, settled transport_pending e r -> settled transport_pending e' r.
Proof.
  intros He r H. apply idle_settled; [apply idle_is_transport|].
  eapply settled_transport_idle; [exact H|now apply nonneg_not_again].
Qed.

(** [git_remote__connect_goturl], entered with nothing pending. *)
Lemma connect_goturl_settles :
  triple idle (git_remote__connect_goturl GIT_EAGAIN w) (settled connect_pending).
Proof.
  unfold git_remote__connect_goturl.
  apply triple_read. intros remote.
  eapply triple_bind with (Q := fun made r => settled transport_pending (fst made) r).
  { destruct (transport remote) as [t|].
    - apply triple_ret. intros r Hr. simpl. now apply idle_settled; [apply idle_is_transport|].
    - destruct (cbs_transport (callbacks remote)).
      + eapply triple_bind; [apply triple_clock|]. intros n.
        eapply triple_bind; [apply ext_idle|]. intros error.
        destruct (error <? 0) eqn:Hneg; apply triple_ret; simpl; auto.
        now apply settled_after_success.
      + eapply triple_bind; [apply triple_clock|]. intros n.
        eapply triple_bind; [apply ext_idle|]. intros error.
        destruct (error <? 0) eqn:Hneg; apply triple_ret; simpl; auto.
        now apply settled_after_success. }
  intros [error t]. simpl.
  pose proof (stackish_settled transport_pending) as Hst.
  assert (Hfail : forall e, triple (settled transport_pending e) (connect_on_error t e)
                              (settled connect_pending)).
  { intros e. eapply triple_weaken;
      [apply (connect_on_error_keeps (settled transport_pending e)), Hst, stackish_transport
      |auto|].
    intros a r [-> H]. now apply settled_weaken. }
  destruct (error <? 0) eqn:Hneg; [apply Hfail|].
  eapply triple_bind with (Q := settled transport_pending).
  { eapply triple_weaken; [apply ext_idle| |auto].
    intros r H. eapply settled_transport_idle; [exact H|now apply nonneg_not_again]. }
  clear error Hneg. intros error.
  destruct (error =? 0) eqn:Hz; simpl; [|apply Hfail].
  apply Z.eqb_eq in Hz. subst error.
  eapply triple_bind with (Q := settled transport_pending).
  { eapply triple_weaken; [apply ext_idle| |auto].
    intros r H. eapply settled_transport_idle; [exact H|lia]. }
  intros error.
  destruct (error <? 0) eqn:Hneg; [apply Hfail|].
  eapply triple_bind with (Q := settled transport_pending).
  { eapply triple_weaken; [apply ext_idle| |auto].
    intros r H. eapply settled_transport_idle; [exact H|now apply nonneg_not_again]. }
  clear error Hneg. intros error.
  destruct (error <? 0) eqn:Hneg.
  - destruct (error =? GIT_EAGAIN) eqn:Hag; [|apply Hfail].
    eapply triple_bind with (Q := fun e r => e = GIT_OK /\ connect_pending r).
    { eapply triple_weaken; [apply (add_connect_closure cb_connect_perform); now left| |auto].
      intros r [H _]. exact H. }
    intros e. destruct (e <? 0) eqn:He.
    + eapply triple_weaken; [apply triple_false|
                             |intros a r H; exact H].
      intros r [-> _]. discriminate He.
    + apply (triple_update (fun r => e = GIT_OK /\ connect_pending r)
               (fun remote => set_transports remote (transport remote) t)).
      * intros r r' Hs [H1 H2]. split; [exact H1|]. eapply stackish_connect; eauto.
      * intros r. split; reflexivity.
      * apply triple_ret. intros r [_ H]. split; [exact H|]. intros Hne. now contradiction Hne.
  - apply (triple_update (settled transport_pending error)
             (fun remote => set_transports remote t (connect_transport remote))).
    + apply Hst, stackish_transport.
    + intros r. split; reflexivity.
    + apply triple_ret. intros r H. apply settled_weaken.
      now apply (settled_after_success error).
Qed.


Lemma triple_read_eq {A : Type} (P : git_remote -> Prop) (k : git_remote -> M A)
    (Q : A -> git_remote -> Prop) :
  (forall remote, triple (fun r => r = remote /\ P remote) (k remote) Q) ->
  triple P (bind get k) Q.
Proof.
  intros H m a m' HP Hc. unfold bind, get in Hc.
  exact (H (rem m) m a m' (conj eq_refl HP) Hc).
Qed.

Lemma triple_write {A : Type} (P : git_remote -> Prop) (remote r' : git_remote)
    (k : M A) (Q : A -> git_remote -> Prop) :
  stackish P -> same_stack remote r' -> triple P k Q ->
  triple (fun r => r = remote /\ P remote) (bind (put r') (fun _ => k)) Q.
Proof.
  intros HP Hs H m a m' [_ Hm] Hc. unfold bind, put in Hc.
  refine (H _ a m' _ Hc). simpl. eapply HP; eauto.
Qed.

Lemma settled_connect_idle e r :
  settled connect_pending e r -> e <> GIT_EAGAIN -> idle r.
Proof. intros [[Hroom _] H] He. split; auto. Qed.

Lemma idle_is_connect r : idle r -> connect_pending r.
Proof. intros H. now apply transport_is_connect, idle_is_transport. Qed.

Section Resume.

(** What a dispatch finds below the entry it popped. *)
Variable dispatch : Z -> M Z.
Variable loop_fuel : nat.
Hypothesis dispatch_transport :
  forall events, triple transport_pending (dispatch events) (settled transport_pending).

Lemma rearm_settles (events : Z) (cb : git_perform_cb) :
  connect_closure cb ->
  triple transport_pending (git_remote_rearm_performcb GIT_EAGAIN dispatch events cb)
    (settled connect_pending).
Proof.
  intros Hcb. unfold git_remote_rearm_performcb.
  eapply triple_bind; [apply dispatch_transport|]. intros err.
  destruct ((err <? 0) && (err =? GIT_EAGAIN)) eqn:Hc.
  - eapply triple_bind with (Q := fun e r => e = GIT_OK /\ connect_pending r).
    { eapply triple_weaken; [apply (add_connect_closure cb Hcb)| |auto].
      intros r [H _]. exact H. }
    intros e. destruct (e <? 0) eqn:He.
    + eapply triple_weaken; [apply triple_false| |intros a r H; exact H].
      intros r [-> _]. discriminate He.
    + apply triple_ret. intros r [_ H]. split; [exact H|]. intros Hne. now contradiction Hne.
  - apply triple_ret. intros r H. now apply settled_weaken.
Qed.

Lemma connect_perform_settles (events : Z) :
  triple transport_pending (git_remote__connect_perform GIT_EAGAIN dispatch events)
    (settled connect_pending).
Proof.
  unfold git_remote__connect_perform.
  apply triple_read. intros remote0.
  eapply triple_bind; [apply (rearm_settles events cb_connect_perform); now left|].
  intros err. apply triple_read_eq. intros remote.
  pose proof (stackish_settled connect_pending err stackish_connect) as Hst.
  assert (Hret : triple (settled connect_pending err) (ret err) (settled connect_pending))
    by (apply triple_ret; auto).
  destruct (err <? 0).
  - destruct (negb (err =? GIT_EAGAIN)).
    + destruct (connect_transport remote0) as [t|]; [|apply triple_fault].
      apply triple_write; [exact Hst|split; reflexivity|exact Hret].
    + eapply triple_weaken; [exact Hret| |auto]. now intros r [-> H].
  - apply triple_write; [exact Hst|split; reflexivity|exact Hret].
Qed.

Lemma connect_performurl_settles (events : Z) :
  triple transport_pending (git_remote__connect_performurl GIT_EAGAIN w dispatch events)
    (settled connect_pending).
Proof.
  unfold git_remote__connect_performurl.
  eapply triple_bind; [apply (rearm_settles events cb_connect_performurl); now right|].
  intros err. destruct (err <? 0) eqn:Hneg.
  - apply triple_ret. auto.
  - eapply triple_weaken; [apply connect_goturl_settles| |auto].
    intros r H. eapply settled_connect_idle; [exact H|now apply nonneg_not_again].
Qed.

(** One dispatch: the entry on top is popped and run. *)
Lemma dispatch_step (events : Z) :
  triple connect_pending (dispatch_performcb GIT_EAGAIN GIT_EBUSY w dispatch loop_fuel events)
    (settled connect_pending)
  /\ triple transport_pending
       (dispatch_performcb GIT_EAGAIN GIT_EBUSY w dispatch loop_fuel events)
       (settled transport_pending).
Proof.
  assert (Hpop0 : forall m cb,
            room (rem m) -> perform_num_cb (rem m) = 1%nat -> holds (rem m) 0 cb ->
            dispatch_performcb GIT_EAGAIN GIT_EBUSY w dispatch loop_fuel events m
            = call_cb GIT_EAGAIN GIT_EBUSY w dispatch loop_fuel cb events
                {| rem := set_stack (rem m) (perform_callbacks (rem m)) 0;
                   clock := clock m |}).
  { intros m cb _ Hn Hcb. unfold dispatch_performcb, bind, get, put.
    rewrite Hn. simpl. unfold holds in Hcb. rewrite Hcb. reflexivity. }
  assert (Hpop1 : forall m cb,
            room (rem m) -> perform_num_cb (rem m) = 2%nat -> holds (rem m) 1 cb ->
            dispatch_performcb GIT_EAGAIN GIT_EBUSY w dispatch loop_fuel events m
            = call_cb GIT_EAGAIN GIT_EBUSY w dispatch loop_fuel cb events
                {| rem := set_stack (rem m) (perform_callbacks (rem m)) 1;
                   clock := clock m |}).
  { intros m cb _ Hn Hcb. unfold dispatch_performcb, bind, get, put.
    rewrite Hn. simpl. unfold holds in Hcb. rewrite Hcb. reflexivity. }
  assert (Hempty : forall m e m',
            perform_num_cb (rem m) = 0%nat ->
            dispatch_performcb GIT_EAGAIN GIT_EBUSY w dispatch loop_fuel events m
            = Some (e, m') -> m' = m).
  { intros m e m' Hn H. unfold dispatch_performcb, bind, get, ret in H.
    rewrite Hn in H. simpl in H. now injection H as _ <-. }
  assert (Hresume : forall m k e m',
            room (rem m) -> perform_num_cb (rem m) = 1%nat ->
            holds (rem m) 0 (cb_transport k) ->
            dispatch_performcb GIT_EAGAIN GIT_EBUSY w dispatch loop_fuel events m
            = Some (e, m') -> settled transport_pending e (rem m')).
  { intros m k e m' Hroom Hn Hk H. rewrite (Hpop0 m _ Hroom Hn Hk) in H. simpl in H.
    eapply (ext_idle (X_resume k)); [|exact H]. split; [exact Hroom|reflexivity]. }
  split.
  - intros m e m' [Hroom Hshape] H.
    destruct Hshape as [Hn|[[Hn [cb [Hcb Hkind]]]|[Hn [[k Hk] [cb [Hcb Hkind]]]]]].
    + rewrite (Hempty m e m' Hn H). apply idle_settled; [apply idle_is_connect|]. now split.
    + destruct Hkind as [[k ->]|Hkind].
      * apply settled_weaken. eapply Hresume; eauto.
      * rewrite (Hpop0 m cb Hroom Hn Hcb) in H.
        assert (Hpre : transport_pending
                         (rem {| rem := set_stack (rem m) (perform_callbacks (rem m)) 0;
                                 clock := clock m |})).
        { split; [exact Hroom|]. left. reflexivity. }
        destruct Hkind as [-> | ->]; simpl in H.
        -- exact (connect_perform_settles events _ e m' Hpre H).
        -- exact (connect_performurl_settles events _ e m' Hpre H).
    + rewrite (Hpop1 m cb Hroom Hn Hcb) in H.
      assert (Hpre : transport_pending
                       (rem {| rem := set_stack (rem m) (perform_callbacks (rem m)) 1;
                               clock := clock m |})).
      { split; [exact Hroom|]. right. split; [reflexivity|]. exists k. exact Hk. }
      destruct Hkind as [-> | ->]; simpl in H.
      * exact (connect_perform_settles events _ e m' Hpre H).
      * exact (connect_performurl_settles events _ e m' Hpre H).
  - intros m e m' [Hroom Hshape] H.
    destruct Hshape as [Hn|[Hn [k Hk]]].
    + rewrite (Hempty m e m' Hn H). apply idle_settled; [apply idle_is_transport|]. now split.
    + eapply Hresume; eauto.
Qed.

End Resume.

(** Every dispatch, whatever its fuel. *)
Lemma dispatch_settles (fuel : nat) :
  forall events,
    triple connect_pending (git_remote_dispatch_performcb GIT_EAGAIN GIT_EBUSY w fuel events)
      (settled connect_pending)
    /\ triple transport_pending
         (git_remote_dispatch_performcb GIT_EAGAIN GIT_EBUSY w fuel events)
         (settled transport_pending).
Proof.
  induction fuel as [|fuel IH]; intros events.
  - split; apply triple_fault.
  - simpl. apply dispatch_step. intros ev. apply IH.
Qed.

Section Wait.

Variable dispatch : Z -> M Z.
Hypothesis dispatch_connect :
  forall events, triple connect_pending (dispatch events) (settled connect_pending).

Lemma perform_settles (events : Z) :
  triple connect_pending (git_remote_perform dispatch events) (settled connect_pending).
Proof.
  unfold git_remote_perform.
  eapply triple_bind; [apply dispatch_connect|]. intros err.
  destruct ((err <? 0) && (err =? GIT_ENOTFOUND)) eqn:Hc; apply triple_ret; auto.
  intros r H. apply andb_true_iff in Hc as [_ ->%Z.eqb_eq].
  apply idle_settled; [apply idle_is_connect|].
  eapply settled_connect_idle; [exact H|]. auto.
Qed.

(** [select] registers nothing and does not fail. *)
Lemma ext_select (P : git_remote -> Prop) :
  triple P (ext w X_select) (fun e r => P r /\ (e <? 0) = false).
Proof.
  intros m e m' HP H. unfold ext in H.
  destruct (registers (w X_select (clock m))) as [k|] eqn:Hreg.
  - exfalso. pose proof (select_succeeds (clock m)) as Hs.
    rewrite registers_when_blocked in Hs by (rewrite Hreg; discriminate). lia.
  - injection H as <- <-. split; [exact HP|]. apply Z.ltb_ge, select_succeeds.
Qed.

Lemma perform_all_settles (n : nat) :
  triple connect_pending (perform_all GIT_EAGAIN w dispatch n) (settled connect_pending).
Proof.
  induction n as [|n IH]; [apply triple_fault|]. simpl.
  eapply triple_bind; [apply ext_select|]. intros sret.
  destruct (sret <? 0) eqn:Hs.
  - eapply triple_weaken; [apply triple_false| |intros a r H; exact H].
    intros r [_ H]. simpl in H. congruence.
  - eapply triple_bind.
    { eapply triple_weaken; [apply perform_settles| |intros a r H; exact H].
      intros r [H _]. exact H. }
    intros err. destruct (err =? GIT_EAGAIN).
    + eapply triple_weaken; [exact IH| |auto]. intros r [H _]. exact H.
    + apply triple_ret. auto.
Qed.

Lemma perform_all_fun_settles (P : git_remote -> Prop) (func : M Z) (loop_fuel : nat) :
  stackish P ->
  triple P func (settled connect_pending) ->
  triple P (perform_all_fun GIT_EAGAIN w dispatch loop_fuel func) (settled connect_pending).
Proof.
  intros HP Hfunc. unfold perform_all_fun.
  eapply triple_bind with (Q := fun _ r => P r).
  { unfold init_eventcb_data. apply triple_read_eq. intros remote.
    destruct (is_sync (callbacks remote)).
    - intros m a m' [_ Hm] Hc. injection Hc as <- <-. simpl.
      eapply HP; [|exact Hm]. split; reflexivity.
    - apply triple_ret. now intros r [-> H]. }
  intros _. eapply triple_bind; [exact Hfunc|]. intros err.
  apply triple_read. intros remote.
  destruct ((err =? GIT_EAGAIN) && is_sync (callbacks remote)).
  - eapply triple_weaken; [apply perform_all_settles| |auto]. intros r [H _]. exact H.
  - apply triple_ret. auto.
Qed.

Lemma connect_stage_settles :
  triple idle (git_remote__connect GIT_EAGAIN w) (settled connect_pending).
Proof.
  unfold git_remote__connect.
  eapply triple_bind with (Q := settled transport_pending).
  { unfold git_remote__urlfordirection. apply triple_read. intros remote.
    match goal with |- triple _ (match ?u with _ => _ end) _ => destruct u end.
    - unfold resolve_url. apply triple_read. intros remote1.
      destruct (cbs_resolve_url (callbacks remote1)).
      + eapply triple_bind; [apply ext_idle|]. intros status.
        destruct (status =? GIT_PASSTHROUGH) eqn:Hp; simpl; apply triple_ret; auto.
        intros r H. apply Z.eqb_eq in Hp. subst status.
        apply idle_settled; [apply idle_is_transport|].
        eapply settled_transport_idle; [exact H|]. auto.
      + apply triple_ret. intros r H. now apply idle_settled; [apply idle_is_transport|].
    - apply triple_ret. intros r H. now apply idle_settled; [apply idle_is_transport|]. }
  intros error. destruct (error <? 0) eqn:Hneg.
  - destruct (error =? GIT_EAGAIN).
    + eapply triple_bind with (Q := fun e r => e = GIT_OK /\ connect_pending r).
      { eapply triple_weaken;
          [apply (add_connect_closure cb_connect_performurl); now right| |auto].
        intros r [H _]. exact H. }
      intros e. destruct (0 <=? e) eqn:He.
      * apply triple_ret. intros r [_ H]. split; [exact H|].
        intros Hne. now contradiction Hne.
      * eapply triple_weaken; [apply triple_false| |intros a r H; exact H].
        intros r [-> _]. discriminate He.
    + apply triple_ret. intros r H. now apply settled_weaken.
  - eapply triple_weaken; [apply connect_goturl_settles| |auto].
    intros r H. eapply settled_transport_idle; [exact H|now apply nonneg_not_again].
Qed.

Lemma connect_settles (loop_fuel : nat) (direction : git_direction)
    (cbs : option git_remote_callbacks) :
  triple idle (git_remote_connect GIT_EAGAIN GIT_EBUSY w dispatch loop_fuel direction cbs)
    (settled connect_pending).
Proof.
  unfold git_remote_connect.
  assert (Hidle : forall e r, idle r -> settled connect_pending e r).
  { intros e r H. now apply idle_settled; [apply idle_is_connect|]. }
  eapply triple_bind with (Q := fun _ r => idle r).
  { unfold check_busy. apply triple_read. intros remote.
    destruct (negb (perform_num_cb remote =? 0)%nat); apply triple_ret; auto. }
  intros err. destruct (err <? 0); [apply triple_ret; auto|].
  destruct (negb (check_version (cbs_version <$> cbs) GIT_REMOTE_CALLBACKS_VERSION));
    [apply triple_ret; auto|].
  apply (triple_update idle (fun remote => set_dir_callbacks remote direction (callbacks remote)));
    [apply stackish_idle|intros r; split; reflexivity|].
  eapply triple_bind with (Q := fun _ r => idle r).
  { unfold init_remote_callbacks. apply triple_read_eq. intros remote.
    destruct cbs as [c|]; intros m a m' [_ Hm] Hc; injection Hc as <- <-; simpl;
      (eapply stackish_idle; [|exact Hm]); split; reflexivity. }
  intros _. apply perform_all_fun_settles; [apply stackish_idle|apply connect_stage_settles].
Qed.

End Wait.

(** *** The stack of every operation *)

(** The layer a closure belongs to: the transport, the connect, the
    download or the upload, the fetch or the push. *)
Definition level (cb : git_perform_cb) : nat :=
  match cb with
  | cb_transport _ => 0
  | cb_connect_perform | cb_connect_performurl => 1
  | cb_download_perform_negotiate | cb_download_performconnect => 2
  | cb_upload_perform_finish | cb_upload_performconnect => 2
  | cb_fetch_performdisconnect | cb_fetch_performdownload | cb_fetch_performconnect => 3
  | cb_push_performdisconnect | cb_push_performupload | cb_push_performconnect => 3
  end.

(** A stack, top first: every closure is of a layer below [L], and sits
    on closures of layers below its own. *)
Fixpoint nested (L : nat) (s : list git_perform_cb) : Prop :=
  match s with
  | [] => True
  | cb :: rest => (level cb < L)%nat /\ nested (level cb) rest
  end.

(** The filled part of the array holds [s], top first. *)
Definition stack (r : git_remote) (s : list git_perform_cb) : Prop :=
  (perform_num_cb r <= length (perform_callbacks r))%nat
  /\ take (perform_num_cb r) (perform_callbacks r) = reverse (Some <$> s).

Definition pending (L : nat) (r : git_remote) : Prop :=
  (4 <= length (perform_callbacks r))%nat
  /\ exists s, stack r s /\ nested L s.

Lemma nested_length (s : list git_perform_cb) :
  forall L, nested L s -> (length s <= L)%nat.
Proof.
  induction s as [|cb s IH]; intros L H; simpl in *; [lia|].
  destruct H as [Hlt H]. apply IH in H. lia.
Qed.

Lemma nested_mono (L L' : nat) (s : list git_perform_cb) :
  (L <= L')%nat -> nested L s -> nested L' s.
Proof. destruct s as [|cb s]; simpl; [auto|]. intros Hle [Hlt H]. split; [lia|exact H]. Qed.

Lemma stack_length (r : git_remote) (s : list git_perform_cb) :
  stack r s -> perform_num_cb r = length s.
Proof.
  intros [Hle Heq]. apply (f_equal length) in Heq.
  rewrite length_take, length_reverse, length_fmap in Heq. lia.
Qed.

Lemma pending_mono (L L' : nat) (r : git_remote) :
  (L <= L')%nat -> pending L r -> pending L' r.
Proof.
  intros Hle [Hroom [s [Hs Hn]]]. split; [exact Hroom|].
  exists s. split; [exact Hs|]. now apply (nested_mono L).
Qed.


Lemma pending_rest (r : git_remote) :
  pending 0 r <-> (4 <= length (perform_callbacks r))%nat /\ perform_num_cb r = 0%nat.
Proof.
  split.
  - intros [Hroom [s [Hs Hn]]]. split; [exact Hroom|].
    rewrite (stack_length r s Hs). apply nested_length in Hn. lia.
  - intros [Hroom H0]. split; [exact Hroom|]. exists []. split; [|exact I].
    split; [lia|]. rewrite H0. reflexivity.
Qed.


Lemma rest_settled (L : nat) (e : Z) (r : git_remote) :
  pending 0 r -> settled (pending L) e r.
Proof.
  intros H. split; [apply (pending_mono 0); [lia|exact H]|].
  intros _. now apply pending_rest.
Qed.






(** The transport's [is_connected], [ls] and [close] are plain calls:
    they do not suspend.  [git_remote_disconnect] drops the result of
    [close], so a closure that [close] registered would stay on the stack
    of an operation that goes on as if the transport were closed. *)
Hypothesis is_connected_returns : forall n, registers (w X_is_connected n) = None.
Hypothesis ls_returns : forall n, registers (w X_ls n) = None.
Hypothesis close_returns : forall n, registers (w X_close n) = None.




Lemma ret_rest {A : Type} (L : nat) (P : git_remote -> Prop) (e e' : Z) :
  (forall r, P r -> pending 0 r) -> triple P (ret e) (settled (pending L)).
Proof. intros HP. apply triple_ret. intros r H. apply rest_settled. auto. Qed.


Lemma keeps_stack {A : Type} (P : git_remote -> Prop) (f : git_remote -> git_remote)
    (a : A) :
  stackish P -> (forall r, same_stack r (f r)) ->
  triple P (bind get (fun remote => bind (put (f remote)) (fun _ => ret a)))
    (fun a' r => a' = a /\ P r).
Proof.
  intros HP Hf. apply (triple_update P f); [exact HP|exact Hf|].
  apply triple_ret. auto.
Qed.

Section Layers.

(** What a dispatch finds below the entry it popped. *)
Variable dispatch : Z -> M Z.
Variable loop_fuel : nat.
Hypothesis dispatch_nested :
  forall L events, (L <= 4)%nat ->
    triple (pending L) (dispatch events) (settled (pending L)).


















(** *** download *)










(** *** fetch *)











(** *** upload *)






(** *** push *)









(** *** dispatch *)



End Layers.




(** *** A synchronous connect *)

(** The connect stage does not touch the callbacks of the remote. *)
Lemma ext_callbacks (c : ext_call) (cbs : git_remote_callbacks) :
  triple (fun r => callbacks r = cbs) (ext w c) (fun _ r => callbacks r = cbs).
Proof.
  intros m e m' Hm H. unfold ext in H.
  destruct (registers (w c (clock m))) as [k|].
  - unfold git_remote_add_performcb, bind, get, put, ret, array_store in H. simpl in H.
    destruct (perform_num_cb (rem m) <? length (perform_callbacks (rem m)))%nat;
      simpl in H; injection H as <- <-; exact Hm.
  - injection H as <- <-. exact Hm.
Qed.

Lemma add_performcb_callbacks (cb : git_perform_cb) (cbs : git_remote_callbacks) :
  triple (fun r => callbacks r = cbs) (git_remote_add_performcb cb)
    (fun _ r => callbacks r = cbs).
Proof.
  intros m e m' Hm H.
  unfold git_remote_add_performcb, bind, get, put, ret, array_store in H.
  destruct (perform_num_cb (rem m) <? length (perform_callbacks (rem m)))%nat;
    injection H as <- <-; exact Hm.
Qed.

Lemma connect_on_error_callbacks (t : option nat) (e : Z) (cbs : git_remote_callbacks) :
  triple (fun r => callbacks r = cbs) (connect_on_error t e) (fun _ r => callbacks r = cbs).
Proof.
  intros m a m' Hm H. unfold connect_on_error, bind, get, put, ret in H.
  injection H as <- <-. simpl. destruct (decide (t = transport (rem m))); exact Hm.
Qed.

Lemma connect_goturl_callbacks (cbs : git_remote_callbacks) :
  triple (fun r => callbacks r = cbs) (git_remote__connect_goturl GIT_EAGAIN w)
    (fun _ r => callbacks r = cbs).
Proof.
  unfold git_remote__connect_goturl.
  apply triple_read. intros remote.
  eapply triple_bind with (Q := fun _ r => callbacks r = cbs).
  { destruct (transport remote) as [t|]; [apply triple_ret; auto|].
    destruct (cbs_transport (callbacks remote));
      (eapply triple_bind; [apply triple_clock|]); intros n;
      (eapply triple_bind; [apply (ext_callbacks _ cbs)|]); intros error;
      destruct (error <? 0); apply triple_ret; auto. }
  intros [error t]. simpl.
  destruct (error <? 0); [apply connect_on_error_callbacks|].
  eapply triple_bind; [apply (ext_callbacks _ cbs)|]. clear error. intros error.
  destruct (negb (error =? 0)); [apply connect_on_error_callbacks|].
  eapply triple_bind; [apply (ext_callbacks _ cbs)|]. clear error. intros error.
  destruct (error <? 0); [apply connect_on_error_callbacks|].
  eapply triple_bind; [apply (ext_callbacks _ cbs)|]. clear error. intros error.
  destruct (error <? 0).
  - destruct (error =? GIT_EAGAIN); [|apply connect_on_error_callbacks].
    eapply triple_bind; [apply (add_performcb_callbacks _ cbs)|]. clear error. intros error.
    destruct (error <? 0); [apply connect_on_error_callbacks|].
    intros m a m' Hm H. unfold bind, get, put, ret in H. injection H as <- <-. exact Hm.
  - intros m a m' Hm H. unfold bind, get, put, ret in H. injection H as <- <-. exact Hm.
Qed.

Lemma connect_stage_callbacks (cbs : git_remote_callbacks) :
  triple (fun r => callbacks r = cbs) (git_remote__connect GIT_EAGAIN w)
    (fun _ r => callbacks r = cbs).
Proof.
  unfold git_remote__connect.
  eapply triple_bind with (Q := fun _ r => callbacks r = cbs).
  { unfold git_remote__urlfordirection. apply triple_read. intros remote.
    match goal with |- triple _ (match ?u with _ => _ end) _ => destruct u end;
      [|apply triple_ret; auto].
    unfold resolve_url. apply triple_read. intros remote1.
    destruct (cbs_resolve_url (callbacks remote1)); [|apply triple_ret; auto].
    eapply triple_bind; [apply (ext_callbacks _ cbs)|]. intros status.
    destruct (negb (status =? GIT_PASSTHROUGH)); apply triple_ret; auto. }
  intros error. destruct (error <? 0); [|apply connect_goturl_callbacks].
  destruct (error =? GIT_EAGAIN); [|apply triple_ret; auto].
  eapply triple_bind; [apply (add_performcb_callbacks _ cbs)|]. clear error. intros error.
  destruct (0 <=? error); apply triple_ret; auto.
Qed.

(** The wait loop only ends with a result that is final. *)
Lemma perform_all_final (dispatch : Z -> M Z) (n : nat) :
  GIT_EAGAIN <> GIT_ERROR ->
  triple (fun _ => True) (perform_all GIT_EAGAIN w dispatch n)
    (fun e _ => e <> GIT_EAGAIN).
Proof.
  intros Herr m. revert m. induction n as [|n IH]; intros m e m' Hm H; [discriminate H|].
  simpl in H. unfold bind in H.
  destruct (ext w X_select m) as [[sret m1]|]; [|discriminate H].
  destruct (sret <? 0).
  - destruct (git_remote_stop w m1) as [[u m2]|]; [|discriminate H].
    unfold ret in H. injection H as <- <-. auto.
  - destruct (git_remote_perform dispatch _ m1) as [[err m2]|]; [|discriminate H].
    destruct (err =? GIT_EAGAIN) eqn:Hag.
    + exact (IH m2 e m' I H).
    + injection H as <- <-. now apply Z.eqb_neq.
Qed.

Lemma connect_sync_final (dispatch : Z -> M Z) (loop_fuel : nat)
    (direction : git_direction) (cbs : option git_remote_callbacks) :
  GIT_EAGAIN <> GIT_ERROR ->
  is_sync (default GIT_REMOTE_CALLBACKS_INIT cbs) = true ->
  triple (fun r => perform_num_cb r = 0%nat)
    (git_remote_connect GIT_EAGAIN GIT_EBUSY w dispatch loop_fuel direction cbs)
    (fun e _ => e <> GIT_EAGAIN).
Proof.
  intros Herr Hsync m e m' Hm H.
  unfold git_remote_connect, check_busy, bind, get, ret in H.
  rewrite Hm in H. simpl in H.
  destruct (negb (check_version (cbs_version <$> cbs) GIT_REMOTE_CALLBACKS_VERSION)).
  { injection H as <- <-. intros Heq. apply Herr. now rewrite <- Heq. }
  unfold put, init_remote_callbacks, bind, get in H. simpl in H.
  assert (Hstart : exists m0,
            perform_all_fun GIT_EAGAIN w dispatch loop_fuel (git_remote__connect GIT_EAGAIN w) m0
            = Some (e, m')
            /\ is_sync (callbacks (rem m0)) = true).
  { destruct cbs as [c|]; eexists; (split; [exact H|exact Hsync]). }
  clear H. destruct Hstart as [m0 [H Hs]].
  unfold perform_all_fun, bind in H.
  destruct (init_eventcb_data m0) as [[u m1]|] eqn:Hinit; [|discriminate H].
  assert (Hs1 : is_sync (callbacks (rem m1)) = true).
  { unfold init_eventcb_data, bind, get, put, ret in Hinit. rewrite Hs in Hinit.
    injection Hinit as _ <-. reflexivity. }
  destruct (git_remote__connect GIT_EAGAIN w m1) as [[err m2]|] eqn:Hc; [|discriminate H].
  pose proof (connect_stage_callbacks (callbacks (rem m1)) m1 err m2 eq_refl Hc) as Hsame.
  unfold get in H. simpl in H. rewrite Hsame, Hs1, andb_true_r in H.
  destruct (err =? GIT_EAGAIN) eqn:Hag.
  - exact (perform_all_final dispatch loop_fuel Herr m2 e m' I H).
  - injection H as <- <-. now apply Z.eqb_neq.
Qed.

End ConnectInvariant.

(** A connect that is over leaves nothing behind.  Take [GIT_EAGAIN]
    negative and different from [GIT_ENOTFOUND] and [GIT_PASSTHROUGH],
    code outside the file that registers a closure only when it reports
    would-block, and a [select] that does not fail.  Then every
    [git_remote_connect] that starts with an empty stack, synchronous or
    not, ends with a stack that holds at most a closure of the transport
    under at most one of [git_remote__connect_perform] and
    [git_remote__connect_performurl]; and when its result is anything
    other than [GIT_EAGAIN], a success or an error, the stack is empty,
    so that the remote is not busy for the next operation. *)
Theorem connect_settles_stack (GIT_EAGAIN GIT_EBUSY : Z) (w : world) (fuel : nat)
    (direction : git_direction) (cbs : option git_remote_callbacks)
    (m m' : machine) (e : Z) :
  GIT_EAGAIN < 0 ->
  GIT_EAGAIN <> GIT_ENOTFOUND ->
  GIT_EAGAIN <> GIT_PASSTHROUGH ->
  (forall c n, registers (w c n) <> None -> ret_code (w c n) = GIT_EAGAIN) ->
  (forall n, 0 <= ret_code (w X_select n)) ->
  idle (rem m) ->
  run_connect GIT_EAGAIN GIT_EBUSY w fuel direction cbs m = Some (e, m') ->
  connect_pending (rem m')
  /\ (e <> GIT_EAGAIN -> perform_num_cb (rem m') = 0%nat).
Proof.
  intros Hneg Hnf Hpt Hreg Hsel Hidle Hrun.
  refine (connect_settles GIT_EAGAIN GIT_EBUSY w Hneg Hnf Hpt Hreg Hsel _ _ fuel
            direction cbs m e m' Hidle Hrun).
  intros events. now apply dispatch_settles.
Qed.

(** Resuming a suspended connect keeps it in order.  With the same
    [GIT_EAGAIN] and the same code outside the file, a
    [git_remote_perform] on a stack as a blocked connect leaves it (at
    most a closure of the transport, under at most one of the connect's
    own two) ends with a stack of that kind again, and with an empty one
    whenever its result is not [GIT_EAGAIN]: the closures of an operation
    that has finished or failed are all gone. *)
Theorem perform_settles_stack (GIT_EAGAIN GIT_EBUSY : Z) (w : world) (fuel : nat)
    (events : Z) (m m' : machine) (e : Z) :
  GIT_EAGAIN < 0 ->
  GIT_EAGAIN <> GIT_ENOTFOUND ->
  (forall c n, registers (w c n) <> None -> ret_code (w c n) = GIT_EAGAIN) ->
  connect_pending (rem m) ->
  run_perform GIT_EAGAIN GIT_EBUSY w fuel events m = Some (e, m') ->
  connect_pending (rem m')
  /\ (e <> GIT_EAGAIN -> perform_num_cb (rem m') = 0%nat).
Proof.
  intros Hneg Hnf Hreg Hpend Hrun.
  refine (perform_settles GIT_EAGAIN Hnf _ _ events m e m' Hpend Hrun).
  intros ev. now apply dispatch_settles.
Qed.

(** The transport's [connect] would block and registers a closure of
    its own; every other call succeeds at once. *)
Definition blocks_once : world :=
  fun c _ =>
    match c with
    | X_connect => {| ret_code := -35; registers := Some 7%nat |}
    | _ => {| ret_code := 0; registers := None |}
    end.

(** Callbacks of a caller that runs its own event loop. *)
Definition async_callbacks : git_remote_callbacks :=
  {| cbs_version := GIT_REMOTE_CALLBACKS_VERSION;
     cbs_resolve_url := false;
     cbs_transport := false;
     cbs_push_update_reference := false;
     cbs_set_fd_events := Some fd_events_custom |}.

(** The machine such a caller is left with by a connect that blocked. *)
Definition blocked_machine : machine :=
  Eval vm_compute in
    match run_connect (-35) (-36) blocks_once 2 GIT_DIRECTION_FETCH (Some async_callbacks)
            (machine_of idle_remote 0) with
    | Some (_, m) => m
    | None => machine_of idle_remote 0
    end.

Lemma connect_settles_stack_witness :
  exists m',
    run_connect (-35) (-36) blocks_once 3 GIT_DIRECTION_FETCH None (machine_of idle_remote 0)
    = Some (0, m')
    /\ connect_pending (rem m')
    /\ (0 <> -35 -> perform_num_cb (rem m') = 0%nat).
Proof.
  eexists. split; [vm_compute; reflexivity|].
  apply (connect_settles_stack (-35) (-36) blocks_once 3 GIT_DIRECTION_FETCH None
           (machine_of idle_remote 0) _ 0);
    [lia|discriminate|discriminate
    |intros c n; destruct c; simpl; congruence
    |intros n; simpl; lia
    |split; [unfold room; simpl; lia|reflexivity]
    |reflexivity].
Defined.

Lemma perform_settles_stack_witness :
  exists m',
    run_perform (-35) (-36) blocks_once 3 GIT_EVENT_READ blocked_machine = Some (0, m')
    /\ connect_pending (rem m')
    /\ (0 <> -35 -> perform_num_cb (rem m') = 0%nat).
Proof.
  eexists. split; [vm_compute; reflexivity|].
  apply (perform_settles_stack (-35) (-36) blocks_once 3 GIT_EVENT_READ blocked_machine _ 0);
    [lia|discriminate
    |intros c n; destruct c; simpl; congruence
    | |reflexivity].
  split; [unfold room; simpl; lia|].
  right. right. split; [reflexivity|]. split.
  - exists 7%nat. reflexivity.
  - exists cb_connect_perform. split; [reflexivity|now left].
Defined.



(** The transport's [connect] would block and registers a closure of its
    own; once resumed the transport says it is connected, and every
    other call succeeds at once. *)
Definition connect_blocks : world :=
  fun c _ =>
    match c with
    | X_connect => {| ret_code := -35; registers := Some 7%nat |}
    | X_is_connected => {| ret_code := 1; registers := None |}
    | _ => {| ret_code := 0; registers := None |}
    end.

(** Fetch options of a caller that runs its own event loop. *)
Definition async_fetch_options : git_fetch_options :=
  {| fo_version := GIT_FETCH_OPTIONS_VERSION;
     fo_callbacks := async_callbacks;
     fo_prune := GIT_FETCH_PRUNE_UNSPECIFIED |}.




(** A synchronous connect that returns is over.  With [GIT_EAGAIN]
    negative and different from [GIT_ENOTFOUND], [GIT_PASSTHROUGH] and
    [GIT_ERROR], code outside the file that registers a closure only
    when it reports would-block, and a [select] that does not fail: when
    the caller gives no callbacks, or callbacks without a
    [set_fd_events] hook of their own, a [git_remote_connect] on an idle
    remote never returns [GIT_EAGAIN], however often the transport
    blocked on the way, and it leaves the stack empty. *)
Theorem sync_connect_is_final (GIT_EAGAIN GIT_EBUSY : Z) (w : world) (fuel : nat)
    (direction : git_direction) (cbs : option git_remote_callbacks)
    (m m' : machine) (e : Z) :
  GIT_EAGAIN < 0 ->
  GIT_EAGAIN <> GIT_ENOTFOUND ->
  GIT_EAGAIN <> GIT_PASSTHROUGH ->
  GIT_EAGAIN <> GIT_ERROR ->
  (forall c n, registers (w c n) <> None -> ret_code (w c n) = GIT_EAGAIN) ->
  (forall n, 0 <= ret_code (w X_select n)) ->
  is_sync (default GIT_REMOTE_CALLBACKS_INIT cbs) = true ->
  idle (rem m) ->
  run_connect GIT_EAGAIN GIT_EBUSY w fuel direction cbs m = Some (e, m') ->
  e <> GIT_EAGAIN /\ perform_num_cb (rem m') = 0%nat.
Proof.
  intros Hneg Hnf Hpt Herr Hreg Hsel Hsync Hidle Hrun.
  assert (Hfinal : e <> GIT_EAGAIN).
  { refine (connect_sync_final GIT_EAGAIN GIT_EBUSY w _ fuel direction cbs Herr Hsync
              m e m' _ Hrun).
    apply Hidle. }
  split; [exact Hfinal|].
  refine (proj2 (connect_settles GIT_EAGAIN GIT_EBUSY w Hneg Hnf Hpt Hreg Hsel _ _ fuel
                   direction cbs m e m' Hidle Hrun) Hfinal).
  intros events. now apply dispatch_settles.
Qed.

Lemma sync_connect_is_final_witness :
  exists m',
    run_connect (-35) (-36) connect_blocks 3 GIT_DIRECTION_PUSH
      (Some GIT_REMOTE_CALLBACKS_INIT) (machine_of idle_remote 0)
    = Some (0, m')
    /\ 0 <> -35 /\ perform_num_cb (rem m') = 0%nat.
Proof.
  eexists. split; [vm_compute; reflexivity|].
  apply (sync_connect_is_final (-35) (-36) connect_blocks 3 GIT_DIRECTION_PUSH
           (Some GIT_REMOTE_CALLBACKS_INIT) (machine_of idle_remote 0) _ 0);
    [lia|discriminate|discriminate|discriminate
    |intros c n; destruct c; simpl; congruence
    |intros n; simpl; lia
    |reflexivity
    |split; [unfold room; simpl; lia|reflexivity]
    |vm_compute; reflexivity].
Defined.

(** *** A download before a connect *)

(** [git_remote_download] asks for the advertised references before it
    looks whether the remote is connected.  On a remote that is not busy
    and has no transport, one that never connected, it returns -1 and
    leaves the remote as it was, without a single call out of the file:
    it does not connect by itself, whatever the refspecs, the options and
    the callbacks. *)
Theorem download_needs_transport (GIT_EAGAIN GIT_EBUSY : Z) (w : world) (fuel : nat)
    (refspecs : option (list string)) (opts : option git_fetch_options) (m : machine) :
  perform_num_cb (rem m) = 0%nat ->
  transport (rem m) = None ->
  run_download GIT_EAGAIN GIT_EBUSY w fuel refspecs opts m = Some (-1, m).
Proof.
  intros Hnone Hnever.
  unfold run_download, git_remote_download, check_busy, ls_to_vector, git_remote_ls,
    bind, get, ret.
  rewrite Hnone. simpl.
  destruct (negb (repo (rem m))); [reflexivity|].
  destruct (negb (check_version (fo_version <$> opts) GIT_FETCH_OPTIONS_VERSION));
    [reflexivity|].
  destruct (negb (check_version ((fun o => cbs_version (fo_callbacks o)) <$> opts)
                    GIT_REMOTE_CALLBACKS_VERSION)); [reflexivity|].
  rewrite Hnever. reflexivity.
Qed.

Lemma download_needs_transport_witness :
  run_download (-35) (-36) connect_blocks 3 None (Some async_fetch_options)
    (machine_of idle_remote 5)
  = Some (-1, machine_of idle_remote 5).
Proof.
  apply (download_needs_transport (-35) (-36) connect_blocks 3 None
           (Some async_fetch_options) (machine_of idle_remote 5));
    reflexivity.
Defined.

(** *** The default [set_fd_events] hook *)

(** [eventcb_data_t]: the three descriptor sets of [select], the seconds
    of the timeout and the descriptor [perform_all] looks at. *)
Record eventcb_data_t : Type := {
  readfds : gset Z;
  writefds : gset Z;
  exceptfds : gset Z;
  timeout_sec : Z;
  highest_fd : Z
}.

Section FdEvents.

(** The flag of git_event_t for reading; its value is in a header that
    is not among the sources. *)
Variable EVENT_READ : Z.

(** [set_fd_events]: both the read set and the write set are switched on
    the READ flag. *)
Definition set_fd_events (fd event : Z) (timeout : Z) (evdata : eventcb_data_t)
  : Z * eventcb_data_t :=
  let readfds' :=
    if negb (Z.land event EVENT_READ =? 0) then {[fd]} ∪ readfds evdata
    else readfds evdata ∖ {[fd]} in
  let writefds' :=
    if negb (Z.land event EVENT_READ =? 0) then {[fd]} ∪ writefds evdata
    else writefds evdata ∖ {[fd]} in
  (GIT_OK,
   {| readfds := readfds'; writefds := writefds';
      exceptfds := {[fd]} ∪ exceptfds evdata;
      timeout_sec := timeout; highest_fd := fd |}).

(** The default hook watches a descriptor for writing exactly when it is
    asked to watch it for reading: after [set_fd_events (fd, event, ...)]
    the descriptor is in the write set if and only if it is in the read
    set, if and only if [event] has the READ flag; no other flag of
    [event] has any effect, so a request for writing alone leaves [fd] in
    neither set.  The descriptor is always added to the exception set,
    [highest_fd] becomes [fd] whatever it was, and the membership of
    every other descriptor is unchanged. *)
Theorem set_fd_events_follows_read (fd event timeout : Z) (evdata : eventcb_data_t) :
  let evdata' := snd (set_fd_events fd event timeout evdata) in
  fst (set_fd_events fd event timeout evdata) = GIT_OK
  /\ (fd ∈ readfds evdata' <-> Z.land event EVENT_READ <> 0)
  /\ (fd ∈ writefds evdata' <-> Z.land event EVENT_READ <> 0)
  /\ fd ∈ exceptfds evdata'
  /\ highest_fd evdata' = fd
  /\ timeout_sec evdata' = timeout
  /\ forall other, other <> fd ->
       (other ∈ readfds evdata' <-> other ∈ readfds evdata)
       /\ (other ∈ writefds evdata' <-> other ∈ writefds evdata)
       /\ (other ∈ exceptfds evdata' <-> other ∈ exceptfds evdata).
Proof.
  unfold set_fd_events. simpl.
  destruct (Z.land event EVENT_READ =? 0) eqn:He; simpl.
  - apply Z.eqb_eq in He.
    split; [reflexivity|]. split; [rewrite elem_of_difference, elem_of_singleton; tauto|].
    split; [rewrite elem_of_difference, elem_of_singleton; tauto|].
    split; [apply elem_of_union_l; now apply elem_of_singleton|].
    split; [reflexivity|]. split; [reflexivity|].
    intros other Hother.
    rewrite !elem_of_difference, elem_of_union, !elem_of_singleton. tauto.
  - apply Z.eqb_neq in He.
    split; [reflexivity|]. split; [rewrite elem_of_union, elem_of_singleton; tauto|].
    split; [rewrite elem_of_union, elem_of_singleton; tauto|].
    split; [apply elem_of_union_l; now apply elem_of_singleton|].
    split; [reflexivity|]. split; [reflexivity|].
    intros other Hother.
    rewrite !elem_of_union, !elem_of_singleton. tauto.
Qed.

End FdEvents.

End Driver.

(** ** A refspec model

    refspec.c is not among the sources.  The operations below take its
    functions as parameters; this module gives one instance of them, used
    where a concrete run is needed. *)

Module RefspecModel.
Import Cstr.

Definition bad_char (c : ascii) : bool :=
  (nat_of_ascii c <? 33)%nat || (nat_of_ascii c =? 127)%nat
  || Ascii.eqb c "~" || Ascii.eqb c "^" || Ascii.eqb c ":" || Ascii.eqb c "?"
  || Ascii.eqb c "*" || Ascii.eqb c "[" || Ascii.eqb c "\".

Fixpoint has_bad_char (s : string) : bool :=
  match s with
  | EmptyString => false
  | String c s' => bad_char c || has_bad_char s'
  end.

(** Does [needle] occur in [s]? *)
Fixpoint contains (needle s : string) : bool :=
  String.prefix needle s
  || match s with
     | EmptyString => false
     | String _ s' => contains needle s'
     end.

(** Modelled from the spec: "literal ref names (must be valid)".  A name
    is taken as valid when it is not empty, has no blank, control
    character or one of [~ ^ : ? * [ \], no empty path component, and no
    [..]. *)
Definition valid_ref_name (s : string) : bool :=
  negb (strlen s =? 0)%nat
  && negb (has_bad_char s)
  && negb (String.prefix "/" s) && negb (ends_with "/" s)
  && negb (contains "//" s) && negb (contains ".." s).

(** Modelled from the spec: a pattern is a name with "a single trailing
    [*] wildcard". *)
Definition is_glob (s : string) : bool := ends_with "*" s.

Definition stem (s : string) : string := String.substring 0 (strlen s - 1) s.

Definition valid_side (s : string) : bool :=
  if is_glob s
  then ((strlen (stem s) =? 0)%nat || ends_with "/" (stem s))
       && valid_ref_name (stem s +:+ "x")
  else valid_ref_name s.

(** The text before and after the first [:], if there is one. *)
Fixpoint split_colon (s : string) : string * option string :=
  match s with
  | EmptyString => (EmptyString, None)
  | String c s' =>
      if Ascii.eqb c ":" then (EmptyString, Some s')
      else let '(a, b) := split_colon s' in (String c a, b)
  end.

(** Modelled from the spec: "optional leading [+] (force), then source,
    optional [:], optional destination"; both sides valid names or
    patterns, and either both patterns or none.  "Parsing fails ... on
    any other shape." *)
Definition git_refspec__parse (str : string) (is_fetch : bool) : option git_refspec :=
  let force := String.prefix "+" str in
  let body := if force then offset str 1 else str in
  let '(src, dst) := split_colon body in
  let dst_ok := match dst with
                | Some d => valid_side d && eqb (is_glob d) (is_glob src)
                | None => true
                end in
  if valid_side src && dst_ok
  then Some {| rs_string := str; rs_src := src; rs_dst := dst;
               rs_force := force; rs_push := negb is_fetch;
               rs_pattern := is_glob src |}
  else None.

(** Modelled from the spec: "matching is prefix equality on the
    non-wildcard portion". *)
Definition side_matches (pat name : string) : bool :=
  if is_glob pat then String.prefix (stem pat) name else String.eqb pat name.

Definition git_refspec_src_matches (spec : git_refspec) (refname : string) : bool :=
  side_matches (rs_src spec) refname.

Definition git_refspec_dst_matches (spec : git_refspec) (refname : string) : bool :=
  match rs_dst spec with
  | Some d => side_matches d refname
  | None => false
  end.

(** Modelled from the spec: "substitute the wildcard tail from source
    into destination". *)
Definition refspec_transform (from to name : string) : string :=
  if is_glob from then stem to +:+ offset name (strlen (stem from)) else to.

Definition git_refspec_transform (spec : git_refspec) (refname : string) : string :=
  refspec_transform (rs_src spec) (default "" (rs_dst spec)) refname.

(** "Reverse transform is the symmetric operation." *)
Definition git_refspec_rtransform (spec : git_refspec) (refname : string) : string :=
  refspec_transform (default "" (rs_dst spec)) (rs_src spec) refname.

(** Modelled from the spec: "if the source pattern is a wildcard, the
    spec is emitted as-is; if literal ... and if the literal ref is
    actually advertised, emit the spec (possibly rewriting a bare name
    into [refs/heads/<name>] ...); absent matches silently drop". *)
Definition git_refspec__dwim_one (spec : git_refspec) (refs : list git_remote_head)
  : list git_refspec :=
  if rs_pattern spec then [spec]
  else if existsb (fun h => String.eqb (rh_name h) (rs_src spec)) refs then [spec]
  else if existsb (fun h => String.eqb (rh_name h) (GIT_REFS_HEADS_DIR +:+ rs_src spec)) refs
  then [ {| rs_string := rs_string spec; rs_src := GIT_REFS_HEADS_DIR +:+ rs_src spec;
            rs_dst := rs_dst spec; rs_force := rs_force spec; rs_push := rs_push spec;
            rs_pattern := rs_pattern spec |} ]
  else [].

Example parse_default_fetchspec :
  git_refspec__parse "+refs/heads/*:refs/remotes/origin/*" true
  = Some {| rs_string := "+refs/heads/*:refs/remotes/origin/*";
            rs_src := "refs/heads/*"; rs_dst := Some "refs/remotes/origin/*";
            rs_force := true; rs_push := false; rs_pattern := true |}.
Proof. reflexivity. Qed.

Example parse_rejects_blank : git_refspec__parse "refs/heads/my branch" true = None.
Proof. reflexivity. Qed.

Example transform_default :
  git_refspec_transform
    {| rs_string := "+refs/heads/*:refs/remotes/origin/*";
       rs_src := "refs/heads/*"; rs_dst := Some "refs/remotes/origin/*";
       rs_force := true; rs_push := false; rs_pattern := true |}
    "refs/heads/main" = "refs/remotes/origin/main".
Proof. reflexivity. Qed.

End RefspecModel.

(** ** Config binding and the admin operations (create, lookup, add-refspec) *)

Module Admin.
Import Cstr.

(** What the admin operations touch of a repository: its configuration,
    and whether the configuration backend accepts writes or refuses them
    with a (negative) error code, as for a locked or read-only file. *)
Record git_repository : Type := {
  cfg : list git_config_entry;
  cfg_write_error : Z
}.

(** *** The configuration backend

    Modelled from the spec: config.c is not among the sources.  Keys are
    compared as they are written; a key set more than once is a multivar
    and a plain read of it yields the value set last. *)

Definition entries_named (config : list git_config_entry) (key : string)
  : list git_config_entry :=
  List.filter (fun e => String.eqb (ce_name e) key) config.

Definition git_config_get_string (config : list git_config_entry) (key : string)
  : Z * string :=
  match List.last (map Some (entries_named config key)) None with
  | Some e => (0, ce_value e)
  | None => (GIT_ENOTFOUND, "")
  end.

(** [git_config_get_multivar_foreach] with a NULL regexp: the callback
    sees every value of the key, until it returns non-zero. *)
Fixpoint multivar_foreach {S : Type} (entries : list git_config_entry)
    (cb : git_config_entry -> S -> Z * S) (payload : S) : Z * S :=
  match entries with
  | [] => (0, payload)
  | e :: rest =>
      let '(err, payload') := cb e payload in
      if negb (err =? 0) then (err, payload') else multivar_foreach rest cb payload'
  end.

Definition git_config_get_multivar_foreach {S : Type} (config : list git_config_entry)
    (key : string) (cb : git_config_entry -> S -> Z * S) (payload : S) : Z * S :=
  match entries_named config key with
  | [] => (GIT_ENOTFOUND, payload)
  | entries => multivar_foreach entries cb payload
  end.

Definition git_config_parse_bool (value : string) : Z * bool :=
  if String.eqb value "true" || String.eqb value "yes" || String.eqb value "on"
     || String.eqb value "1"
  then (0, true)
  else if String.eqb value "false" || String.eqb value "no" || String.eqb value "off"
          || String.eqb value "0" || String.eqb value ""
  then (0, false)
  else (-1, false).

(** [git_config_get_bool (&out, ...)]: [out] is written on success only. *)
Definition git_config_get_bool (out : bool) (config : list git_config_entry)
    (key : string) : Z * bool :=
  let '(error, value) := git_config_get_string config key in
  if error <? 0 then (error, out)
  else
    let '(error, b) := git_config_parse_bool value in
    if error <? 0 then (error, out) else (0, b).

Fixpoint replace_value (config : list git_config_entry) (key value : string)
  : list git_config_entry :=
  match config with
  | [] => []
  | e :: rest =>
      if String.eqb (ce_name e) key
      then {| ce_name := key; ce_value := value |} :: rest
      else e :: replace_value rest key value
  end.

Definition git_config_set_string (repo : git_repository) (key value : string)
  : Z * git_repository :=
  if cfg_write_error repo <? 0 then (cfg_write_error repo, repo)
  else
    match entries_named (cfg repo) key with
    | [] => (0, {| cfg := cfg repo ++ [ {| ce_name := key; ce_value := value |} ];
                   cfg_write_error := cfg_write_error repo |})
    | [_] => (0, {| cfg := replace_value (cfg repo) key value;
                    cfg_write_error := cfg_write_error repo |})
    | _ => (-1, repo)
    end.

(** [git_config_set_multivar] with the regexp ["$^"], which matches no
    value: the new value is added and nothing is replaced. *)
Definition git_config_set_multivar_append (repo : git_repository) (key value : string)
  : Z * git_repository :=
  if cfg_write_error repo <? 0 then (cfg_write_error repo, repo)
  else (0, {| cfg := cfg repo ++ [ {| ce_name := key; ce_value := value |} ];
              cfg_write_error := cfg_write_error repo |}).

(** *** The remote handle, as the admin operations build it *)

Record git_remote : Type := {
  name : option string;
  url : option string;
  pushurl : option string;
  refspecs : list git_refspec;
  active_refspecs : list git_refspec;
  download_tags : git_remote_autotag_option_t;
  prune_refs : bool;
  has_repo : bool
}.

Record git_remote_create_options : Type := {
  o_version : nat;
  o_repository : option git_repository;
  o_name : option string;
  o_fetchspec : option string;
  o_flags : Z
}.

Definition GIT_REMOTE_CREATE_OPTIONS_VERSION : nat := 1.
Definition GIT_REMOTE_CREATE_SKIP_INSTEADOF : Z := Z.shiftl 1 0.
Definition GIT_REMOTE_CREATE_SKIP_DEFAULT_FETCHSPEC : Z := Z.shiftl 1 1.

Definition GIT_REMOTE_CREATE_OPTIONS_INIT : git_remote_create_options :=
  {| o_version := GIT_REMOTE_CREATE_OPTIONS_VERSION;
     o_repository := None; o_name := None; o_fetchspec := None; o_flags := 0 |}.

Definition flag_set (flags flag : Z) : bool := negb (Z.land flags flag =? 0).

Definition CONFIG_URL_FMT (n : string) : string := "remote." +:+ n +:+ ".url".
Definition CONFIG_PUSHURL_FMT (n : string) : string := "remote." +:+ n +:+ ".pushurl".
Definition CONFIG_FETCH_FMT (n : string) : string := "remote." +:+ n +:+ ".fetch".
Definition CONFIG_PUSH_FMT (n : string) : string := "remote." +:+ n +:+ ".push".
Definition CONFIG_TAGOPT_FMT (n : string) : string := "remote." +:+ n +:+ ".tagopt".

Section WithRefspecs.

(** refspec.c is not among the sources: the parser ([None]: the string
    does not parse) and the DWIM expansion of one refspec against the
    advertised heads are parameters. *)
Variable git_refspec__parse : string -> bool -> option git_refspec.
Variable git_refspec__dwim_one : git_refspec -> list git_remote_head -> list git_refspec.

Definition with_push (spec : git_refspec) (p : bool) : git_refspec :=
  {| rs_string := rs_string spec; rs_src := rs_src spec; rs_dst := rs_dst spec;
     rs_force := rs_force spec; rs_push := p; rs_pattern := rs_pattern spec |}.

Definition add_refspec_to (vector : list git_refspec) (string_ : string)
    (is_fetch : bool) : Z * list git_refspec :=
  match git_refspec__parse string_ is_fetch with
  | None => (-1, vector)
  | Some spec => (0, vector ++ [with_push spec (negb is_fetch)])
  end.

Definition dwim_refspecs (out refspecs : list git_refspec)
    (refs : list git_remote_head) : list git_refspec :=
  out ++ concat (map (fun spec => git_refspec__dwim_one spec refs) refspecs).

Definition git_remote_is_valid_name (remote_name : option string) : bool :=
  match remote_name with
  | None => false
  | Some n =>
      if (strlen n =? 0)%nat then false
      else
        match git_refspec__parse ("refs/heads/test:refs/remotes/" +:+ n +:+ "/test") true with
        | Some _ => true
        | None => false
        end
  end.

Definition ensure_remote_name_is_valid (n : option string) : Z :=
  if negb (git_remote_is_valid_name n) then GIT_EINVALIDSPEC else 0.

Definition write_add_refspec (repo : git_repository) (n : string) (refspec : string)
    (fetch : bool) : Z * git_repository :=
  let fmt := if fetch then CONFIG_FETCH_FMT else CONFIG_PUSH_FMT in
  let error := ensure_remote_name_is_valid (Some n) in
  if error <? 0 then (error, repo)
  else
    match git_refspec__parse refspec fetch with
    | None => (GIT_EINVALIDSPEC, repo)
    | Some _ =>
        let var := fmt n in
        let '(error, repo') := git_config_set_multivar_append repo var refspec in
        (* whether or not the write went through: [cleanup: ... return 0] *)
        (0, repo')
    end.

Definition git_remote_add_fetch (repo : git_repository) (remote refspec : string)
  : Z * git_repository :=
  write_add_refspec repo remote refspec true.


Definition canonicalize_url (in_ : string) : Z * string :=
  if (strlen in_ =? 0)%nat then (GIT_EINVALIDSPEC, "") else (0, in_).

Definition default_fetchspec_for_name (n : string) : string :=
  "+refs/heads/*:refs/remotes/" +:+ n +:+ "/*".

Definition download_tags_value (current : git_remote_autotag_option_t)
    (config : list git_config_entry) (n : string) : Z * git_remote_autotag_option_t :=
  match git_config_get_string config (CONFIG_TAGOPT_FMT n) with
  | (0, value) =>
      if git__strcmp value "--no-tags" =? 0 then (0, GIT_REMOTE_DOWNLOAD_TAGS_NONE)
      else if git__strcmp value "--tags" =? 0 then (0, GIT_REMOTE_DOWNLOAD_TAGS_ALL)
      else (0, current)
  | _ => (0, current)
  end.

Definition lookup_remote_prune_config (current : bool) (config : list git_config_entry)
    (n : string) : Z * bool :=
  let '(error, prune) := git_config_get_bool current config ("remote." +:+ n +:+ ".prune") in
  if error <? 0 then
    if error =? GIT_ENOTFOUND then
      let '(error, prune) := git_config_get_bool prune config "fetch.prune" in
      if error <? 0 then
        if error =? GIT_ENOTFOUND then (0, prune) else (error, prune)
      else (error, prune)
    else (error, prune)
  else (error, prune).

Definition refspec_cb (fetch : bool) (entry : git_config_entry)
    (vector : list git_refspec) : Z * list git_refspec :=
  add_refspec_to vector (ce_value entry) fetch.

(** [get_optional_config] with a NULL callback: a string read. *)
Definition get_optional_config_string (config : list git_config_entry) (key : string)
  : Z * bool * string :=
  let '(error, val) := git_config_get_string config key in
  let found := (error =? 0) in
  let error := if error =? GIT_ENOTFOUND then 0 else error in
  (error, found, val).

(** [get_optional_config] with a callback and no [found]. *)
Definition get_optional_config_multivar (config : list git_config_entry) (key : string)
    (cb : git_config_entry -> list git_refspec -> Z * list git_refspec)
    (payload : list git_refspec) : Z * list git_refspec :=
  let '(error, payload') := git_config_get_multivar_foreach config key cb payload in
  let error := if error =? GIT_ENOTFOUND then 0 else error in
  (error, payload').

Definition git_remote_lookup (repo : git_repository) (n : string)
  : Z * option git_remote :=
  let error := ensure_remote_name_is_valid (Some n) in
  if error <? 0 then (error, None)
  else
    let config := cfg repo in
    let '(error, found, val) := get_optional_config_string config (CONFIG_URL_FMT n) in
    if error <? 0 then (error, None)
    else
      let optional_setting_found := found in
      let url_ :=
        if found && (0 <? strlen val)%nat
        then Some (Insteadof.apply_insteadof config val GIT_DIRECTION_FETCH)
        else None in
      let '(error, found, val) :=
        get_optional_config_string config (CONFIG_PUSHURL_FMT n) in
      if error <? 0 then (error, None)
      else
        let optional_setting_found := optional_setting_found || found in
        if negb optional_setting_found then (GIT_ENOTFOUND, None)
        else
          let pushurl_ :=
            if found && (0 <? strlen val)%nat
            then Some (Insteadof.apply_insteadof config val GIT_DIRECTION_PUSH)
            else None in
          let '(error, specs) :=
            get_optional_config_multivar config (CONFIG_FETCH_FMT n) (refspec_cb true) [] in
          if error <? 0 then (error, None)
          else
            let '(error, specs) :=
              get_optional_config_multivar config (CONFIG_PUSH_FMT n)
                (refspec_cb false) specs in
            if error <? 0 then (error, None)
            else
              let '(error, tags) :=
                download_tags_value GIT_REMOTE_DOWNLOAD_TAGS_AUTO config n in
              if error <? 0 then (error, None)
              else
                let '(error, prune) := lookup_remote_prune_config false config n in
                if error <? 0 then (error, None)
                else
                  (0, Some {| name := Some n; url := url_; pushurl := pushurl_;
                              refspecs := specs;
                              active_refspecs := dwim_refspecs [] specs [];
                              download_tags := tags; prune_refs := prune;
                              has_repo := true |}).

Definition ensure_remote_doesnot_exist (repo : git_repository) (n : string) : Z :=
  let '(error, _) := git_remote_lookup repo n in
  if error =? GIT_ENOTFOUND then 0
  else if error <? 0 then error
  else GIT_EEXISTS.

(** [git_remote_create_with_opts]: the code, the remote handed out on
    success, and the repository as the call leaves it (what was written
    before a failure stays written). *)
Definition git_remote_create_with_opts (url_ : string)
    (opts : option git_remote_create_options)
  : Z * option git_remote * option git_repository :=
  let opts := default GIT_REMOTE_CREATE_OPTIONS_INIT opts in
  let repo0 := o_repository opts in
  if negb ((0 <? o_version opts)%nat
           && (o_version opts <=? GIT_REMOTE_CREATE_OPTIONS_VERSION)%nat)
  then (-1, None, repo0)
  else
    let error :=
      match o_name opts with
      | Some n =>
          let error := ensure_remote_name_is_valid (Some n) in
          if error <? 0 then error
          else
            match repo0 with
            | Some r =>
                let error := ensure_remote_doesnot_exist r n in
                if error <? 0 then error else 0
            | None => 0
            end
      | None => 0
      end in
    if error <? 0 then (error, None, repo0)
    else
      let config_ro := match repo0 with Some r => cfg r | None => [] end in
      let '(error, canonical_url) := canonicalize_url url_ in
      if error <? 0 then (error, None, repo0)
      else
        let remote_url :=
          match repo0 with
          | Some _ =>
              if negb (flag_set (o_flags opts) GIT_REMOTE_CREATE_SKIP_INSTEADOF)
              then Insteadof.apply_insteadof config_ro canonical_url GIT_DIRECTION_FETCH
              else canonical_url
          | None => canonical_url
          end in
        let '(error, repo1) :=
          match o_name opts, repo0 with
          | Some n, Some r =>
              let '(error, r') := git_config_set_string r (CONFIG_URL_FMT n) canonical_url in
              (error, Some r')
          | _, _ => (0, repo0)
          end in
        if error <? 0 then (error, None, repo1)
        else
          let tags := match o_name opts with
                      | None => GIT_REMOTE_DOWNLOAD_TAGS_NONE
                      | Some _ => GIT_REMOTE_DOWNLOAD_TAGS_AUTO
                      end in
          if bool_decide (is_Some (o_fetchspec opts))
             || (bool_decide (is_Some (o_name opts))
                 && negb (flag_set (o_flags opts) GIT_REMOTE_CREATE_SKIP_DEFAULT_FETCHSPEC))
          then
            let fetch :=
              match o_fetchspec opts with
              | Some f => f
              | None => default_fetchspec_for_name (default "" (o_name opts))
              end in
            let '(error, specs) := add_refspec_to [] fetch true in
            if error <? 0 then (error, None, repo1)
            else
              (* only write for named remotes with a repository *)
              let '(error, repo2, prune) :=
                match repo1, o_name opts with
                | Some r, Some n =>
                    let '(error, r') := write_add_refspec r n fetch true in
                    if error <? 0 then (error, Some r', false)
                    else
                      let '(error, prune) := lookup_remote_prune_config false config_ro n in
                      (error, Some r', prune)
                | _, _ => (0, repo1, false)
                end in
              if error <? 0 then (error, None, repo2)
              else
                (0, Some {| name := o_name opts; url := Some remote_url; pushurl := None;
                            refspecs := specs;
                            active_refspecs := dwim_refspecs [] specs [];
                            download_tags := tags; prune_refs := prune;
                            has_repo := bool_decide (is_Some repo0) |},
                 repo2)
          else
            (0, Some {| name := o_name opts; url := Some remote_url; pushurl := None;
                        refspecs := []; active_refspecs := [];
                        download_tags := tags; prune_refs := false;
                        has_repo := bool_decide (is_Some repo0) |},
             repo1).

Definition git_remote_create (repo : git_repository) (n url_ : string)
  : Z * option git_remote * option git_repository :=
  let error := ensure_remote_name_is_valid (Some n) in
  if error <? 0 then (error, None, Some repo)
  else if fst (canonicalize_url url_) <? 0 then (GIT_ERROR, None, Some repo)
  else
    git_remote_create_with_opts url_
      (Some {| o_version := GIT_REMOTE_CREATE_OPTIONS_VERSION;
               o_repository := Some repo; o_name := Some n;
               o_fetchspec := None; o_flags := 0 |}).

Definition git_remote_create_with_fetchspec (repo : git_repository)
    (n url_ fetch : string) : Z * option git_remote * option git_repository :=
  let error := ensure_remote_name_is_valid (Some n) in
  if error <? 0 then (error, None, Some repo)
  else
    git_remote_create_with_opts url_
      (Some {| o_version := GIT_REMOTE_CREATE_OPTIONS_VERSION;
               o_repository := Some repo; o_name := Some n;
               o_fetchspec := Some fetch;
               o_flags := GIT_REMOTE_CREATE_SKIP_DEFAULT_FETCHSPEC |}).

Definition git_remote_create_anonymous (repo : git_repository) (url_ : string)
  : Z * option git_remote * option git_repository :=
  git_remote_create_with_opts url_
    (Some {| o_version := GIT_REMOTE_CREATE_OPTIONS_VERSION;
             o_repository := Some repo; o_name := None;
             o_fetchspec := None; o_flags := 0 |}).

Definition git_remote_create_detached (url_ : string)
  : Z * option git_remote * option git_repository :=
  git_remote_create_with_opts url_ None.

(** *** add-refspec *)


(** *** lookup *)

Definition key_set (config : list git_config_entry) (key : string) : bool :=
  match entries_named config key with
  | [] => false
  | _ :: _ => true
  end.

(** The refspecs a multivar spells, when every value parses. *)
Fixpoint parse_all (fetch : bool) (entries : list git_config_entry)
  : option (list git_refspec) :=
  match entries with
  | [] => Some []
  | e :: rest =>
      match git_refspec__parse (ce_value e) fetch with
      | None => None
      | Some spec =>
          match parse_all fetch rest with
          | None => None
          | Some l => Some (with_push spec (negb fetch) :: l)
          end
      end
  end.

(** The URL a key hydrates to: its value run through [insteadOf], or
    nothing when the key is unset or empty. *)
Definition hydrate_url (config : list git_config_entry) (key : string)
    (direction : git_direction) : option string :=
  match entries_named config key with
  | [] => None
  | _ :: _ =>
      let val := snd (git_config_get_string config key) in
      if (0 <? strlen val)%nat
      then Some (Insteadof.apply_insteadof config val direction)
      else None
  end.

Lemma last_some {A : Type} (l : list A) (x : A) :
  exists y, List.last (map Some (x :: l)) None = Some y.
Proof.
  revert x. induction l as [|z l IH]; intros x.
  - now exists x.
  - destruct (IH z) as [y Hy]. exists y. exact Hy.
Qed.

Lemma get_optional_config_string_spec (config : list git_config_entry) (key : string) :
  get_optional_config_string config key
  = (0, key_set config key, snd (git_config_get_string config key)).
Proof.
  unfold get_optional_config_string, git_config_get_string, key_set.
  destruct (entries_named config key) as [|e l]; [reflexivity|].
  destruct (last_some l e) as [y ->]. reflexivity.
Qed.

Lemma multivar_foreach_parsed (fetch : bool) (entries : list git_config_entry) :
  forall acc l,
    parse_all fetch entries = Some l ->
    multivar_foreach entries (refspec_cb fetch) acc = (0, acc ++ l).
Proof.
  induction entries as [|e rest IH]; intros acc l H; simpl in *.
  - injection H as <-. now rewrite app_nil_r.
  - unfold refspec_cb at 1, add_refspec_to.
    destruct (git_refspec__parse (ce_value e) fetch) as [spec|]; [|discriminate].
    destruct (parse_all fetch rest) as [l'|] eqn:Hrest; [|discriminate].
    injection H as <-. simpl.
    rewrite (IH _ l' eq_refl). now rewrite <- app_assoc.
Qed.

Lemma multivar_foreach_unparsed (fetch : bool) (entries : list git_config_entry) :
  forall acc,
    parse_all fetch entries = None ->
    fst (multivar_foreach entries (refspec_cb fetch) acc) = -1.
Proof.
  induction entries as [|e rest IH]; intros acc H; simpl in *; [discriminate|].
  unfold refspec_cb at 1, add_refspec_to.
  destruct (git_refspec__parse (ce_value e) fetch) as [spec|]; [|reflexivity].
  simpl. apply IH. now destruct (parse_all fetch rest).
Qed.

Lemma get_optional_config_multivar_parsed (config : list git_config_entry)
    (key : string) (fetch : bool) (acc l : list git_refspec) :
  parse_all fetch (entries_named config key) = Some l ->
  get_optional_config_multivar config key (refspec_cb fetch) acc = (0, acc ++ l).
Proof.
  intros H. unfold get_optional_config_multivar, git_config_get_multivar_foreach.
  destruct (entries_named config key) as [|e rest] eqn:He.
  - simpl in H. injection H as <-. now rewrite app_nil_r.
  - now rewrite (multivar_foreach_parsed fetch (e :: rest) acc l H).
Qed.

Lemma get_optional_config_multivar_unparsed (config : list git_config_entry)
    (key : string) (fetch : bool) (acc : list git_refspec) :
  parse_all fetch (entries_named config key) = None ->
  fst (get_optional_config_multivar config key (refspec_cb fetch) acc) = -1.
Proof.
  intros H. unfold get_optional_config_multivar, git_config_get_multivar_foreach.
  destruct (entries_named config key) as [|e rest] eqn:He; [discriminate|].
  pose proof (multivar_foreach_unparsed fetch (e :: rest) acc H) as Hf.
  destruct (multivar_foreach (e :: rest) (refspec_cb fetch) acc) as [err pl].
  simpl in Hf. subst err. reflexivity.
Qed.

Lemma download_tags_value_ok (current : git_remote_autotag_option_t)
    (config : list git_config_entry) (n : string) :
  fst (download_tags_value current config n) = 0.
Proof.
  unfold download_tags_value.
  destruct (git_config_get_string config (CONFIG_TAGOPT_FMT n)) as [[|?|?] v];
    try reflexivity.
  destruct (git__strcmp v "--no-tags" =? 0); [reflexivity|].
  now destruct (git__strcmp v "--tags" =? 0).
Qed.

Lemma parse_bool_error (value : string) :
  fst (git_config_parse_bool value) = 0 \/ fst (git_config_parse_bool value) = -1.
Proof.
  unfold git_config_parse_bool.
  destruct (_ || _); [now left|]. destruct (_ || _); [now left|now right].
Qed.

Lemma get_bool_error (out : bool) (config : list git_config_entry) (key : string) :
  let e := fst (git_config_get_bool out config key) in
  e = 0 \/ e = -1 \/ e = GIT_ENOTFOUND.
Proof.
  unfold git_config_get_bool, git_config_get_string.
  destruct (List.last _ None) as [entry|]; simpl; [|auto].
  destruct (parse_bool_error (ce_value entry)) as [H|H];
    destruct (git_config_parse_bool (ce_value entry)) as [err b];
    simpl in H; subst err; simpl; auto.
Qed.

Lemma prune_config_error (current : bool) (config : list git_config_entry) (n : string) :
  let e := fst (lookup_remote_prune_config current config n) in
  e = 0 \/ e = -1.
Proof.
  unfold lookup_remote_prune_config.
  pose proof (get_bool_error current config ("remote." +:+ n +:+ ".prune")) as H1.
  destruct (git_config_get_bool current config ("remote." +:+ n +:+ ".prune")) as [e1 p1].
  simpl in H1. destruct H1 as [->|[->| ->]]; simpl; auto.
  pose proof (get_bool_error p1 config "fetch.prune") as H2.
  destruct (git_config_get_bool p1 config "fetch.prune") as [e2 p2].
  simpl in H2. destruct H2 as [->|[->| ->]]; simpl; auto.
Qed.

(** C7, as amended.  For a valid remote name, [git_remote_lookup] fails
    with not-found exactly when neither [remote.<name>.url] nor
    [remote.<name>.pushurl] is set.  When at least one of them is set the
    lookup succeeds, and the remote is hydrated from the configuration
    (name, both URLs through [insteadOf], the fetch then the push
    refspecs, the tag option, the prune flag), PROVIDED every value of
    [remote.<name>.fetch] and [remote.<name>.push] parses as a refspec
    and the prune settings read as booleans; when one of these does not
    hold the lookup fails with -1 and hands out no remote. *)
Theorem lookup_found_iff_url_or_pushurl (repo : git_repository) (n : string) :
  git_remote_is_valid_name (Some n) = true ->
  let config := cfg repo in
  let is_set := key_set config (CONFIG_URL_FMT n) || key_set config (CONFIG_PUSHURL_FMT n) in
  (fst (git_remote_lookup repo n) = GIT_ENOTFOUND <-> is_set = false)
  /\ (is_set = true ->
      match parse_all true (entries_named config (CONFIG_FETCH_FMT n)),
            parse_all false (entries_named config (CONFIG_PUSH_FMT n)) with
      | Some fetch_specs, Some push_specs =>
          if fst (lookup_remote_prune_config false config n) =? 0 then
            git_remote_lookup repo n
            = (0, Some {| name := Some n;
                          url := hydrate_url config (CONFIG_URL_FMT n) GIT_DIRECTION_FETCH;
                          pushurl := hydrate_url config (CONFIG_PUSHURL_FMT n)
                                       GIT_DIRECTION_PUSH;
                          refspecs := fetch_specs ++ push_specs;
                          active_refspecs :=
                            dwim_refspecs [] (fetch_specs ++ push_specs) [];
                          download_tags :=
                            snd (download_tags_value GIT_REMOTE_DOWNLOAD_TAGS_AUTO config n);
                          prune_refs := snd (lookup_remote_prune_config false config n);
                          has_repo := true |})
          else git_remote_lookup repo n = (-1, None)
      | _, _ => git_remote_lookup repo n = (-1, None)
      end).
Proof.
  intros Hvalid config is_set.
  unfold git_remote_lookup, ensure_remote_name_is_valid.
  rewrite Hvalid. simpl negb. cbv iota.
  change (0 <? 0) with false. cbv iota.
  rewrite !get_optional_config_string_spec. fold config.
  change (0 <? 0) with false. cbv iota.
  fold is_set.
  destruct is_set eqn:His.
  2:{ simpl. split; [split; reflexivity|discriminate]. }
  simpl negb. cbv iota.
  assert (Hurl : forall key dir,
            (if key_set config key && (0 <? strlen (snd (git_config_get_string config key)))%nat
             then Some (Insteadof.apply_insteadof config
                          (snd (git_config_get_string config key)) dir)
             else None) = hydrate_url config key dir).
  { intros key d. unfold hydrate_url, key_set.
    destruct (entries_named config key); reflexivity. }
  rewrite !Hurl.
  destruct (parse_all true (entries_named config (CONFIG_FETCH_FMT n))) as [fs|] eqn:Hf.
  2:{ pose proof (get_optional_config_multivar_unparsed config _ true [] Hf) as He.
      destruct (get_optional_config_multivar config (CONFIG_FETCH_FMT n)
                  (refspec_cb true) []) as [err pl].
      simpl in He. subst err. simpl.
      split; [split; [discriminate|discriminate]|reflexivity]. }
  rewrite (get_optional_config_multivar_parsed config _ true [] fs Hf).
  change (0 <? 0) with false. cbv iota. simpl app.
  destruct (parse_all false (entries_named config (CONFIG_PUSH_FMT n))) as [ps|] eqn:Hp.
  2:{ pose proof (get_optional_config_multivar_unparsed config _ false fs Hp) as He.
      destruct (get_optional_config_multivar config (CONFIG_PUSH_FMT n)
                  (refspec_cb false) fs) as [err pl].
      simpl in He. subst err. simpl.
      split; [split; [discriminate|discriminate]|reflexivity]. }
  rewrite (get_optional_config_multivar_parsed config _ false fs ps Hp).
  change (0 <? 0) with false. cbv iota.
  pose proof (download_tags_value_ok GIT_REMOTE_DOWNLOAD_TAGS_AUTO config n) as Ht.
  destruct (download_tags_value GIT_REMOTE_DOWNLOAD_TAGS_AUTO config n) as [te tags].
  simpl in Ht. subst te. change (0 <? 0) with false. cbv iota.
  pose proof (prune_config_error false config n) as Hpr.
  destruct (lookup_remote_prune_config false config n) as [pe prune].
  simpl in Hpr. destruct Hpr as [->| ->]; simpl.
  - split; [split; discriminate|reflexivity].
  - split; [split; discriminate|reflexivity].
Qed.

(** *** create *)



Lemma set_string_writable (r r1 : git_repository) (key value : string) (e : Z) :
  git_config_set_string r key value = (e, r1) ->
  (e <? 0) = false ->
  (cfg_write_error r1 <? 0) = false.
Proof.
  unfold git_config_set_string. intros H He.
  destruct (cfg_write_error r <? 0) eqn:Hw.
  - injection H as <- <-. congruence.
  - destruct (entries_named (cfg r) key) as [|x [|y l]];
      injection H as <- <-; simpl; auto.
Qed.




(** The claim as the specification words it. *)
Definition lookup_claim : Prop :=
  forall (repo : git_repository) (n : string),
    let is_set :=
      key_set (cfg repo) (CONFIG_URL_FMT n) || key_set (cfg repo) (CONFIG_PUSHURL_FMT n) in
    (fst (git_remote_lookup repo n) = GIT_ENOTFOUND <-> is_set = false)
    /\ (is_set = true -> exists remote, git_remote_lookup repo n = (0, Some remote)).

(** *** Creating a remote twice, and a create that fails half way *)

Lemma entries_named_app (a b : list git_config_entry) (key : string) :
  entries_named (a ++ b) key = entries_named a key ++ entries_named b key.
Proof. unfold entries_named. apply List.filter_app. Qed.

Lemma key_set_app (a b : list git_config_entry) (key : string) :
  key_set (a ++ b) key = key_set a key || key_set b key.
Proof.
  unfold key_set. rewrite entries_named_app.
  destruct (entries_named a key); [|reflexivity].
  now destruct (entries_named b key).
Qed.

Lemma key_set_replace (config : list git_config_entry) (key value : string) :
  key_set config key = true -> key_set (replace_value config key value) key = true.
Proof.
  unfold key_set, entries_named.
  induction config as [|e rest IH]; simpl; [discriminate|].
  destruct (String.eqb (ce_name e) key) eqn:He; simpl.
  - intros _. now rewrite String.eqb_refl.
  - rewrite He. exact IH.
Qed.

Lemma set_string_sets (r r1 : git_repository) (key value : string) (e : Z) :
  git_config_set_string r key value = (e, r1) ->
  (e <? 0) = false ->
  key_set (cfg r1) key = true.
Proof.
  unfold git_config_set_string. intros H He.
  destruct (cfg_write_error r <? 0) eqn:Hw.
  { injection H as <- <-. congruence. }
  destruct (entries_named (cfg r) key) as [|x [|y l]] eqn:Hn; injection H as <- <-.
  - simpl. rewrite key_set_app. unfold key_set at 2, entries_named. simpl.
    rewrite String.eqb_refl. apply orb_true_r.
  - simpl. apply key_set_replace. unfold key_set. now rewrite Hn.
  - discriminate He.
Qed.

(** The code of a lookup, by whether the remote exists. *)
Lemma lookup_code (repo : git_repository) (n : string) :
  git_remote_is_valid_name (Some n) = true ->
  (key_set (cfg repo) (CONFIG_URL_FMT n) || key_set (cfg repo) (CONFIG_PUSHURL_FMT n) = false
   /\ fst (git_remote_lookup repo n) = GIT_ENOTFOUND)
  \/ (key_set (cfg repo) (CONFIG_URL_FMT n) || key_set (cfg repo) (CONFIG_PUSHURL_FMT n) = true
      /\ (fst (git_remote_lookup repo n) = 0 \/ fst (git_remote_lookup repo n) = -1)).
Proof.
  intros Hvalid. unfold git_remote_lookup, ensure_remote_name_is_valid.
  rewrite Hvalid. simpl negb. cbv iota.
  change (0 <? 0) with false. cbv iota.
  rewrite !get_optional_config_string_spec.
  change (0 <? 0) with false. cbv iota.
  destruct (key_set (cfg repo) (CONFIG_URL_FMT n)
            || key_set (cfg repo) (CONFIG_PUSHURL_FMT n)); simpl negb; cbv iota;
    [right; split; [reflexivity|]|left; split; reflexivity].
  destruct (get_optional_config_multivar (cfg repo) (CONFIG_FETCH_FMT n) (refspec_cb true) [])
    as [e1 fs] eqn:Hf.
  assert (He1 : e1 = 0 \/ e1 = -1).
  { destruct (parse_all true (entries_named (cfg repo) (CONFIG_FETCH_FMT n))) as [l|] eqn:Hp.
    - rewrite (get_optional_config_multivar_parsed _ _ true [] l Hp) in Hf.
      injection Hf as <- _. now left.
    - pose proof (get_optional_config_multivar_unparsed (cfg repo) _ true [] Hp) as He.
      rewrite Hf in He. now right. }
  destruct He1 as [->| ->]; [|now right].
  change (0 <? 0) with false. cbv iota.
  destruct (get_optional_config_multivar (cfg repo) (CONFIG_PUSH_FMT n) (refspec_cb false) fs)
    as [e2 ps] eqn:Hp2.
  assert (He2 : e2 = 0 \/ e2 = -1).
  { destruct (parse_all false (entries_named (cfg repo) (CONFIG_PUSH_FMT n))) as [l|] eqn:Hp.
    - rewrite (get_optional_config_multivar_parsed _ _ false fs l Hp) in Hp2.
      injection Hp2 as <- _. now left.
    - pose proof (get_optional_config_multivar_unparsed (cfg repo) _ false fs Hp) as He.
      rewrite Hp2 in He. now right. }
  destruct He2 as [->| ->]; [|now right].
  change (0 <? 0) with false. cbv iota.
  pose proof (download_tags_value_ok GIT_REMOTE_DOWNLOAD_TAGS_AUTO (cfg repo) n) as Ht.
  destruct (download_tags_value GIT_REMOTE_DOWNLOAD_TAGS_AUTO (cfg repo) n) as [te tags].
  simpl in Ht. subst te. change (0 <? 0) with false. cbv iota.
  pose proof (prune_config_error false (cfg repo) n) as Hpr.
  destruct (lookup_remote_prune_config false (cfg repo) n) as [pe prune].
  simpl in Hpr. destruct Hpr as [->| ->]; simpl; auto.
Qed.

Lemma exists_refuses (repo : git_repository) (n : string) :
  git_remote_is_valid_name (Some n) = true ->
  key_set (cfg repo) (CONFIG_URL_FMT n) = true ->
  ensure_remote_doesnot_exist repo n = GIT_EEXISTS
  \/ ensure_remote_doesnot_exist repo n = -1.
Proof.
  intros Hvalid Hset. unfold ensure_remote_doesnot_exist.
  destruct (lookup_code repo n Hvalid) as [[Hno _]|[_ Hcode]].
  { rewrite Hset in Hno. discriminate Hno. }
  destruct (git_remote_lookup repo n) as [e r]. simpl in Hcode.
  destruct Hcode as [->| ->]; [now left|now right].
Qed.

(** What a successful [git_remote_create] leaves in the configuration:
    the URL key is set. *)
Lemma create_sets_url (repo repo' : git_repository) (n url_ : string)
    (remote : git_remote) :
  git_remote_create repo n url_ = (0, Some remote, Some repo') ->
  git_remote_is_valid_name (Some n) = true
  /\ key_set (cfg repo') (CONFIG_URL_FMT n) = true.
Proof.
  unfold git_remote_create, ensure_remote_name_is_valid.
  destruct (git_remote_is_valid_name (Some n)) eqn:Hvalid; simpl negb; cbv iota;
    [|intros H; discriminate H].
  change (0 <? 0) with false. cbv iota.
  destruct (fst (canonicalize_url url_) <? 0) eqn:Hcan; [intros H; discriminate H|].
  unfold git_remote_create_with_opts. simpl default.
  cbn [o_version o_repository o_name o_fetchspec o_flags].
  change (negb ((0 <? GIT_REMOTE_CREATE_OPTIONS_VERSION)%nat
                && (GIT_REMOTE_CREATE_OPTIONS_VERSION <=? GIT_REMOTE_CREATE_OPTIONS_VERSION)%nat))
    with false. cbv iota.
  unfold ensure_remote_name_is_valid. rewrite Hvalid. simpl negb. cbv iota.
  change (0 <? 0) with false. cbv iota.
  destruct (ensure_remote_doesnot_exist repo n <? 0) eqn:Hex;
    [rewrite Hex; intros H; discriminate H|].
  change (0 <? 0) with false. cbv iota.
  destruct (canonicalize_url url_) as [ec cu]. simpl in Hcan. rewrite Hcan.
  destruct (git_config_set_string repo (CONFIG_URL_FMT n) cu) as [e1 r1] eqn:Hset.
  destruct (e1 <? 0) eqn:He1; [intros H; discriminate H|].
  pose proof (set_string_sets _ _ _ _ _ Hset He1) as Hkey.
  pose proof (set_string_writable _ _ _ _ _ Hset He1) as Hw.
  change (flag_set 0 GIT_REMOTE_CREATE_SKIP_DEFAULT_FETCHSPEC) with false.
  change (flag_set 0 GIT_REMOTE_CREATE_SKIP_INSTEADOF) with false.
  simpl negb. rewrite andb_true_r.
  cbn [bool_decide decide_rel]. simpl orb. cbv iota. simpl default.
  destruct (add_refspec_to [] (default_fetchspec_for_name n) true) as [ea specs].
  destruct (ea <? 0); [intros H; discriminate H|].
  unfold write_add_refspec, ensure_remote_name_is_valid. rewrite Hvalid.
  simpl negb. cbv iota. change (0 <? 0) with false. cbv iota.
  destruct (git_refspec__parse (default_fetchspec_for_name n) true) as [spec|].
  - unfold git_config_set_multivar_append. rewrite Hw.
    change (0 <? 0) with false. cbv iota.
    destruct (lookup_remote_prune_config false (cfg repo) n) as [e3 prune].
    destruct (e3 <? 0); [intros H; discriminate H|].
    intros H. injection H as _ <-. split; [reflexivity|].
    simpl. rewrite key_set_app, Hkey. reflexivity.
  - change (GIT_EINVALIDSPEC <? 0) with true. cbv iota. intros H. discriminate H.
Qed.

(** [git_remote_create] cannot be repeated: once it has succeeded for a
    name, every further [git_remote_create] for that name in the
    repository it left, whatever the URL, fails with a negative code
    (already-exists, or the error of reading the remote back), hands out
    no remote and writes nothing. *)
Theorem create_is_not_repeatable (repo repo' : git_repository) (n url_ url2 : string)
    (remote : git_remote) :
  git_remote_create repo n url_ = (0, Some remote, Some repo') ->
  exists e, e < 0 /\ git_remote_create repo' n url2 = (e, None, Some repo').
Proof.
  intros H. destruct (create_sets_url _ _ _ _ _ H) as [Hvalid Hkey].
  unfold git_remote_create, ensure_remote_name_is_valid.
  rewrite Hvalid. simpl negb. cbv iota. change (0 <? 0) with false. cbv iota.
  destruct (fst (canonicalize_url url2) <? 0).
  { exists GIT_ERROR. split; [reflexivity|reflexivity]. }
  unfold git_remote_create_with_opts. simpl default.
  cbn [o_version o_repository o_name o_fetchspec o_flags].
  change (negb ((0 <? GIT_REMOTE_CREATE_OPTIONS_VERSION)%nat
                && (GIT_REMOTE_CREATE_OPTIONS_VERSION <=? GIT_REMOTE_CREATE_OPTIONS_VERSION)%nat))
    with false. cbv iota.
  unfold ensure_remote_name_is_valid. rewrite Hvalid. simpl negb. cbv iota.
  change (0 <? 0) with false. cbv iota.
  destruct (exists_refuses repo' n Hvalid Hkey) as [-> | ->].
  - exists GIT_EEXISTS. split; reflexivity.
  - exists (-1). split; reflexivity.
Qed.

(** [git_remote_create_with_fetchspec] writes the URL before it looks at
    the refspec: for a valid name that no remote has yet, a writable
    configuration and a non-empty URL, a fetch refspec that does not
    parse makes the call fail with -1 and hand out no remote, yet
    [remote.<name>.url] has been written and stays written. *)
Theorem create_with_bad_fetchspec_leaves_url (repo : git_repository)
    (n url_ fetch : string) :
  git_remote_is_valid_name (Some n) = true ->
  key_set (cfg repo) (CONFIG_URL_FMT n) || key_set (cfg repo) (CONFIG_PUSHURL_FMT n) = false ->
  (cfg_write_error repo <? 0) = false ->
  strlen url_ <> 0%nat ->
  git_refspec__parse fetch true = None ->
  git_remote_create_with_fetchspec repo n url_ fetch
  = (-1, None,
     Some {| cfg := cfg repo ++ [ {| ce_name := CONFIG_URL_FMT n; ce_value := url_ |} ];
             cfg_write_error := cfg_write_error repo |}).
Proof.
  intros Hvalid Hnew Hw Hurl Hparse.
  unfold git_remote_create_with_fetchspec, ensure_remote_name_is_valid.
  rewrite Hvalid. simpl negb. cbv iota. change (0 <? 0) with false. cbv iota.
  unfold git_remote_create_with_opts. simpl default.
  cbn [o_version o_repository o_name o_fetchspec o_flags].
  change (negb ((0 <? GIT_REMOTE_CREATE_OPTIONS_VERSION)%nat
                && (GIT_REMOTE_CREATE_OPTIONS_VERSION <=? GIT_REMOTE_CREATE_OPTIONS_VERSION)%nat))
    with false. cbv iota.
  unfold ensure_remote_name_is_valid. rewrite Hvalid. simpl negb. cbv iota.
  change (0 <? 0) with false. cbv iota.
  assert (Hnot : ensure_remote_doesnot_exist repo n = 0).
  { unfold ensure_remote_doesnot_exist.
    destruct (lookup_code repo n Hvalid) as [[_ Hcode]|[Hset _]]; [|congruence].
    destruct (git_remote_lookup repo n) as [e r]. simpl in Hcode. now subst e. }
  rewrite Hnot. change (0 <? 0) with false. cbv iota.
  unfold canonicalize_url. apply Nat.eqb_neq in Hurl. rewrite Hurl.
  change (0 <? 0) with false. cbv iota.
  unfold git_config_set_string. rewrite Hw.
  apply orb_false_iff in Hnew as [Hnew _]. unfold key_set in Hnew.
  destruct (entries_named (cfg repo) (CONFIG_URL_FMT n)); [|discriminate Hnew].
  change (0 <? 0) with false. cbv iota.
  cbn [bool_decide decide_rel]. simpl orb. cbv iota.
  unfold add_refspec_to. rewrite Hparse. reflexivity.
Qed.

(** *** What a lookup hands out *)

(** The fields of a remote that [git_remote_lookup] handed out, read off
    the configuration. *)
Lemma lookup_fields (repo : git_repository) (n : string) (remote : git_remote) :
  git_remote_lookup repo n = (0, Some remote) ->
  exists fetch_specs push_specs,
    parse_all true (entries_named (cfg repo) (CONFIG_FETCH_FMT n)) = Some fetch_specs
    /\ parse_all false (entries_named (cfg repo) (CONFIG_PUSH_FMT n)) = Some push_specs
    /\ remote
       = {| name := Some n;
            url := hydrate_url (cfg repo) (CONFIG_URL_FMT n) GIT_DIRECTION_FETCH;
            pushurl := hydrate_url (cfg repo) (CONFIG_PUSHURL_FMT n) GIT_DIRECTION_PUSH;
            refspecs := fetch_specs ++ push_specs;
            active_refspecs := dwim_refspecs [] (fetch_specs ++ push_specs) [];
            download_tags :=
              snd (download_tags_value GIT_REMOTE_DOWNLOAD_TAGS_AUTO (cfg repo) n);
            prune_refs := snd (lookup_remote_prune_config false (cfg repo) n);
            has_repo := true |}.
Proof.
  unfold git_remote_lookup.
  destruct (ensure_remote_name_is_valid (Some n) <? 0); [intros H; discriminate H|].
  rewrite !get_optional_config_string_spec.
  change (0 <? 0) with false. cbv iota.
  destruct (negb _); [intros H; discriminate H|].
  assert (Hurl : forall key dir,
            (if key_set (cfg repo) key
                && (0 <? strlen (snd (git_config_get_string (cfg repo) key)))%nat
             then Some (Insteadof.apply_insteadof (cfg repo)
                          (snd (git_config_get_string (cfg repo) key)) dir)
             else None) = hydrate_url (cfg repo) key dir).
  { intros key d. unfold hydrate_url, key_set.
    destruct (entries_named (cfg repo) key); reflexivity. }
  rewrite !Hurl.
  destruct (parse_all true (entries_named (cfg repo) (CONFIG_FETCH_FMT n))) as [fs|] eqn:Hf.
  2:{ pose proof (get_optional_config_multivar_unparsed (cfg repo) _ true [] Hf) as He.
      destruct (get_optional_config_multivar (cfg repo) (CONFIG_FETCH_FMT n)
                  (refspec_cb true) []) as [err pl].
      simpl in He. subst err. intros H. discriminate H. }
  rewrite (get_optional_config_multivar_parsed (cfg repo) _ true [] fs Hf).
  change (0 <? 0) with false. cbv iota. simpl app.
  destruct (parse_all false (entries_named (cfg repo) (CONFIG_PUSH_FMT n))) as [ps|] eqn:Hp.
  2:{ pose proof (get_optional_config_multivar_unparsed (cfg repo) _ false fs Hp) as He.
      destruct (get_optional_config_multivar (cfg repo) (CONFIG_PUSH_FMT n)
                  (refspec_cb false) fs) as [err pl].
      simpl in He. subst err. intros H. discriminate H. }
  rewrite (get_optional_config_multivar_parsed (cfg repo) _ false fs ps Hp).
  change (0 <? 0) with false. cbv iota.
  destruct (download_tags_value GIT_REMOTE_DOWNLOAD_TAGS_AUTO (cfg repo) n) as [te tags].
  destruct (te <? 0); [intros H; discriminate H|].
  destruct (lookup_remote_prune_config false (cfg repo) n) as [pe prune].
  destruct (pe <? 0); [intros H; discriminate H|].
  intros H. injection H as <-. exists fs, ps. auto.
Qed.

(** *** The refspec strings of a remote ([copy_refspecs]) *)

Definition copy_refspecs (remote : git_remote) (push : bool) : list string :=
  map rs_string (List.filter (fun spec => Bool.eqb (rs_push spec) push) (refspecs remote)).

Definition git_remote_get_fetch_refspecs (remote : git_remote) : list string :=
  copy_refspecs remote false.

Definition git_remote_get_push_refspecs (remote : git_remote) : list string :=
  copy_refspecs remote true.

Definition git_remote_refspec_count (remote : git_remote) : nat :=
  length (refspecs remote).

(** What the callers of the parser rely on: a parsed refspec carries the
    string it was parsed from. *)
Definition parser_keeps_string : Prop :=
  forall str is_fetch spec,
    git_refspec__parse str is_fetch = Some spec -> rs_string spec = str.

Lemma parse_all_strings (fetch : bool) (entries : list git_config_entry) :
  parser_keeps_string ->
  forall l, parse_all fetch entries = Some l ->
    map rs_string l = map ce_value entries
    /\ Forall (fun spec => rs_push spec = negb fetch) l.
Proof.
  intros Hkeep. induction entries as [|e rest IH]; intros l H; simpl in H.
  - injection H as <-. split; [reflexivity|constructor].
  - destruct (git_refspec__parse (ce_value e) fetch) as [spec|] eqn:Hp; [|discriminate H].
    destruct (parse_all fetch rest) as [l'|]; [|discriminate H].
    injection H as <-. destruct (IH l' eq_refl) as [Hs Hall].
    split.
    + simpl. now rewrite (Hkeep _ _ _ Hp), Hs.
    + constructor; [reflexivity|exact Hall].
Qed.

Lemma filter_push_all (p : bool) (l : list git_refspec) :
  Forall (fun spec => rs_push spec = p) l ->
  List.filter (fun spec => Bool.eqb (rs_push spec) p) l = l
  /\ List.filter (fun spec => Bool.eqb (rs_push spec) (negb p)) l = [].
Proof.
  induction 1 as [|spec l Hspec Hall [IH1 IH2]]; [split; reflexivity|].
  simpl. rewrite Hspec, IH1, IH2. now destruct p.
Qed.

(** From the configuration to the handle and back: for a remote that
    [git_remote_lookup] handed out, [git_remote_get_fetch_refspecs]
    yields the values of [remote.<name>.fetch] and
    [git_remote_get_push_refspecs] those of [remote.<name>.push], each in
    the order of the configuration, and [git_remote_refspec_count] is the
    number of both. *)
Theorem lookup_refspec_strings (repo : git_repository) (n : string) (remote : git_remote) :
  parser_keeps_string ->
  git_remote_lookup repo n = (0, Some remote) ->
  git_remote_get_fetch_refspecs remote
  = map ce_value (entries_named (cfg repo) (CONFIG_FETCH_FMT n))
  /\ git_remote_get_push_refspecs remote
     = map ce_value (entries_named (cfg repo) (CONFIG_PUSH_FMT n))
  /\ git_remote_refspec_count remote
     = (length (entries_named (cfg repo) (CONFIG_FETCH_FMT n))
        + length (entries_named (cfg repo) (CONFIG_PUSH_FMT n)))%nat.
Proof.
  intros Hkeep H. destruct (lookup_fields _ _ _ H) as (fs & ps & Hf & Hp & ->).
  destruct (parse_all_strings true _ Hkeep fs Hf) as [Hfs Hfall].
  destruct (parse_all_strings false _ Hkeep ps Hp) as [Hps Hpall].
  simpl negb in Hfall, Hpall.
  destruct (filter_push_all false fs Hfall) as [Hf1 Hf2].
  destruct (filter_push_all true ps Hpall) as [Hp1 Hp2].
  simpl negb in Hf2, Hp2.
  unfold git_remote_get_fetch_refspecs, git_remote_get_push_refspecs,
    git_remote_refspec_count, copy_refspecs. simpl refspecs.
  rewrite !List.filter_app, Hf1, Hf2, Hp1, Hp2, app_nil_r. simpl app.
  split; [exact Hfs|]. split; [exact Hps|].
  apply (f_equal length) in Hfs, Hps. rewrite !length_map in Hfs, Hps.
  rewrite length_app. congruence.
Qed.

(** *** [git_remote_dup] *)

(** The loop of [git_remote_dup] over the refspecs of the source. *)
Fixpoint dup_refspecs (specs vector : list git_refspec) : Z * list git_refspec :=
  match specs with
  | [] => (0, vector)
  | spec :: rest =>
      let '(error, vector) := add_refspec_to vector (rs_string spec) (negb (rs_push spec)) in
      if error <? 0 then (error, vector) else dup_refspecs rest vector
  end.

Definition git_remote_dup (source : git_remote) : Z * option git_remote :=
  let '(error, specs) := dup_refspecs (refspecs source) [] in
  if error <? 0 then (error, None)
  else (error, Some {| name := name source; url := url source; pushurl := pushurl source;
                       refspecs := specs; active_refspecs := [];
                       download_tags := download_tags source;
                       prune_refs := prune_refs source; has_repo := has_repo source |}).

Lemma dup_refspecs_parsed (fetch : bool) (entries : list git_config_entry) :
  parser_keeps_string ->
  forall l acc, parse_all fetch entries = Some l ->
    forall rest, dup_refspecs (l ++ rest) acc = dup_refspecs rest (acc ++ l).
Proof.
  intros Hkeep. induction entries as [|e es IH]; intros l acc H rest; simpl in H.
  - injection H as <-. now rewrite app_nil_r.
  - destruct (git_refspec__parse (ce_value e) fetch) as [spec|] eqn:Hp; [|discriminate H].
    destruct (parse_all fetch es) as [l'|]; [|discriminate H].
    injection H as <-. simpl. unfold add_refspec_to.
    rewrite negb_involutive, (Hkeep _ _ _ Hp), Hp.
    change (0 <? 0) with false. cbv iota.
    rewrite (IH l' _ eq_refl). now rewrite <- app_assoc.
Qed.

(** [git_remote_dup] of a remote that [git_remote_lookup] handed out
    succeeds and copies the name, both URLs, the refspecs, the tag option
    and the prune flag; the active refspecs are not copied: the duplicate
    has none. *)
Theorem dup_of_lookup (repo : git_repository) (n : string) (remote : git_remote) :
  parser_keeps_string ->
  git_remote_lookup repo n = (0, Some remote) ->
  git_remote_dup remote
  = (0, Some {| name := name remote; url := url remote; pushurl := pushurl remote;
                refspecs := refspecs remote; active_refspecs := [];
                download_tags := download_tags remote;
                prune_refs := prune_refs remote; has_repo := has_repo remote |}).
Proof.
  intros Hkeep H. destruct (lookup_fields _ _ _ H) as (fs & ps & Hf & Hp & ->).
  unfold git_remote_dup. simpl refspecs.
  rewrite (dup_refspecs_parsed true _ Hkeep fs [] Hf ps). simpl app.
  rewrite <- (app_nil_r ps) at 1.
  rewrite (dup_refspecs_parsed false _ Hkeep ps fs Hp []). simpl.
  reflexivity.
Qed.

(** *** Setting the URLs and the tag option *)

(** Modelled from the spec: [git_config_delete_entry] of config.c removes
    the one entry of that name; it reports not-found when there is none
    and fails on a multivar. *)
Definition git_config_delete_entry (repo : git_repository) (key : string)
  : Z * git_repository :=
  match entries_named (cfg repo) key with
  | [] => (GIT_ENOTFOUND, repo)
  | [_] =>
      if cfg_write_error repo <? 0 then (cfg_write_error repo, repo)
      else (0, {| cfg := List.filter (fun e => negb (String.eqb (ce_name e) key)) (cfg repo);
                  cfg_write_error := cfg_write_error repo |})
  | _ => (-1, repo)
  end.

(** [set_url]: [pattern] is [CONFIG_URL_FMT] or [CONFIG_PUSHURL_FMT];
    the canonical URL is computed and then not used. *)
Definition set_url (repo : git_repository) (remote : string)
    (pattern : string -> string) (url_ : option string) : Z * git_repository :=
  let error := ensure_remote_name_is_valid (Some remote) in
  if error <? 0 then (error, repo)
  else
    let buf := pattern remote in
    match url_ with
    | Some u =>
        let '(error, canonical_url) := canonicalize_url u in
        if error <? 0 then (error, repo)
        else git_config_set_string repo buf u
    | None => git_config_delete_entry repo buf
    end.

Definition git_remote_set_url (repo : git_repository) (remote : string)
    (url_ : option string) : Z * git_repository :=
  set_url repo remote CONFIG_URL_FMT url_.

Definition git_remote_set_pushurl (repo : git_repository) (remote : string)
    (url_ : option string) : Z * git_repository :=
  set_url repo remote CONFIG_PUSHURL_FMT url_.


Lemma entries_named_replace (config : list git_config_entry) (key value : string)
    (x : git_config_entry) (l : list git_config_entry) :
  entries_named config key = x :: l ->
  entries_named (replace_value config key value) key
  = {| ce_name := key; ce_value := value |} :: l.
Proof.
  unfold entries_named. revert x l.
  induction config as [|e rest IH]; intros x l; simpl; [discriminate|].
  destruct (String.eqb (ce_name e) key) eqn:He; simpl.
  - rewrite String.eqb_refl. intros H. injection H as _ <-. reflexivity.
  - rewrite He. apply IH.
Qed.

Lemma set_string_get (r r1 : git_repository) (key value : string) (e : Z) :
  git_config_set_string r key value = (e, r1) ->
  (e <? 0) = false ->
  git_config_get_string (cfg r1) key = (0, value).
Proof.
  unfold git_config_set_string, git_config_get_string. intros H He.
  destruct (cfg_write_error r <? 0) eqn:Hw.
  { injection H as <- <-. congruence. }
  destruct (entries_named (cfg r) key) as [|x [|y l]] eqn:Hn; injection H as <- <-.
  - simpl cfg. rewrite entries_named_app, Hn. unfold entries_named. simpl.
    rewrite String.eqb_refl. reflexivity.
  - simpl cfg. rewrite (entries_named_replace _ _ _ _ _ Hn). reflexivity.
  - discriminate He.
Qed.

Lemma set_string_failure (r r1 : git_repository) (key value : string) (e : Z) :
  git_config_set_string r key value = (e, r1) ->
  (e <? 0) = true ->
  r1 = r.
Proof.
  unfold git_config_set_string. intros H He.
  destruct (cfg_write_error r <? 0); [now injection H as <- <-|].
  destruct (entries_named (cfg r) key) as [|x [|y l]]; injection H as <- <-;
    try discriminate He; reflexivity.
Qed.

Lemma entries_named_removed (config : list git_config_entry) (key : string) :
  entries_named (List.filter (fun e => negb (String.eqb (ce_name e) key)) config) key = [].
Proof.
  unfold entries_named. induction config as [|e rest IH]; simpl; [reflexivity|].
  destruct (String.eqb (ce_name e) key) eqn:He; simpl; [exact IH|].
  rewrite He. exact IH.
Qed.

Lemma delete_entry_unsets (r r1 : git_repository) (key : string) (e : Z) :
  git_config_delete_entry r key = (e, r1) ->
  e = 0 \/ (e = GIT_ENOTFOUND /\ cfg_write_error r <> GIT_ENOTFOUND) ->
  entries_named (cfg r1) key = [].
Proof.
  unfold git_config_delete_entry. intros H He.
  destruct (entries_named (cfg r) key) as [|x [|y l]] eqn:Hn.
  - injection H as <- <-. exact Hn.
  - destruct (cfg_write_error r <? 0) eqn:Hw; injection H as <- <-.
    + apply Z.ltb_lt in Hw. destruct He as [He|[He Hne]]; [lia|congruence].
    + apply entries_named_removed.
  - injection H as <- <-. destruct He as [He|[He _]]; discriminate He.
Qed.

(** What [git_remote_set_url] and [git_remote_set_pushurl] write is what
    [git_remote_lookup] reads.  When the call for a URL succeeds, the URL
    was not empty and every later successful lookup of that name in the
    repository it left hands out a remote whose URL (push URL) is the
    given one run through [insteadOf]; when the call with no URL (NULL)
    succeeds, the key is gone.  A call that fails leaves the
    configuration as it was. *)
Theorem set_url_then_lookup (push : bool) (repo repo' : git_repository) (n : string)
    (url_ : option string) (e : Z) :
  (if push then git_remote_set_pushurl repo n url_ else git_remote_set_url repo n url_)
  = (e, repo') ->
  let key := if push then CONFIG_PUSHURL_FMT n else CONFIG_URL_FMT n in
  (e < 0 -> repo' = repo)
  /\ (e = 0 ->
      match url_ with
      | Some u =>
          strlen u <> 0%nat
          /\ forall remote,
               git_remote_lookup repo' n = (0, Some remote) ->
               (if push then pushurl remote else url remote)
               = Some (Insteadof.apply_insteadof (cfg repo') u
                         (if push then GIT_DIRECTION_PUSH else GIT_DIRECTION_FETCH))
      | None => key_set (cfg repo') key = false
      end).
Proof.
  intros H key.
  assert (Hset : set_url repo n (if push then CONFIG_PUSHURL_FMT else CONFIG_URL_FMT) url_
                 = (e, repo')).
  { destruct push; exact H. }
  clear H. unfold set_url in Hset.
  assert (Hkey : (if push then CONFIG_PUSHURL_FMT else CONFIG_URL_FMT) n = key)
    by now destruct push.
  rewrite Hkey in Hset.
  destruct (ensure_remote_name_is_valid (Some n) <? 0) eqn:Hv.
  { injection Hset as <- <-. split; [reflexivity|].
    intros He. rewrite He in Hv. discriminate Hv. }
  destruct url_ as [u|].
  - unfold canonicalize_url in Hset.
    destruct (strlen u =? 0)%nat eqn:Hlen.
    { change (GIT_EINVALIDSPEC <? 0) with true in Hset. cbv iota in Hset.
      injection Hset as <- <-. split; [reflexivity|discriminate]. }
    change (0 <? 0) with false in Hset. cbv iota in Hset.
    split.
    + intros He. apply (set_string_failure _ _ _ _ _ Hset). now apply Z.ltb_lt.
    + intros ->. split; [now apply Nat.eqb_neq|].
      pose proof (set_string_get _ _ _ _ _ Hset eq_refl) as Hget.
      pose proof (set_string_sets _ _ _ _ _ Hset eq_refl) as Hks.
      intros remote Hl. destruct (lookup_fields _ _ _ Hl) as (fs & ps & _ & _ & ->).
      assert (Hh : hydrate_url (cfg repo') key
                     (if push then GIT_DIRECTION_PUSH else GIT_DIRECTION_FETCH)
                   = Some (Insteadof.apply_insteadof (cfg repo') u
                             (if push then GIT_DIRECTION_PUSH else GIT_DIRECTION_FETCH))).
      { unfold hydrate_url. unfold key_set in Hks.
        destruct (entries_named (cfg repo') key); [discriminate Hks|].
        rewrite Hget. simpl snd.
        assert ((0 <? strlen u)%nat = true) as ->; [|reflexivity].
        apply Nat.ltb_lt. apply Nat.eqb_neq in Hlen. lia. }
      subst key. destruct push; exact Hh.
  - split.
    + intros He. unfold git_config_delete_entry in Hset.
      destruct (entries_named (cfg repo) key) as [|x [|y l]];
        try (now injection Hset as <- <-).
      destruct (cfg_write_error repo <? 0); injection Hset as <- <-; [reflexivity|lia].
    + intros ->. unfold key_set.
      now rewrite (delete_entry_unsets _ _ _ _ Hset (or_introl eq_refl)).
Qed.


(** *** Listing the remotes ([git_remote_list]) *)

(** Modelled from the spec: [git_config_foreach_match] of config.c calls
    back for the entries whose name matches the regular expression; for
    ["^remote\..*\.(push)?url$"] these are the names that begin with
    ["remote."] and go on, after any text, with [".url"] or [".pushurl"]
    at the end. *)
Definition list_regexp_matches (entry_name : string) : bool :=
  String.prefix "remote." entry_name
  && ((ends_with ".url" entry_name
       && (strlen "remote." + strlen ".url" <=? strlen entry_name)%nat)
      || (ends_with ".pushurl" entry_name
          && (strlen "remote." + strlen ".pushurl" <=? strlen entry_name)%nat)).

(** The name [remote_list_cb] cuts out of the name of an entry. *)
Definition listed_name (entry : git_config_entry) : string :=
  let name_ := offset (ce_name entry) (strlen "remote.") in
  let namelen := N.of_nat (strlen name_) in
  if git__strcmp (offset name_ (N.to_nat (size_sub namelen 4))) ".url" =? 0
  then git__strndup name_ (size_sub namelen 4) (* strip ".url" *)
  else git__strndup name_ (size_sub namelen 8) (* strip ".pushurl" *).

Definition remote_list_cb (entry : git_config_entry) (names : list string)
  : Z * list string :=
  (0, names ++ [listed_name entry]).

(** Modelled from the spec: [git_vector_uniq] of vector.c sorts the
    vector with its comparison, here [git__strcmp], and drops the
    duplicates. *)
Fixpoint uniq_insert (x : string) (l : list string) : list string :=
  match l with
  | [] => [x]
  | y :: rest =>
      if git__strcmp x y <? 0 then x :: y :: rest
      else if git__strcmp x y =? 0 then y :: rest
      else y :: uniq_insert x rest
  end.

Definition git_vector_uniq (l : list string) : list string :=
  fold_right uniq_insert [] l.

Definition git_remote_list (repo : git_repository) : Z * list string :=
  let '(error, names) :=
    multivar_foreach (List.filter (fun e => list_regexp_matches (ce_name e)) (cfg repo))
      remote_list_cb [] in
  if error <? 0 then (error, []) else (0, git_vector_uniq names).

(** In ascending order of [git__strcmp], hence without duplicates. *)
Fixpoint ascending (l : list string) : Prop :=
  match l with
  | [] => True
  | x :: rest => (forall y, y ∈ rest -> git__strcmp x y < 0) /\ ascending rest
  end.

Lemma strcmp_lt (a b : string) : git__strcmp a b < 0 <-> String.compare a b = Lt.
Proof.
  unfold git__strcmp. destruct (String.compare a b); split; intros H; try lia;
    try discriminate H; reflexivity.
Qed.

Lemma strcmp_trans (a b c : string) :
  git__strcmp a b < 0 -> git__strcmp b c < 0 -> git__strcmp a c < 0.
Proof.
  rewrite !strcmp_lt. intros H1 H2.
  apply OrderedTypeEx.String_as_OT.cmp_lt.
  apply OrderedTypeEx.String_as_OT.cmp_lt in H1, H2.
  exact (OrderedTypeEx.String_as_OT.lt_trans _ _ _ H1 H2).
Qed.

Lemma strcmp_flip (a b : string) :
  (git__strcmp a b <? 0) = false -> (git__strcmp a b =? 0) = false -> git__strcmp b a < 0.
Proof.
  unfold git__strcmp. rewrite (String.compare_antisym a b).
  destruct (String.compare b a); simpl; intros H1 H2; try discriminate; lia.
Qed.

Lemma strcmp_irrefl (a : string) : ~ git__strcmp a a < 0.
Proof.
  assert (H : git__strcmp a a = 0) by now apply git__strcmp_0. lia.
Qed.

Lemma uniq_insert_elem (x : string) (l : list string) (z : string) :
  z ∈ uniq_insert x l <-> z = x \/ z ∈ l.
Proof.
  induction l as [|y rest IH]; simpl.
  - rewrite list_elem_of_singleton, elem_of_nil. tauto.
  - destruct (git__strcmp x y <? 0); [rewrite !elem_of_cons; tauto|].
    destruct (git__strcmp x y =? 0) eqn:He.
    + apply Z.eqb_eq, git__strcmp_0 in He. subst y. rewrite elem_of_cons. tauto.
    + rewrite !elem_of_cons, IH. tauto.
Qed.

Lemma uniq_insert_ascending (x : string) (l : list string) :
  ascending l -> ascending (uniq_insert x l).
Proof.
  induction l as [|y rest IH]; simpl.
  - intros _. split; [|exact I]. intros z Hz. now apply elem_of_nil in Hz.
  - intros [Hy Hrest].
    destruct (git__strcmp x y <? 0) eqn:Hlt.
    + apply Z.ltb_lt in Hlt. simpl. split; [|split; assumption].
      intros z Hz. apply elem_of_cons in Hz as [->|Hz]; [exact Hlt|].
      exact (strcmp_trans _ _ _ Hlt (Hy z Hz)).
    + destruct (git__strcmp x y =? 0) eqn:He; [split; assumption|].
      simpl. split; [|now apply IH].
      intros z Hz. apply uniq_insert_elem in Hz as [->|Hz]; [|now apply Hy].
      now apply strcmp_flip.
Qed.

Lemma git_vector_uniq_spec (l : list string) :
  ascending (git_vector_uniq l) /\ forall z, z ∈ git_vector_uniq l <-> z ∈ l.
Proof.
  induction l as [|x rest [IHa IHe]]; simpl.
  - split; [exact I|reflexivity].
  - split; [now apply uniq_insert_ascending|].
    intros z. rewrite uniq_insert_elem, elem_of_cons, IHe. reflexivity.
Qed.

Lemma ascending_NoDup (l : list string) : ascending l -> NoDup l.
Proof.
  induction l as [|x rest IH]; simpl; [constructor|].
  intros [Hx Hrest]. constructor; [|now apply IH].
  intros Hin. exact (strcmp_irrefl x (Hx x Hin)).
Qed.

Lemma elem_of_bool_filter_cfg {A : Type} (f : A -> bool) (l : list A) (x : A) :
  x ∈ List.filter f l <-> x ∈ l /\ f x = true.
Proof.
  rewrite !list_elem_of_In. apply filter_In.
Qed.

Lemma key_set_elem (config : list git_config_entry) (key : string) :
  key_set config key = true <-> exists e, e ∈ config /\ ce_name e = key.
Proof.
  unfold key_set, entries_named. induction config as [|e rest IH]; simpl.
  - split; [discriminate|intros (e & He & _); now apply elem_of_nil in He].
  - destruct (String.eqb (ce_name e) key) eqn:Heq.
    + split; [intros _|reflexivity]. exists e. split; [apply list_elem_of_here|].
      now apply String.eqb_eq.
    + rewrite IH. split.
      * intros (x & Hx & Hk). exists x. split; [now apply list_elem_of_further|exact Hk].
      * intros (x & Hx & Hk). apply elem_of_cons in Hx as [->|Hx]; [|eauto].
        apply String.eqb_neq in Heq. congruence.
Qed.

Lemma listed_name_url (r : string) (v : string) :
  listed_name {| ce_name := CONFIG_URL_FMT r; ce_value := v |} = r.
Proof.
  unfold listed_name, CONFIG_URL_FMT. cbn [ce_name].
  rewrite (offset_app "remote." (r +:+ ".url")).
  rewrite strlen_app. change (strlen ".url") with 4%nat.
  change 4%N with (N.of_nat 4). rewrite size_sub_le by lia.
  rewrite Nat2N.id.
  replace (strlen r + 4 - 4)%nat with (strlen r) by lia.
  rewrite offset_app.
  assert (H : git__strcmp ".url" ".url" = 0) by now apply git__strcmp_0.
  rewrite H. change (0 =? 0) with true. cbv iota.
  unfold git__strndup. rewrite strlen_app. change (strlen ".url") with 4%nat.
  replace (N.to_nat _) with (strlen r) by lia.
  apply substring_app.
Qed.

Lemma listed_name_pushurl (r : string) (v : string) :
  listed_name {| ce_name := CONFIG_PUSHURL_FMT r; ce_value := v |} = r.
Proof.
  unfold listed_name, CONFIG_PUSHURL_FMT. cbn [ce_name].
  rewrite (offset_app "remote." (r +:+ ".pushurl")).
  rewrite strlen_app. change (strlen ".pushurl") with 8%nat.
  change 4%N with (N.of_nat 4). change 8%N with (N.of_nat 8).
  rewrite !size_sub_le by lia. rewrite !Nat2N.id.
  replace (r +:+ ".pushurl") with ((r +:+ ".pus") +:+ "hurl") at 1
    by (rewrite append_assoc; reflexivity).
  replace (strlen r + 8 - 4)%nat with (strlen (r +:+ ".pus"))
    by (rewrite strlen_app; change (strlen ".pus") with 4%nat; lia).
  rewrite offset_app.
  assert (H : (git__strcmp "hurl" ".url" =? 0) = false) by reflexivity.
  rewrite H. cbv iota.
  unfold git__strndup. rewrite strlen_app. change (strlen ".pushurl") with 8%nat.
  replace (N.to_nat _) with (strlen r) by lia.
  apply substring_app.
Qed.

Lemma list_regexp_shape (entry_name : string) :
  list_regexp_matches entry_name = true
  <-> exists r, entry_name = CONFIG_URL_FMT r \/ entry_name = CONFIG_PUSHURL_FMT r.
Proof.
  unfold list_regexp_matches, CONFIG_URL_FMT, CONFIG_PUSHURL_FMT. split.
  - intros H. apply andb_true_iff in H as [Hp H].
    apply orb_true_iff in H as [H|H]; apply andb_true_iff in H as [Hs Hl];
      apply Nat.leb_le in Hl;
      destruct (prefix_suffix_split _ _ _ Hp Hs Hl) as [r Hr]; exists r; auto.
  - intros [r [-> | ->]]; apply andb_true_iff; (split; [apply prefix_app|]);
      apply orb_true_iff; [left|right]; apply andb_true_iff; split.
    + replace ("remote." +:+ r +:+ ".url") with (("remote." +:+ r) +:+ ".url")
        by apply append_assoc.
      apply ends_with_app.
    + apply Nat.leb_le. rewrite !strlen_app. lia.
    + replace ("remote." +:+ r +:+ ".pushurl") with (("remote." +:+ r) +:+ ".pushurl")
        by apply append_assoc.
      apply ends_with_app.
    + apply Nat.leb_le. rewrite !strlen_app. lia.
Qed.

Lemma remote_list_loop (entries : list git_config_entry) :
  forall acc, multivar_foreach entries remote_list_cb acc
              = (0, acc ++ map listed_name entries).
Proof.
  induction entries as [|e rest IH]; intros acc; simpl.
  - now rewrite app_nil_r.
  - rewrite IH, <- app_assoc. reflexivity.
Qed.

(** [git_remote_list] succeeds and lists, in ascending order of
    [git__strcmp] and each once, exactly the names [n] for which
    [remote.<n>.url] or [remote.<n>.pushurl] is set: the remotes that
    exist for [git_remote_lookup].  For a valid name, being listed is the
    same as not being reported not-found by [git_remote_lookup]. *)
Theorem list_is_the_existing_remotes (repo : git_repository) :
  fst (git_remote_list repo) = 0
  /\ ascending (snd (git_remote_list repo))
  /\ NoDup (snd (git_remote_list repo))
  /\ (forall n, n ∈ snd (git_remote_list repo)
                <-> key_set (cfg repo) (CONFIG_URL_FMT n)
                    || key_set (cfg repo) (CONFIG_PUSHURL_FMT n) = true)
  /\ (forall n, git_remote_is_valid_name (Some n) = true ->
                (n ∈ snd (git_remote_list repo)
                 <-> fst (git_remote_lookup repo n) <> GIT_ENOTFOUND)).
Proof.
  unfold git_remote_list. rewrite remote_list_loop.
  change (0 <? 0) with false. cbv iota. simpl fst. simpl snd. simpl app.
  set (entries := List.filter (fun e => list_regexp_matches (ce_name e)) (cfg repo)).
  destruct (git_vector_uniq_spec (map listed_name entries)) as [Hasc Helem].
  assert (Hiff : forall n, n ∈ git_vector_uniq (map listed_name entries)
                   <-> key_set (cfg repo) (CONFIG_URL_FMT n)
                       || key_set (cfg repo) (CONFIG_PUSHURL_FMT n) = true).
  { intros n. rewrite Helem, orb_true_iff, !key_set_elem, list_elem_of_fmap. split.
    - intros (e & -> & He). apply elem_of_bool_filter_cfg in He as [He Hm].
      apply list_regexp_shape in Hm as [r [Hr|Hr]]; destruct e as [en ev];
        simpl in Hr; subst en.
      + left. rewrite listed_name_url. eauto.
      + right. rewrite listed_name_pushurl. eauto.
    - intros [(e & He & Hn)|(e & He & Hn)]; exists e; destruct e as [en ev];
        simpl in Hn; subst en.
      + split; [now rewrite listed_name_url|].
        apply elem_of_bool_filter_cfg. split; [exact He|].
        apply list_regexp_shape. eauto.
      + split; [now rewrite listed_name_pushurl|].
        apply elem_of_bool_filter_cfg. split; [exact He|].
        apply list_regexp_shape. eauto. }
  split; [reflexivity|]. split; [exact Hasc|].
  split; [now apply ascending_NoDup|]. split; [exact Hiff|].
  intros n Hvalid. rewrite Hiff.
  destruct (lookup_code repo n Hvalid) as [[Hno Hcode]|[Hset Hcode]].
  - rewrite Hno, Hcode. split; [discriminate|congruence].
  - rewrite Hset. split; [|reflexivity].
    intros _. destruct Hcode as [-> | ->]; discriminate.
Qed.

(** *** Renaming: the fetch refspecs ([rename_fetch_refspecs]) *)

(** The loop over the refspecs of the remote; [problems] and [error] are
    the vector and the local of that name. *)
Fixpoint rename_fetch_loop (base new_name : string) (specs : list git_refspec)
    (repo : git_repository) (problems : list string) (error : Z)
  : Z * list string * git_repository :=
  match specs with
  | [] => (error, problems, repo)
  | spec :: rest =>
      if rs_push spec then rename_fetch_loop base new_name rest repo problems error
      (* Does the dst part of the refspec follow the expected format? *)
      else if negb (git__strcmp base (rs_string spec) =? 0)
      then rename_fetch_loop base new_name rest repo (problems ++ [rs_string spec]) 0
      else
        (* If we do want to move it to the new section *)
        let val := default_fetchspec_for_name new_name in
        let var := CONFIG_FETCH_FMT new_name in
        let '(error, repo) := git_config_set_string repo var val in
        if error <? 0 then (error, problems, repo)
        else rename_fetch_loop base new_name rest repo problems error
  end.

(** [rename_fetch_refspecs]; the remote comes from [git_remote_lookup],
    which gave it its name.  On an error the problems are freed. *)
Definition rename_fetch_refspecs (remote : git_remote) (new_name : string)
    (repo : git_repository) : Z * list string * git_repository :=
  let base := default_fetchspec_for_name (default "" (name remote)) in
  let '(error, problems, repo) :=
    rename_fetch_loop base new_name (refspecs remote) repo [] 0 in
  if error <? 0 then (error, [], repo) else (error, problems, repo).

(** A fetch refspec that is the default one for [base]. *)
Definition is_default_fetch (base : string) (spec : git_refspec) : bool :=
  negb (rs_push spec) && String.eqb (rs_string spec) base.

(** A fetch refspec that is not. *)
Definition is_problem (base : string) (spec : git_refspec) : bool :=
  negb (rs_push spec) && negb (String.eqb (rs_string spec) base).

Lemma rename_fetch_loop_spec (base new_name : string) (specs : list git_refspec) :
  forall repo problems error e problems' repo',
    rename_fetch_loop base new_name specs repo problems error = (e, problems', repo') ->
    (e <? 0) = false ->
    problems' = problems ++ map rs_string (List.filter (is_problem base) specs)
    /\ (if existsb (is_default_fetch base) specs
        then git_config_get_string (cfg repo') (CONFIG_FETCH_FMT new_name)
             = (0, default_fetchspec_for_name new_name)
        else repo' = repo).
Proof.
  induction specs as [|spec rest IH]; intros repo problems error e problems' repo' H He;
    simpl in H.
  - injection H as <- <- <-. simpl. now rewrite app_nil_r.
  - unfold is_problem, is_default_fetch. simpl.
    destruct (rs_push spec); simpl; [exact (IH _ _ _ _ _ _ H He)|].
    destruct (git__strcmp base (rs_string spec) =? 0) eqn:Hcmp; simpl in H.
    + apply Z.eqb_eq, git__strcmp_0 in Hcmp. rewrite <- Hcmp, String.eqb_refl. simpl.
      destruct (git_config_set_string repo (CONFIG_FETCH_FMT new_name)
                  (default_fetchspec_for_name new_name)) as [e1 r1] eqn:Hset.
      destruct (e1 <? 0) eqn:He1.
      { injection H as <- <- <-. congruence. }
      destruct (IH _ _ _ _ _ _ H He) as [Hp Hc]. split; [exact Hp|].
      destruct (existsb _ rest); [exact Hc|]. subst repo'.
      exact (set_string_get _ _ _ _ _ Hset He1).
    + assert (Hne : String.eqb (rs_string spec) base = false).
      { apply String.eqb_neq. intros Heq. rewrite Heq in Hcmp.
        assert (H0 : git__strcmp base base = 0) by now apply git__strcmp_0.
        rewrite H0 in Hcmp. discriminate Hcmp. }
      rewrite Hne. simpl.
      destruct (IH _ _ _ _ _ _ H He) as [Hp Hc]. split; [|exact Hc].
      rewrite Hp, <- app_assoc. reflexivity.
Qed.

(** When [rename_fetch_refspecs] succeeds for a remote named [old], the
    problem refspecs it reports are exactly the strings of the fetch
    refspecs that differ from the default [+refs/heads/*:refs/remotes/old/*],
    in the order of the remote, and the push refspecs are never among
    them.  If a fetch refspec is that default, [remote.<new>.fetch] now
    reads as the default of the new name; if none is, the configuration
    is not touched. *)
Theorem rename_fetch_problems (remote : git_remote) (old new_name : string)
    (repo repo' : git_repository) (e : Z) (problems : list string) :
  name remote = Some old ->
  rename_fetch_refspecs remote new_name repo = (e, problems, repo') ->
  0 <= e ->
  problems
  = map rs_string
      (List.filter (is_problem (default_fetchspec_for_name old)) (refspecs remote))
  /\ (if existsb (is_default_fetch (default_fetchspec_for_name old)) (refspecs remote)
      then git_config_get_string (cfg repo') (CONFIG_FETCH_FMT new_name)
           = (0, default_fetchspec_for_name new_name)
      else repo' = repo).
Proof.
  intros Hname H He. unfold rename_fetch_refspecs in H. rewrite Hname in H. simpl default in H.
  destruct (rename_fetch_loop (default_fetchspec_for_name old) new_name (refspecs remote)
              repo [] 0) as [[e1 p1] r1] eqn:Hloop.
  destruct (e1 <? 0) eqn:He1.
  { injection H as <- _ _. apply Z.ltb_lt in He1. lia. }
  injection H as <- <- <-.
  exact (rename_fetch_loop_spec _ _ _ _ _ _ _ _ _ Hloop He1).
Qed.

End WithRefspecs.

(** A repository whose configuration cannot be written: the add is
    reported as a success and nothing was added. *)
Example add_fetch_on_locked_config :
  git_remote_add_fetch RefspecModel.git_refspec__parse
    {| cfg := [ {| ce_name := "remote.origin.url"; ce_value := "https://example.test/repo.git" |} ];
       cfg_write_error := -14 |}
    "origin" "+refs/heads/*:refs/remotes/origin/*"
  = (0, {| cfg := [ {| ce_name := "remote.origin.url";
                       ce_value := "https://example.test/repo.git" |} ];
           cfg_write_error := -14 |}).
Proof. reflexivity. Qed.

(** *** Concrete runs *)







(** Scenario S1 of the specification: the default fetch refspec. *)
Example create_S1 :
  snd (git_remote_create RefspecModel.git_refspec__parse RefspecModel.git_refspec__dwim_one
         {| cfg := []; cfg_write_error := 0 |} "origin" "https://example.test/repo.git")
  = Some {| cfg := [ {| ce_name := "remote.origin.url";
                        ce_value := "https://example.test/repo.git" |};
                     {| ce_name := "remote.origin.fetch";
                        ce_value := "+refs/heads/*:refs/remotes/origin/*" |} ];
            cfg_write_error := 0 |}.
Proof. reflexivity. Qed.

Definition origin_repository : git_repository :=
  {| cfg := [ {| ce_name := "remote.origin.url";
                 ce_value := "https://example.test/repo.git" |};
              {| ce_name := "remote.origin.fetch";
                 ce_value := "+refs/heads/*:refs/remotes/origin/*" |};
              {| ce_name := "remote.origin.push";
                 ce_value := "refs/heads/main:refs/heads/main" |};
              {| ce_name := "remote.origin.tagopt"; ce_value := "--no-tags" |};
              {| ce_name := "fetch.prune"; ce_value := "true" |} ];
     cfg_write_error := 0 |}.

Definition origin_heads : git_refspec :=
  {| rs_string := "+refs/heads/*:refs/remotes/origin/*";
     rs_src := "refs/heads/*"; rs_dst := Some "refs/remotes/origin/*";
     rs_force := true; rs_push := false; rs_pattern := true |}.

Definition origin_push_main : git_refspec :=
  {| rs_string := "refs/heads/main:refs/heads/main";
     rs_src := "refs/heads/main"; rs_dst := Some "refs/heads/main";
     rs_force := false; rs_push := true; rs_pattern := false |}.

(** A well-formed [remote.origin] section is found and hydrated. *)
Lemma lookup_found_iff_url_or_pushurl_witness :
  git_remote_lookup RefspecModel.git_refspec__parse RefspecModel.git_refspec__dwim_one
    origin_repository "origin"
  = (0, Some {| name := Some "origin"; url := Some "https://example.test/repo.git";
                pushurl := None; refspecs := [origin_heads; origin_push_main];
                active_refspecs := [origin_heads];
                download_tags := GIT_REMOTE_DOWNLOAD_TAGS_NONE; prune_refs := true;
                has_repo := true |}).
Proof.
  exact (proj2 (lookup_found_iff_url_or_pushurl
                  RefspecModel.git_refspec__parse RefspecModel.git_refspec__dwim_one
                  origin_repository "origin" eq_refl) eq_refl).
Defined.

(** A [remote.origin] section with a URL and a fetch value that is no
    refspec. *)
Definition broken_repository : git_repository :=
  {| cfg := [ {| ce_name := "remote.origin.url";
                 ce_value := "https://example.test/repo.git" |};
              {| ce_name := "remote.origin.fetch";
                 ce_value := "refs/heads/my branch" |} ];
     cfg_write_error := 0 |}.

(** C7, counterexample.  The URL of [origin] is set, yet the lookup fails
    (with -1), because a configured fetch refspec does not parse; and for
    the empty name neither key is set, yet the failure is invalid-spec,
    not not-found. *)
Lemma lookup_fails_with_url_set :
  git_remote_lookup RefspecModel.git_refspec__parse RefspecModel.git_refspec__dwim_one
    broken_repository "origin" = (-1, None)
  /\ git_remote_lookup RefspecModel.git_refspec__parse RefspecModel.git_refspec__dwim_one
       {| cfg := []; cfg_write_error := 0 |} "" = (GIT_EINVALIDSPEC, None)
  /\ ~ lookup_claim RefspecModel.git_refspec__parse RefspecModel.git_refspec__dwim_one.
Proof.
  split; [reflexivity|]. split; [reflexivity|].
  intros H. destruct (H broken_repository "origin") as [_ Hfound].
  destruct (Hfound eq_refl) as [remote Hr]. discriminate Hr.
Qed.

(** *** More runs *)

Lemma create_is_not_repeatable_witness :
  exists e, e < 0
    /\ git_remote_create RefspecModel.git_refspec__parse RefspecModel.git_refspec__dwim_one
         {| cfg := [ {| ce_name := "remote.origin.url";
                        ce_value := "https://example.test/repo.git" |};
                     {| ce_name := "remote.origin.fetch";
                        ce_value := "+refs/heads/*:refs/remotes/origin/*" |} ];
            cfg_write_error := 0 |}
         "origin" "https://example.test/other.git"
       = (e, None,
          Some {| cfg := [ {| ce_name := "remote.origin.url";
                              ce_value := "https://example.test/repo.git" |};
                           {| ce_name := "remote.origin.fetch";
                              ce_value := "+refs/heads/*:refs/remotes/origin/*" |} ];
                  cfg_write_error := 0 |}).
Proof.
  exact (create_is_not_repeatable
           RefspecModel.git_refspec__parse RefspecModel.git_refspec__dwim_one
           {| cfg := []; cfg_write_error := 0 |}
           {| cfg := [ {| ce_name := "remote.origin.url";
                          ce_value := "https://example.test/repo.git" |};
                       {| ce_name := "remote.origin.fetch";
                          ce_value := "+refs/heads/*:refs/remotes/origin/*" |} ];
              cfg_write_error := 0 |}
           "origin" "https://example.test/repo.git" "https://example.test/other.git"
           {| name := Some "origin"; url := Some "https://example.test/repo.git";
              pushurl := None; refspecs := [origin_heads];
              active_refspecs := [origin_heads];
              download_tags := GIT_REMOTE_DOWNLOAD_TAGS_AUTO; prune_refs := false;
              has_repo := true |}
           eq_refl).
Defined.

Lemma create_with_bad_fetchspec_leaves_url_witness :
  git_remote_create_with_fetchspec
    RefspecModel.git_refspec__parse RefspecModel.git_refspec__dwim_one
    {| cfg := []; cfg_write_error := 0 |}
    "origin" "https://example.test/repo.git" "refs/heads/my branch"
  = (-1, None,
     Some {| cfg := [ {| ce_name := "remote.origin.url";
                         ce_value := "https://example.test/repo.git" |} ];
             cfg_write_error := 0 |}).
Proof.
  exact (create_with_bad_fetchspec_leaves_url
           RefspecModel.git_refspec__parse RefspecModel.git_refspec__dwim_one
           {| cfg := []; cfg_write_error := 0 |}
           "origin" "https://example.test/repo.git" "refs/heads/my branch"
           eq_refl eq_refl eq_refl ltac:(discriminate) eq_refl).
Defined.

Lemma model_parser_keeps_string : parser_keeps_string RefspecModel.git_refspec__parse.
Proof.
  intros str is_fetch spec. unfold RefspecModel.git_refspec__parse.
  destruct (RefspecModel.split_colon _) as [src dst].
  destruct (_ && _); [|discriminate].
  intros H. injection H as <-. reflexivity.
Qed.

Lemma lookup_refspec_strings_witness :
  git_remote_get_fetch_refspecs
    {| name := Some "origin"; url := Some "https://example.test/repo.git";
       pushurl := None; refspecs := [origin_heads; origin_push_main];
       active_refspecs := [origin_heads];
       download_tags := GIT_REMOTE_DOWNLOAD_TAGS_NONE; prune_refs := true;
       has_repo := true |}
  = map ce_value (entries_named (cfg origin_repository) (CONFIG_FETCH_FMT "origin"))
  /\ git_remote_get_push_refspecs
       {| name := Some "origin"; url := Some "https://example.test/repo.git";
          pushurl := None; refspecs := [origin_heads; origin_push_main];
          active_refspecs := [origin_heads];
          download_tags := GIT_REMOTE_DOWNLOAD_TAGS_NONE; prune_refs := true;
          has_repo := true |}
     = map ce_value (entries_named (cfg origin_repository) (CONFIG_PUSH_FMT "origin"))
  /\ git_remote_refspec_count
       {| name := Some "origin"; url := Some "https://example.test/repo.git";
          pushurl := None; refspecs := [origin_heads; origin_push_main];
          active_refspecs := [origin_heads];
          download_tags := GIT_REMOTE_DOWNLOAD_TAGS_NONE; prune_refs := true;
          has_repo := true |}
     = (length (entries_named (cfg origin_repository) (CONFIG_FETCH_FMT "origin"))
        + length (entries_named (cfg origin_repository) (CONFIG_PUSH_FMT "origin")))%nat.
Proof.
  exact (lookup_refspec_strings
           RefspecModel.git_refspec__parse RefspecModel.git_refspec__dwim_one
           origin_repository "origin" _ model_parser_keeps_string eq_refl).
Defined.

Lemma dup_of_lookup_witness :
  git_remote_dup RefspecModel.git_refspec__parse
    {| name := Some "origin"; url := Some "https://example.test/repo.git";
       pushurl := None; refspecs := [origin_heads; origin_push_main];
       active_refspecs := [origin_heads];
       download_tags := GIT_REMOTE_DOWNLOAD_TAGS_NONE; prune_refs := true;
       has_repo := true |}
  = (0, Some {| name := Some "origin"; url := Some "https://example.test/repo.git";
                pushurl := None; refspecs := [origin_heads; origin_push_main];
                active_refspecs := [];
                download_tags := GIT_REMOTE_DOWNLOAD_TAGS_NONE; prune_refs := true;
                has_repo := true |}).
Proof.
  exact (dup_of_lookup
           RefspecModel.git_refspec__parse RefspecModel.git_refspec__dwim_one
           origin_repository "origin" _ model_parser_keeps_string eq_refl).
Defined.

Definition with_url : git_repository :=
  {| cfg := [ {| ce_name := "remote.origin.url";
                 ce_value := "https://example.test/repo.git" |} ];
     cfg_write_error := 0 |}.

Lemma set_url_then_lookup_witness :
  (0 < 0 -> with_url = {| cfg := []; cfg_write_error := 0 |})
  /\ (0 = 0 ->
      strlen "https://example.test/repo.git" <> 0%nat
      /\ forall remote,
           git_remote_lookup RefspecModel.git_refspec__parse
             RefspecModel.git_refspec__dwim_one with_url "origin" = (0, Some remote) ->
           url remote
           = Some (Insteadof.apply_insteadof (cfg with_url)
                     "https://example.test/repo.git" GIT_DIRECTION_FETCH)).
Proof.
  exact (set_url_then_lookup
           RefspecModel.git_refspec__parse RefspecModel.git_refspec__dwim_one
           false {| cfg := []; cfg_write_error := 0 |} with_url "origin"
           (Some "https://example.test/repo.git") 0 eq_refl).
Defined.


(** Two remotes, one of them known by its push URL only and one key
    twice: each name is listed once, in order. *)
Example list_S :
  git_remote_list
    {| cfg := [ {| ce_name := "remote.upstream.pushurl"; ce_value := "u" |};
                {| ce_name := "remote.origin.url"; ce_value := "a" |};
                {| ce_name := "remote.origin.pushurl"; ce_value := "b" |};
                {| ce_name := "remote.origin.fetch"; ce_value := "c" |};
                {| ce_name := "branch.main.remote"; ce_value := "origin" |} ];
       cfg_write_error := 0 |}
  = (0, ["origin"; "upstream"]).
Proof. reflexivity. Qed.

(** A remote with the default refspec, one for notes and a push refspec,
    renamed to [upstream]; the section of the configuration, already
    moved, holds the default refspec. *)
Definition notes_spec : git_refspec :=
  {| rs_string := "+refs/notes/*:refs/notes/origin/*"; rs_src := "refs/notes/*";
     rs_dst := Some "refs/notes/origin/*"; rs_force := true; rs_push := false;
     rs_pattern := true |}.

Definition renamed_section : git_repository :=
  {| cfg := [ {| ce_name := "remote.upstream.url"; ce_value := "https://example.test/repo.git" |};
              {| ce_name := "remote.upstream.fetch";
                 ce_value := "+refs/heads/*:refs/remotes/origin/*" |} ];
     cfg_write_error := 0 |}.

Lemma rename_fetch_problems_witness :
  ["+refs/notes/*:refs/notes/origin/*"]
  = map rs_string
      (List.filter (is_problem (default_fetchspec_for_name "origin"))
         [origin_heads; notes_spec; origin_push_main])
  /\ git_config_get_string
       [ {| ce_name := "remote.upstream.url"; ce_value := "https://example.test/repo.git" |};
         {| ce_name := "remote.upstream.fetch";
            ce_value := "+refs/heads/*:refs/remotes/upstream/*" |} ]
       (CONFIG_FETCH_FMT "upstream")
     = (0, default_fetchspec_for_name "upstream").
Proof.
  exact (rename_fetch_problems
           {| name := Some "origin"; url := Some "https://example.test/repo.git";
              pushurl := None; refspecs := [origin_heads; notes_spec; origin_push_main];
              active_refspecs := [origin_heads; notes_spec];
              download_tags := GIT_REMOTE_DOWNLOAD_TAGS_AUTO; prune_refs := false;
              has_repo := true |}
           "origin" "upstream" renamed_section
           {| cfg := [ {| ce_name := "remote.upstream.url";
                          ce_value := "https://example.test/repo.git" |};
                       {| ce_name := "remote.upstream.fetch";
                          ce_value := "+refs/heads/*:refs/remotes/upstream/*" |} ];
              cfg_write_error := 0 |}
           0 ["+refs/notes/*:refs/notes/origin/*"]
           eq_refl eq_refl ltac:(lia)).
Defined.

(** *** The branches that track a remote *)

(** [strchr]: where the character first occurs; [None] stands for NULL. *)
Fixpoint strchr (s : string) (c : ascii) : option nat :=
  match s with
  | EmptyString => None
  | String d rest => if Ascii.eqb d c then Some 0%nat else S <$> strchr rest c
  end.

(** [name_offset]: the start of the branch name in the name of an entry
    and the length [len_out] up to the next dot ([None]: the assertion
    fails). *)
Definition name_offset (name_ : string) : option (nat * string) :=
  let prefix_len := strlen "remote." in
  match strchr (offset name_ prefix_len) "." with
  | None => None
  | Some dot => Some (dot, offset name_ prefix_len)
  end.

(** Whether [pat] occurs in [s]. *)
Fixpoint occurs (pat s : string) : bool :=
  String.prefix pat s
  || match s with
     | EmptyString => false
     | String _ rest => occurs pat rest
     end.

(** Modelled from the spec: the glob iterator and
    [git_config_foreach_match] of config.c search the names of the
    entries for the regular expression.  ["branch\..+\.remote"] has no
    anchors: a name matches when it holds ["branch."], at least one more
    character, and later [".remote"]. *)
Fixpoint branch_regexp_matches (entry_name : string) : bool :=
  (String.prefix "branch." entry_name && occurs ".remote" (offset entry_name 8))
  || match entry_name with
     | EmptyString => false
     | String _ rest => branch_regexp_matches rest
     end.

(** The loop of [remove_branch_config_related_entries] over the entries
    the iterator took when it was made; a not-found of either delete is
    let pass, and the end of the iteration is a success. *)
Fixpoint remove_branch_loop (remote_name : string) (entries : list git_config_entry)
    (repo : git_repository) : option (Z * git_repository) :=
  match entries with
  | [] => Some (0, repo)
  | entry :: rest =>
      if negb (git__strcmp remote_name (ce_value entry) =? 0)
      then remove_branch_loop remote_name rest repo
      else
        match name_offset (ce_name entry) with
        | None => None
        | Some (branch_len, branch) =>
            let buf := "branch." +:+ String.substring 0 branch_len branch +:+ ".merge" in
            let '(error, repo) := git_config_delete_entry repo buf in
            if (error <? 0) && negb (error =? GIT_ENOTFOUND) then Some (error, repo)
            else
              let buf := "branch." +:+ String.substring 0 branch_len branch +:+ ".remote" in
              let '(error, repo) := git_config_delete_entry repo buf in
              if (error <? 0) && negb (error =? GIT_ENOTFOUND) then Some (error, repo)
              else remove_branch_loop remote_name rest repo
        end
  end.

Definition remove_branch_config_related_entries (repo : git_repository)
    (remote_name : string) : option (Z * git_repository) :=
  remove_branch_loop remote_name
    (List.filter (fun e => branch_regexp_matches (ce_name e)) (cfg repo)) repo.

(** [update_config_entries_cb] and [update_branch_remote_config_entry]:
    [git_config_foreach_match] stops at the first callback that does not
    return 0, with what it returned. *)
Definition update_config_entries_cb (old_remote_name new_remote_name : string)
    (entry : git_config_entry) (repo : git_repository) : Z * git_repository :=
  if negb (git__strcmp (ce_value entry) old_remote_name =? 0) then (0, repo)
  else git_config_set_string repo (ce_name entry) new_remote_name.

Fixpoint foreach_match (entries : list git_config_entry)
    (cb : git_config_entry -> git_repository -> Z * git_repository)
    (repo : git_repository) : Z * git_repository :=
  match entries with
  | [] => (0, repo)
  | entry :: rest =>
      let '(error, repo) := cb entry repo in
      if negb (error =? 0) then (error, repo) else foreach_match rest cb repo
  end.

Definition update_branch_remote_config_entry (repo : git_repository)
    (old_name new_name : string) : Z * git_repository :=
  foreach_match (List.filter (fun e => branch_regexp_matches (ce_name e)) (cfg repo))
    (update_config_entries_cb old_name new_name) repo.

(** The branch an entry is taken to be about: what follows the first
    seven characters of its name, up to the next dot. *)
Definition branch_of (entry_name : string) : string :=
  let rest := offset entry_name 7 in
  match strchr rest "." with
  | Some dot => String.substring 0 dot rest
  | None => rest
  end.

(** An entry that says a branch tracks [remote_name]. *)
Definition tracks (remote_name : string) (e : git_config_entry) : bool :=
  branch_regexp_matches (ce_name e) && String.eqb (ce_value e) remote_name.

(** The keys the removal asks the configuration to delete, in order. *)
Definition removed_keys (config : list git_config_entry) (remote_name : string)
  : list string :=
  flat_map (fun e => [ "branch." +:+ branch_of (ce_name e) +:+ ".merge";
                       "branch." +:+ branch_of (ce_name e) +:+ ".remote" ])
    (List.filter (tracks remote_name) config).

(** The configuration without the entries of some keys. *)
Definition without (keys : list string) (config : list git_config_entry)
  : list git_config_entry :=
  List.filter (fun e => negb (existsb (String.eqb (ce_name e)) keys)) config.

Definition no_dot (s : string) : Prop := strchr s "." = None.

Lemma strchr_app_dot (p rest : string) :
  no_dot p -> strchr (p +:+ "." +:+ rest) "." = Some (strlen p).
Proof.
  unfold no_dot. induction p as [|c p IH]; intros Hp; [reflexivity|].
  cbn [strchr] in Hp. rewrite app_cons. cbn [strchr].
  destruct (Ascii.eqb c "."); [discriminate Hp|].
  destruct (strchr p ".") eqn:Hs; [discriminate Hp|].
  rewrite IH by reflexivity. reflexivity.
Qed.

Lemma branch_of_cut (pre p rest : string) :
  strlen pre = 7%nat -> no_dot p ->
  branch_of (pre +:+ p +:+ "." +:+ rest) = p.
Proof.
  intros Hpre Hp. unfold branch_of. rewrite <- Hpre, offset_app.
  rewrite strchr_app_dot by exact Hp. apply substring_app.
Qed.

Lemma strchr_later (s : string) (c : ascii) (n : nat) :
  is_Some (strchr (offset s (S n)) c) -> is_Some (strchr (offset s n) c).
Proof.
  replace (S n) with (n + 1)%nat by lia. rewrite <- offset_add.
  destruct (offset s n) as [|d t]; simpl; [auto|].
  rewrite offset_0. intros [k Hk]. destruct (Ascii.eqb d c); [eauto|].
  rewrite Hk. simpl. eauto.
Qed.

Lemma occurs_dot (t : string) :
  occurs ".remote" t = true -> is_Some (strchr t ".").
Proof.
  induction t as [|d t IH]; [discriminate|].
  cbn [occurs]. intros [H|H]%orb_true_iff.
  - apply prefix_split in H. rewrite app_cons in H. injection H as -> _.
    cbn [strchr]. rewrite Ascii.eqb_refl. eauto.
  - cbn [strchr]. destruct (Ascii.eqb d "."); [eauto|].
    destruct (IH H) as [k Hk]. rewrite Hk. simpl. eauto.
Qed.

(** A name the iterator yields has a dot for [name_offset] to find. *)
Lemma matched_name_has_dot (entry_name : string) :
  branch_regexp_matches entry_name = true ->
  is_Some (strchr (offset entry_name 7) ".").
Proof.
  induction entry_name as [|c s IH]; [discriminate|].
  cbn [branch_regexp_matches]. intros [H|H]%orb_true_iff.
  - apply andb_true_iff in H as [_ H]. apply strchr_later, occurs_dot, H.
  - specialize (IH H). change (offset (String c s) 7) with (offset s 6).
    now apply strchr_later.
Qed.

Lemma without_nil (config : list git_config_entry) : without [] config = config.
Proof.
  unfold without. induction config as [|e rest IH]; simpl in *; [reflexivity|].
  now f_equal.
Qed.

Lemma without_snoc (keys : list string) (key : string) (config : list git_config_entry) :
  List.filter (fun e => negb (String.eqb (ce_name e) key)) (without keys config)
  = without (keys ++ [key]) config.
Proof.
  unfold without. induction config as [|e rest IH]; simpl; [reflexivity|].
  rewrite existsb_app. simpl. rewrite orb_false_r.
  destruct (existsb (String.eqb (ce_name e)) keys); simpl; [exact IH|].
  destruct (String.eqb (ce_name e) key); simpl; [exact IH|]. now rewrite IH.
Qed.

Lemma without_app (a b : list string) (config : list git_config_entry) :
  without b (without a config) = without (a ++ b) config.
Proof.
  unfold without. induction config as [|e rest IH]; simpl; [reflexivity|].
  rewrite existsb_app.
  destruct (existsb (String.eqb (ce_name e)) a); simpl; [exact IH|].
  destruct (existsb (String.eqb (ce_name e)) b); simpl; [exact IH|]. now rewrite IH.
Qed.

Lemma filter_absent (config : list git_config_entry) (key : string) :
  entries_named config key = [] ->
  List.filter (fun e => negb (String.eqb (ce_name e) key)) config = config.
Proof.
  unfold entries_named. induction config as [|e rest IH]; simpl; [reflexivity|].
  destruct (String.eqb (ce_name e) key); simpl; [discriminate|].
  intros H. now rewrite IH.
Qed.

(** One delete of the loop: it goes through, or there was nothing to
    delete, or it fails for good. *)
Lemma delete_entry_step (r : git_repository) (key : string) :
  cfg_write_error r <> GIT_ENOTFOUND ->
  let e := fst (git_config_delete_entry r key) in
  let r' := snd (git_config_delete_entry r key) in
  cfg_write_error r' = cfg_write_error r
  /\ e <= 0
  /\ (((e <? 0) && negb (e =? GIT_ENOTFOUND) = false
       /\ cfg r' = List.filter (fun x => negb (String.eqb (ce_name x) key)) (cfg r))
      \/ ((e <? 0) && negb (e =? GIT_ENOTFOUND) = true
          /\ (cfg_write_error r < 0 \/ (1 < length (entries_named (cfg r) key))%nat))).
Proof.
  intros Hw. unfold git_config_delete_entry.
  destruct (entries_named (cfg r) key) as [|x [|y l]] eqn:Hn; simpl.
  - split; [reflexivity|]. split; [unfold GIT_ENOTFOUND; lia|]. left.
    split; [reflexivity|]. symmetry. now apply filter_absent.
  - destruct (cfg_write_error r <? 0) eqn:Hlt; simpl.
    + apply Z.ltb_lt in Hlt. split; [reflexivity|]. split; [lia|]. right.
      split; [|left; exact Hlt].
      apply andb_true_iff. split; [now apply Z.ltb_lt|].
      apply negb_true_iff. now apply Z.eqb_neq.
    + split; [reflexivity|]. split; [lia|]. left. split; reflexivity.
  - split; [reflexivity|]. split; [lia|]. right. split; [reflexivity|]. right. lia.
Qed.

Lemma entries_named_without (keys : list string) (config : list git_config_entry)
    (key : string) :
  (length (entries_named (without keys config) key)
   <= length (entries_named config key))%nat.
Proof.
  unfold entries_named, without. induction config as [|e rest IH]; simpl; [lia|].
  destruct (existsb (String.eqb (ce_name e)) keys); simpl.
  - destruct (String.eqb (ce_name e) key); simpl; lia.
  - destruct (String.eqb (ce_name e) key); simpl; lia.
Qed.

(** The keys the loop asks for, for the entries it is given. *)
Definition keys_of (remote_name : string) (entries : list git_config_entry)
  : list string :=
  flat_map (fun e => [ "branch." +:+ branch_of (ce_name e) +:+ ".merge";
                       "branch." +:+ branch_of (ce_name e) +:+ ".remote" ])
    (List.filter (fun e => String.eqb (ce_value e) remote_name) entries).

Lemma strcmp_test (a b : string) : (git__strcmp a b =? 0) = String.eqb b a.
Proof.
  destruct (String.eqb_spec b a) as [->|Hne].
  - apply Z.eqb_eq. now apply git__strcmp_0.
  - apply Z.eqb_neq. intros H. apply git__strcmp_0 in H. congruence.
Qed.

Lemma remove_branch_loop_spec (remote_name : string) (config : list git_config_entry)
    (entries : list git_config_entry) :
  forall (r : git_repository) (keys : list string),
    Forall (fun e => branch_regexp_matches (ce_name e) = true) entries ->
    cfg_write_error r <> GIT_ENOTFOUND ->
    cfg r = without keys config ->
    exists e r',
      remove_branch_loop remote_name entries r = Some (e, r')
      /\ cfg_write_error r' = cfg_write_error r
      /\ e <= 0
      /\ (e = 0 -> cfg r' = without (keys ++ keys_of remote_name entries) config)
      /\ (e < 0 ->
          cfg_write_error r < 0
          \/ exists key, key ∈ keys_of remote_name entries
                         /\ (1 < length (entries_named config key))%nat).
Proof.
  induction entries as [|entry rest IH]; intros r keys Hall Hw Hcfg.
  - exists 0, r. simpl. rewrite app_nil_r. repeat split; auto; lia.
  - apply Forall_cons in Hall as [Hentry Hall].
    cbn [remove_branch_loop]. unfold keys_of. cbn [List.filter].
    rewrite strcmp_test.
    destruct (String.eqb (ce_value entry) remote_name) eqn:Hval; cbn [negb].
    2:{ exact (IH r keys Hall Hw Hcfg). }
    destruct (matched_name_has_dot _ Hentry) as [dot Hdot].
    unfold name_offset. change (strlen "remote.") with 7%nat. rewrite Hdot.
    cbn [flat_map]. fold (keys_of remote_name rest).
    assert (Hbranch : String.substring 0 dot (offset (ce_name entry) 7)
                      = branch_of (ce_name entry)).
    { unfold branch_of. now rewrite Hdot. }
    rewrite Hbranch.
    set (merge_key := "branch." +:+ branch_of (ce_name entry) +:+ ".merge").
    set (remote_key := "branch." +:+ branch_of (ce_name entry) +:+ ".remote").
    destruct (delete_entry_step r merge_key Hw) as (Hw1 & Hle1 & Hstep1).
    destruct (git_config_delete_entry r merge_key) as [e1 r1]. simpl in Hw1, Hle1, Hstep1.
    destruct Hstep1 as [[Hgo1 Hcfg1]|[Hstop1 Hwhy1]].
    2:{ rewrite Hstop1. exists e1, r1.
        apply andb_true_iff in Hstop1 as [Hneg1%Z.ltb_lt _].
        split; [reflexivity|]. split; [exact Hw1|]. split; [lia|].
        split; [lia|]. intros _.
        destruct Hwhy1 as [Hwr|Hmulti]; [left; exact Hwr|right].
        exists merge_key. split; [apply list_elem_of_here|].
        pose proof (entries_named_without keys config merge_key) as Hsub.
        rewrite Hcfg in Hmulti. lia. }
    rewrite Hgo1.
    assert (Hw1' : cfg_write_error r1 <> GIT_ENOTFOUND) by now rewrite Hw1.
    destruct (delete_entry_step r1 remote_key Hw1') as (Hw2 & Hle2 & Hstep2).
    destruct (git_config_delete_entry r1 remote_key) as [e2 r2].
    simpl in Hw2, Hle2, Hstep2.
    assert (Hcfg1' : cfg r1 = without (keys ++ [merge_key]) config).
    { rewrite Hcfg1, Hcfg. apply without_snoc. }
    destruct Hstep2 as [[Hgo2 Hcfg2]|[Hstop2 Hwhy2]].
    2:{ rewrite Hstop2. exists e2, r2.
        apply andb_true_iff in Hstop2 as [Hneg2%Z.ltb_lt _].
        split; [reflexivity|]. split; [congruence|]. split; [lia|].
        split; [lia|]. intros _.
        destruct Hwhy2 as [Hwr|Hmulti]; [left; lia|right].
        exists remote_key. split; [apply list_elem_of_further, list_elem_of_here|].
        pose proof (entries_named_without (keys ++ [merge_key]) config remote_key) as Hsub.
        rewrite Hcfg1' in Hmulti. lia. }
    rewrite Hgo2.
    assert (Hw2' : cfg_write_error r2 <> GIT_ENOTFOUND) by congruence.
    assert (Hcfg2' : cfg r2 = without ((keys ++ [merge_key]) ++ [remote_key]) config).
    { rewrite Hcfg2, Hcfg1'. apply without_snoc. }
    destruct (IH r2 _ Hall Hw2' Hcfg2') as (e & r' & Hrun & Hw' & Hle & Hok & Hfail).
    exists e, r'. split; [exact Hrun|]. split; [congruence|]. split; [exact Hle|]. split.
    + intros He. rewrite (Hok He). f_equal. rewrite <- !app_assoc. reflexivity.
    + intros He. destruct (Hfail He) as [Hwr|[key [Hkey Hmulti]]]; [left; lia|right].
      exists key. split; [|exact Hmulti].
      now apply list_elem_of_further, list_elem_of_further.
Qed.

Lemma filter_filter_tracks (remote_name : string) (config : list git_config_entry) :
  List.filter (fun e => String.eqb (ce_value e) remote_name)
    (List.filter (fun e => branch_regexp_matches (ce_name e)) config)
  = List.filter (tracks remote_name) config.
Proof.
  unfold tracks. induction config as [|e rest IH]; simpl; [reflexivity|].
  destruct (branch_regexp_matches (ce_name e)); simpl; [|exact IH].
  destruct (String.eqb (ce_value e) remote_name); [now rewrite IH|exact IH].
Qed.

(** Removing the branch entries of a remote.  When the backend's write
    error is not the not-found code, [remove_branch_config_related_entries]
    always returns (the assertion of [name_offset] holds for every name
    the iterator yields) with a code that is 0 or negative.  On success
    the configuration is the old one, in its order, without the entries
    of the keys [branch.<b>.merge] and [branch.<b>.remote] for each entry
    that matches the expression and whose value is the remote's name;
    [<b>] is what follows the first seven characters of that entry's
    name up to the NEXT dot, so for a name [branch.<p>.<q>.remote] it is
    [<p>], not [<p>.<q>].  It fails only if the backend refuses writes or
    one of these keys is a multivar. *)
Theorem remove_branch_config_cuts_at_dot (repo : git_repository) (remote_name : string) :
  cfg_write_error repo <> GIT_ENOTFOUND ->
  exists e repo',
    remove_branch_config_related_entries repo remote_name = Some (e, repo')
    /\ cfg_write_error repo' = cfg_write_error repo
    /\ e <= 0
    /\ (e = 0 -> cfg repo' = without (removed_keys (cfg repo) remote_name) (cfg repo))
    /\ (e < 0 ->
        cfg_write_error repo < 0
        \/ exists key, key ∈ removed_keys (cfg repo) remote_name
                       /\ (1 < length (entries_named (cfg repo) key))%nat)
    /\ (forall key,
          key ∈ removed_keys (cfg repo) remote_name <->
          exists entry,
            entry ∈ cfg repo
            /\ branch_regexp_matches (ce_name entry) = true
            /\ ce_value entry = remote_name
            /\ (key = "branch." +:+ branch_of (ce_name entry) +:+ ".merge"
                \/ key = "branch." +:+ branch_of (ce_name entry) +:+ ".remote"))
    /\ (forall pre p rest,
          strlen pre = 7%nat -> no_dot p ->
          branch_of (pre +:+ p +:+ "." +:+ rest) = p).
Proof.
  intros Hw. unfold remove_branch_config_related_entries.
  destruct (remove_branch_loop_spec remote_name (cfg repo)
              (List.filter (fun e => branch_regexp_matches (ce_name e)) (cfg repo))
              repo [])
    as (e & repo' & Hrun & Hw' & Hle & Hok & Hfail).
  { apply Forall_forall. intros x Hx. apply list_elem_of_In, filter_In in Hx. tauto. }
  { exact Hw. }
  { symmetry. apply without_nil. }
  unfold keys_of in Hok, Hfail. rewrite filter_filter_tracks in Hok, Hfail.
  exists e, repo'. split; [exact Hrun|]. split; [exact Hw'|]. split; [exact Hle|].
  split; [exact Hok|]. split; [exact Hfail|]. split.
  - intros key. unfold removed_keys. rewrite list_elem_of_In, in_flat_map. split.
    + intros (entry & Hin & Hkey). apply filter_In in Hin as [Hin Ht].
      unfold tracks in Ht. apply andb_true_iff in Ht as [Hm Hv%String.eqb_eq].
      exists entry. split; [now apply list_elem_of_In|]. split; [exact Hm|].
      split; [exact Hv|]. simpl in Hkey. destruct Hkey as [<-|[<-|[]]]; auto.
    + intros (entry & Hin & Hm & Hv & Hkey). exists entry. split.
      * apply filter_In. split; [now apply list_elem_of_In|].
        unfold tracks. rewrite Hm, Hv, String.eqb_refl. reflexivity.
      * simpl. destruct Hkey as [->| ->]; auto.
  - exact branch_of_cut.
Qed.

(** A branch with a dot in its name: [feature.x] tracks [origin], and
    [feature] tracks [upstream]. *)
Definition dotted_repo : git_repository :=
  {| cfg := [ {| ce_name := "branch.feature.remote"; ce_value := "upstream" |};
              {| ce_name := "branch.feature.merge"; ce_value := "refs/heads/feature" |};
              {| ce_name := "branch.feature.x.remote"; ce_value := "origin" |};
              {| ce_name := "branch.feature.x.merge"; ce_value := "refs/heads/feature.x" |};
              {| ce_name := "remote.origin.url"; ce_value := "https://example.test/o.git" |} ];
     cfg_write_error := 0 |}.

(** Removing the branch entries of [origin] there: the entries of
    [feature], which tracks another remote, are gone, and those of
    [feature.x] are still in place. *)
Example remove_branch_config_dotted :
  remove_branch_config_related_entries dotted_repo "origin"
  = Some (0,
      {| cfg := [ {| ce_name := "branch.feature.x.remote"; ce_value := "origin" |};
                  {| ce_name := "branch.feature.x.merge";
                     ce_value := "refs/heads/feature.x" |};
                  {| ce_name := "remote.origin.url";
                     ce_value := "https://example.test/o.git" |} ];
         cfg_write_error := 0 |}).
Proof. reflexivity. Qed.

Lemma remove_branch_config_cuts_at_dot_witness :
  exists e repo',
    remove_branch_config_related_entries dotted_repo "origin" = Some (e, repo')
    /\ cfg_write_error repo' = cfg_write_error dotted_repo
    /\ e <= 0
    /\ (e = 0 -> cfg repo' = without (removed_keys (cfg dotted_repo) "origin")
                               (cfg dotted_repo))
    /\ (e < 0 ->
        cfg_write_error dotted_repo < 0
        \/ exists key, key ∈ removed_keys (cfg dotted_repo) "origin"
                       /\ (1 < length (entries_named (cfg dotted_repo) key))%nat)
    /\ (forall key,
          key ∈ removed_keys (cfg dotted_repo) "origin" <->
          exists entry,
            entry ∈ cfg dotted_repo
            /\ branch_regexp_matches (ce_name entry) = true
            /\ ce_value entry = "origin"
            /\ (key = "branch." +:+ branch_of (ce_name entry) +:+ ".merge"
                \/ key = "branch." +:+ branch_of (ce_name entry) +:+ ".remote"))
    /\ (forall pre p rest,
          strlen pre = 7%nat -> no_dot p ->
          branch_of (pre +:+ p +:+ "." +:+ rest) = p).
Proof.
  apply (remove_branch_config_cuts_at_dot dotted_repo "origin"). discriminate.
Defined.

(** *** Renaming: the branches that track the old name *)

(** What the rename makes of an entry: one that says a branch tracks the
    old name says the new name, every other entry is as it was. *)
Definition retarget (old_name new_name : string) (e : git_config_entry)
  : git_config_entry :=
  if tracks old_name e then {| ce_name := ce_name e; ce_value := new_name |} else e.

(** The entries of the keys [done] with the new value. *)
Definition mark (new_name : string) (done : list string) (e : git_config_entry)
  : git_config_entry :=
  if existsb (String.eqb (ce_name e)) done
  then {| ce_name := ce_name e; ce_value := new_name |}
  else e.

Lemma mark_name (new_name : string) (done : list string) (e : git_config_entry) :
  ce_name (mark new_name done e) = ce_name e.
Proof. unfold mark. now destruct (existsb _ done). Qed.

Lemma entries_named_map (f : git_config_entry -> git_config_entry)
    (config : list git_config_entry) (key : string) :
  (forall e, ce_name (f e) = ce_name e) ->
  entries_named (map f config) key = map f (entries_named config key).
Proof.
  intros Hf. unfold entries_named. induction config as [|e rest IH]; simpl; [reflexivity|].
  rewrite Hf. destruct (String.eqb (ce_name e) key); simpl; now rewrite IH.
Qed.

Lemma replace_value_absent (config : list git_config_entry) (key value : string) :
  entries_named config key = [] -> replace_value config key value = config.
Proof.
  unfold entries_named. induction config as [|e rest IH]; simpl; [reflexivity|].
  destruct (String.eqb (ce_name e) key); simpl; [discriminate|].
  intros H. now rewrite IH.
Qed.

(** On a key that is set once, [replace_value] changes the entries of
    that key, all one of them. *)
Lemma replace_value_single (config : list git_config_entry) (key value : string) :
  length (entries_named config key) = 1%nat ->
  replace_value config key value
  = map (fun e => if String.eqb (ce_name e) key
                  then {| ce_name := ce_name e; ce_value := value |} else e) config.
Proof.
  unfold entries_named. induction config as [|e rest IH]; simpl; [discriminate|].
  destruct (String.eqb (ce_name e) key) eqn:He; simpl.
  - intros Hlen. apply String.eqb_eq in He. rewrite He. f_equal.
    destruct (List.filter (fun e0 => String.eqb (ce_name e0) key) rest) eqn:Hrest;
      [|discriminate].
    clear IH Hlen. induction rest as [|x rest IH]; [reflexivity|].
    simpl in Hrest |- *. destruct (String.eqb (ce_name x) key); [discriminate|].
    now rewrite <- IH.
  - intros Hlen. now rewrite IH.
Qed.

Lemma mark_snoc (new_name : string) (done : list string) (key : string)
    (config : list git_config_entry) :
  map (fun e => if String.eqb (ce_name e) key
                then {| ce_name := ce_name e; ce_value := new_name |} else e)
    (map (mark new_name done) config)
  = map (mark new_name (done ++ [key])) config.
Proof.
  rewrite map_map. apply map_ext. intros e. rewrite mark_name. unfold mark.
  rewrite existsb_app. simpl. rewrite orb_false_r.
  destruct (existsb (String.eqb (ce_name e)) done); simpl.
  - now destruct (String.eqb (ce_name e) key).
  - reflexivity.
Qed.

Lemma foreach_match_spec (old_name new_name : string) (config : list git_config_entry)
    (entries : list git_config_entry) :
  forall (r : git_repository) (done : list string) (e : Z) (r' : git_repository),
    (forall t, t ∈ entries -> t ∈ config) ->
    cfg r = map (mark new_name done) config ->
    foreach_match entries (update_config_entries_cb old_name new_name) r = (e, r') ->
    cfg_write_error r' = cfg_write_error r
    /\ e <= 0
    /\ (e = 0 ->
        let keys := map ce_name
                      (List.filter (fun t => String.eqb (ce_value t) old_name) entries) in
        cfg r' = map (mark new_name (done ++ keys)) config
        /\ forall k, k ∈ keys -> length (entries_named config k) = 1%nat)
    /\ (e < 0 ->
        cfg_write_error r < 0
        \/ exists t, t ∈ entries /\ ce_value t = old_name
                     /\ (1 < length (entries_named config (ce_name t)))%nat).
Proof.
  induction entries as [|t rest IH]; intros r done e r' Hin Hcfg Hrun.
  - simpl in Hrun. injection Hrun as <- <-. simpl. rewrite app_nil_r.
    repeat split; auto; try lia.
    intros k Hk. now apply not_elem_of_nil in Hk.
  - cbn [foreach_match] in Hrun. unfold update_config_entries_cb at 1 in Hrun.
    rewrite strcmp_test in Hrun. cbn [List.filter].
    assert (Hin' : forall t', t' ∈ rest -> t' ∈ config)
      by (intros t' Ht'; apply Hin; now apply list_elem_of_further).
    destruct (String.eqb old_name (ce_value t)) eqn:Hval.
    2:{ assert (Hval' : String.eqb (ce_value t) old_name = false).
        { apply String.eqb_neq. apply String.eqb_neq in Hval. congruence. }
        rewrite Hval'. cbn [negb] in Hrun. change (negb (0 =? 0)) with false in Hrun.
        cbv iota in Hrun.
        destruct (IH r done e r' Hin' Hcfg Hrun) as (Hw & Hle & Hok & Hfail).
        split; [exact Hw|]. split; [exact Hle|]. split; [exact Hok|].
        intros He. destruct (Hfail He) as [Hwr|[t' [Ht' Hrest]]]; [now left|right].
        exists t'. split; [now apply list_elem_of_further|exact Hrest]. }
    apply String.eqb_eq in Hval.
    assert (Hval' : String.eqb (ce_value t) old_name = true)
      by (apply String.eqb_eq; congruence).
    rewrite Hval'. cbn [negb map] in Hrun |- *.
    assert (Hlen : length (entries_named (cfg r) (ce_name t))
                   = length (entries_named config (ce_name t))).
    { rewrite Hcfg, entries_named_map by apply mark_name. apply length_map. }
    assert (Hpos : (0 < length (entries_named config (ce_name t)))%nat).
    { assert (Ht : t ∈ entries_named config (ce_name t)).
      { unfold entries_named. apply list_elem_of_In, filter_In.
        split; [apply list_elem_of_In, Hin, list_elem_of_here|apply String.eqb_refl]. }
      destruct (entries_named config (ce_name t)); [now apply not_elem_of_nil in Ht|].
      simpl. lia. }
    unfold git_config_set_string in Hrun.
    destruct (cfg_write_error r <? 0) eqn:Hwr.
    { apply Z.ltb_lt in Hwr.
      replace (negb (cfg_write_error r =? 0)) with true in Hrun
        by (symmetry; apply negb_true_iff, Z.eqb_neq; lia).
      injection Hrun as <- <-. split; [reflexivity|]. split; [lia|]. split; [lia|].
      intros _. now left. }
    destruct (entries_named (cfg r) (ce_name t)) as [|x [|y l]] eqn:Hn;
      simpl in Hlen; [lia| |].
    2:{ change (negb (-1 =? 0)) with true in Hrun. injection Hrun as <- <-.
        split; [reflexivity|]. split; [lia|]. split; [lia|].
        intros _. right. exists t. split; [apply list_elem_of_here|].
        split; [congruence|]. lia. }
    change (negb (0 =? 0)) with false in Hrun. cbv iota in Hrun.
    set (r1 := {| cfg := replace_value (cfg r) (ce_name t) new_name;
                  cfg_write_error := cfg_write_error r |}) in Hrun.
    assert (Hcfg1 : cfg r1 = map (mark new_name (done ++ [ce_name t])) config).
    { unfold r1. cbn [cfg]. rewrite replace_value_single by (rewrite Hn; reflexivity).
      rewrite Hcfg. apply mark_snoc. }
    destruct (IH r1 (done ++ [ce_name t]) e r' Hin' Hcfg1 Hrun) as (Hw & Hle & Hok & Hfail).
    split; [exact Hw|]. split; [exact Hle|]. split.
    + intros He. destruct (Hok He) as [Hres Hsingle]. split.
      * rewrite Hres. now rewrite <- app_assoc.
      * intros k [->|Hk]%elem_of_cons; [lia|now apply Hsingle].
    + intros He. destruct (Hfail He) as [Hw1|[t' [Ht' Hrest]]]; [now left|right].
      exists t'. split; [now apply list_elem_of_further|exact Hrest].
Qed.

(** Renaming in the branch entries.  [update_branch_remote_config_entry]
    returns 0 or a negative code and does not touch the backend's write
    state.  On success every entry whose name matches the expression and
    whose value is the old name has the new name as its value, and
    every other entry, and the order, are as they were.  It fails only
    if the backend refuses writes or the key of such an entry is a
    multivar. *)
Theorem update_branch_entries_retargets (repo : git_repository)
    (old_name new_name : string) :
  let e := fst (update_branch_remote_config_entry repo old_name new_name) in
  let repo' := snd (update_branch_remote_config_entry repo old_name new_name) in
  cfg_write_error repo' = cfg_write_error repo
  /\ e <= 0
  /\ (e = 0 -> cfg repo' = map (retarget old_name new_name) (cfg repo))
  /\ (e < 0 ->
      cfg_write_error repo < 0
      \/ exists t, t ∈ cfg repo /\ tracks old_name t = true
                   /\ (1 < length (entries_named (cfg repo) (ce_name t)))%nat).
Proof.
  unfold update_branch_remote_config_entry.
  set (entries := List.filter (fun e => branch_regexp_matches (ce_name e)) (cfg repo)).
  assert (Hsub : forall t, t ∈ entries -> t ∈ cfg repo /\ branch_regexp_matches (ce_name t) = true).
  { intros t Ht. apply list_elem_of_In, filter_In in Ht as [Ht Hm].
    split; [now apply list_elem_of_In|exact Hm]. }
  destruct (foreach_match entries (update_config_entries_cb old_name new_name) repo)
    as [e repo'] eqn:Hrun.
  cbn [fst snd].
  destruct (foreach_match_spec old_name new_name (cfg repo) entries repo [] e repo')
    as (Hw & Hle & Hok & Hfail).
  { intros t Ht. now apply Hsub. }
  { symmetry. transitivity (map (fun x => x) (cfg repo));
      [apply map_ext; intros x; reflexivity|apply List.map_id]. }
  { exact Hrun. }
  split; [exact Hw|]. split; [exact Hle|]. split.
  - intros He. destruct (Hok He) as [Hres Hsingle]. rewrite Hres. simpl app.
    apply map_ext_in. intros x Hx. unfold mark, retarget.
    set (keys := map ce_name
                   (List.filter (fun t => String.eqb (ce_value t) old_name) entries)) in *.
    destruct (existsb (String.eqb (ce_name x)) keys) eqn:Hex.
    + apply existsb_exists in Hex as (k & Hk & Hxk). apply String.eqb_eq in Hxk.
      apply in_map_iff in Hk as (t & Htk & Ht). apply filter_In in Ht as [Ht Htv].
      apply list_elem_of_In, Hsub in Ht as [Htin Htm].
      assert (Hone : length (entries_named (cfg repo) (ce_name x)) = 1%nat).
      { apply Hsingle. rewrite Hxk, <- Htk. apply list_elem_of_In, in_map_iff.
        exists t. split; [reflexivity|]. apply filter_In. split; [|exact Htv].
        apply list_elem_of_In. subst entries. apply list_elem_of_In, filter_In.
        split; [now apply list_elem_of_In|exact Htm]. }
      assert (Hxt : x = t).
      { assert (Hx' : x ∈ entries_named (cfg repo) (ce_name x)).
        { apply list_elem_of_In, filter_In. split; [exact Hx|apply String.eqb_refl]. }
        assert (Ht' : t ∈ entries_named (cfg repo) (ce_name x)).
        { apply list_elem_of_In, filter_In. split; [now apply list_elem_of_In|].
          apply String.eqb_eq. congruence. }
        destruct (entries_named (cfg repo) (ce_name x)) as [|y [|z l]];
          [discriminate| |discriminate].
        apply list_elem_of_singleton in Hx', Ht'. congruence. }
      subst x. unfold tracks. now rewrite Htm, Htv.
    + destruct (tracks old_name x) eqn:Htr; [|reflexivity]. exfalso.
      unfold tracks in Htr. apply andb_true_iff in Htr as [Hm Hv].
      assert (Hin : In (ce_name x) keys).
      { apply in_map_iff. exists x. split; [reflexivity|]. apply filter_In.
        split; [|exact Hv]. subst entries. apply filter_In. split; [exact Hx|exact Hm]. }
      assert (Hyes : existsb (String.eqb (ce_name x)) keys = true).
      { apply existsb_exists. exists (ce_name x). split; [exact Hin|apply String.eqb_refl]. }
      congruence.
  - intros He. destruct (Hfail He) as [Hwr|[t [Ht [Hv Hmulti]]]]; [now left|right].
    destruct (Hsub t Ht) as [Htin Htm]. exists t. split; [exact Htin|].
    split; [|exact Hmulti]. unfold tracks. rewrite Htm, Hv. apply String.eqb_refl.
Qed.

(** The branches of [dotted_repo] after [origin] became [mirror]. *)
Example update_branch_entries_dotted :
  update_branch_remote_config_entry dotted_repo "origin" "mirror"
  = (0,
     {| cfg := [ {| ce_name := "branch.feature.remote"; ce_value := "upstream" |};
                 {| ce_name := "branch.feature.merge"; ce_value := "refs/heads/feature" |};
                 {| ce_name := "branch.feature.x.remote"; ce_value := "mirror" |};
                 {| ce_name := "branch.feature.x.merge";
                    ce_value := "refs/heads/feature.x" |};
                 {| ce_name := "remote.origin.url";
                    ce_value := "https://example.test/o.git" |} ];
        cfg_write_error := 0 |}).
Proof. reflexivity. Qed.

End Admin.

(** ** Reference reconciliation ([update_tips], prune) *)

Module Tips.
Import Cstr.

(** *** The reference store

    Modelled from the spec: refs.c and odb.c are not among the sources.
    A reference is direct (it holds an id) or symbolic (it names another
    reference); the object database is the set of ids it holds. *)

Inductive git_reference : Type :=
| ref_direct (target : git_oid)
| ref_symbolic (target : string).

(** What the callbacks and the store were asked to do, in order. *)
Inductive tip_event : Type :=
| ev_create (refname : string) (id : git_oid) (force : bool) (result : Z)
| ev_delete (refname : string)
| ev_update_tips (refname : string) (a b : git_oid) (result : Z).

Record repo_state : Type := {
  refs : gmap string git_reference;
  odb : gset N;
  tips_log : list tip_event
}.

Definition log (st : repo_state) (ev : tip_event) : repo_state :=
  {| refs := refs st; odb := odb st; tips_log := tips_log st ++ [ev] |}.

Definition git_odb_exists (st : repo_state) (id : git_oid) : bool :=
  bool_decide (id ∈ odb st).

Definition MAX_NESTING_LEVEL : nat := 10.

Fixpoint resolve (fuel : nat) (store : gmap string git_reference) (refname : string)
  : Z * N :=
  match store !! refname with
  | None => (GIT_ENOTFOUND, 0%N)
  | Some (ref_direct id) => (0, id)
  | Some (ref_symbolic target) =>
      match fuel with
      | O => (-1, 0%N)
      | S fuel' => resolve fuel' store target
      end
  end.

(** [git_reference_name_to_id]: the id behind a name; not-found when the
    name, or the end of its symbolic chain, is missing. *)
Definition git_reference_name_to_id (st : repo_state) (refname : string) : Z * N :=
  resolve MAX_NESTING_LEVEL (refs st) refname.

(** [git_reference_create]: refuses an existing name unless forced. *)
Definition git_reference_create (st : repo_state) (refname : string) (id : git_oid)
    (force : bool) : Z * repo_state :=
  if bool_decide (is_Some (refs st !! refname)) && negb force
  then (GIT_EEXISTS, log st (ev_create refname id force GIT_EEXISTS))
  else (0, log {| refs := <[refname := ref_direct id]> (refs st);
                  odb := odb st; tips_log := tips_log st |}
               (ev_create refname id force 0)).

Definition GIT_EMODIFIED : Z := -15.

(** [git_reference_create_matching]: a forced create that goes through
    only if the reference still holds [old]. *)
Definition git_reference_create_matching (st : repo_state) (refname : string)
    (id old : git_oid) : Z * repo_state :=
  match refs st !! refname with
  | Some (ref_direct cur) =>
      if (cur =? old)%N then git_reference_create st refname id true
      else (GIT_EMODIFIED, st)
  | _ => (GIT_EMODIFIED, st)
  end.

Definition git_reference_delete (st : repo_state) (refname : string) : Z * repo_state :=
  (0, log {| refs := delete refname (refs st); odb := odb st; tips_log := tips_log st |}
          (ev_delete refname)).

(** [git_reference_list]: the names of all references. *)
Definition git_reference_list (st : repo_state) : list string :=
  (map_to_list (refs st)).*1.

(** *** What refspec.c and refs.c provide

    The matcher and the name check are an interface of this module; the
    model of the previous section is one instance. *)
Class RefspecOps : Type := {
  git_refspec__parse : string -> bool -> option git_refspec;
  git_refspec_src_matches : git_refspec -> string -> bool;
  git_refspec_dst_matches : git_refspec -> string -> bool;
  git_refspec_transform : git_refspec -> string -> string;
  git_refspec_rtransform : git_refspec -> string -> string;
  git_reference_is_valid_name : string -> bool
}.

(** The [update_tips] hook of [git_remote_callbacks]; [None] when the
    callbacks or the hook are NULL. *)
Definition update_tips_cb : Type := option (string -> git_oid -> git_oid -> Z).

(** What the reconciliation reads of the remote; [heads] is what the
    transport's [ls] yields ([None]: [ls] fails). *)
Record git_remote : Type := {
  download_tags : git_remote_autotag_option_t;
  active_refspecs : list git_refspec;
  passive_refspecs : list git_refspec;
  passed_refspecs : bool;
  push : bool;
  heads : option (list git_remote_head)
}.

Inductive control : Type :=
| Continue
| OnError.

Section WithOps.

Context `{ops : RefspecOps}.

(** FETCH_HEAD generation is not part of this development: the result
    code of [git_remote_write_fetchhead] and of truncating the file are
    parameters. *)
Variable git_remote_write_fetchhead : git_refspec -> list git_remote_head -> Z.
Variable truncate_fetch_head : Z.
Variable git_push_update_tips : Z.

Definition is_auto (tagopt : git_remote_autotag_option_t) : bool :=
  match tagopt with
  | GIT_REMOTE_DOWNLOAD_TAGS_AUTO => true
  | _ => false
  end.

Definition is_none (tagopt : git_remote_autotag_option_t) : bool :=
  match tagopt with
  | GIT_REMOTE_DOWNLOAD_TAGS_NONE => true
  | _ => false
  end.

(** One turn of the [for] loop of [update_tips_for_spec], for the head
    [head]: the state of the store and of the local [update_heads]
    afterwards, and whether the loop goes on or jumps to [on_error]. *)
Definition update_tip (callbacks : update_tips_cb)
    (tagopt : git_remote_autotag_option_t) (tagspec spec : git_refspec)
    (head : git_remote_head) (st : repo_state) (update_heads : list git_remote_head)
  : control * repo_state * list git_remote_head :=
  (* Ignore malformed ref names *)
  if negb (git_reference_is_valid_name (rh_name head)) then (Continue, st, update_heads)
  else
    (* If we have a tag, see if the auto-follow rules say to update it *)
    let tagged := git_refspec_src_matches tagspec (rh_name head) && negb (is_none tagopt) in
    let autotag := tagged && is_auto tagopt in
    let refname := if tagged then rh_name head else "" in
    (* If we didn't want to auto-follow the tag, check if the refspec matches *)
    let matched := negb autotag && git_refspec_src_matches spec (rh_name head) in
    if matched && negb (bool_decide (is_Some (rs_dst spec)))
    then (Continue, st, update_heads ++ [head])
    else
      let refname := if matched then git_refspec_transform spec (rh_name head)
                     else refname in
      (* If we still don't have a refname, we don't want it *)
      if (strlen refname =? 0)%nat then (Continue, st, update_heads)
      (* In autotag mode, only create tags for objects already in db *)
      else if autotag && negb (git_odb_exists st (rh_oid head))
      then (Continue, st, update_heads)
      else
        let update_heads := if negb autotag then update_heads ++ [head]
                            else update_heads in
        let '(error, old) := git_reference_name_to_id st refname in
        if (error <? 0) && negb (error =? GIT_ENOTFOUND) then (OnError, st, update_heads)
        else
          let old := if error =? GIT_ENOTFOUND then zero_id else old in
          let update_heads :=
            if (error =? GIT_ENOTFOUND) && autotag then update_heads ++ [head]
            else update_heads in
          if git_oid_cmp old (rh_oid head) =? 0 then (Continue, st, update_heads)
          else
            (* In autotag mode, don't overwrite any locally-existing tags *)
            let '(error, st) :=
              git_reference_create st refname (rh_oid head) (negb autotag) in
            if error =? GIT_EEXISTS then (Continue, st, update_heads)
            else if error <? 0 then (OnError, st, update_heads)
            else
              match callbacks with
              | Some update_tips =>
                  let r := update_tips refname old (rh_oid head) in
                  let st := log st (ev_update_tips refname old (rh_oid head) r) in
                  if r <? 0 then (OnError, st, update_heads)
                  else (Continue, st, update_heads)
              | None => (Continue, st, update_heads)
              end.

(** The loop [for (; i < refs->length; ++i)]. *)
Fixpoint update_tips_loop (callbacks : update_tips_cb)
    (tagopt : git_remote_autotag_option_t) (tagspec spec : git_refspec)
    (refs_ : list git_remote_head) (st : repo_state)
    (update_heads : list git_remote_head)
  : control * repo_state * list git_remote_head :=
  match refs_ with
  | [] => (Continue, st, update_heads)
  | head :: rest =>
      match update_tip callbacks tagopt tagspec spec head st update_heads with
      | (Continue, st', update_heads') =>
          update_tips_loop callbacks tagopt tagspec spec rest st' update_heads'
      | (OnError, st', update_heads') => (OnError, st', update_heads')
      end
  end.

Definition update_tips_for_spec (callbacks : update_tips_cb) (update_fetchhead : bool)
    (tagopt : git_remote_autotag_option_t) (spec : git_refspec)
    (refs_ : list git_remote_head) (st : repo_state) : Z * repo_state :=
  match git_refspec__parse GIT_REFSPEC_TAGS true with
  | None => (-1, st)
  | Some tagspec =>
      match update_tips_loop callbacks tagopt tagspec spec refs_ st [] with
      | (OnError, st', _) => (-1, st')
      | (Continue, st', update_heads) =>
          if update_fetchhead && (git_remote_write_fetchhead spec update_heads <? 0)
          then (-1, st')
          else (0, st')
      end
  end.

(** *** Opportunistic updates *)

(** The three nested [for] loops of [next_head], innermost first; each
    starts at the cursor it is given and yields the cursor to resume at. *)
Fixpoint next_passive (refname : string) (passive : list git_refspec) (k : nat)
  : option (git_refspec * nat) :=
  match passive with
  | [] => None
  | passive_spec :: rest =>
      if negb (git_refspec_src_matches passive_spec refname)
      then next_passive refname rest (S k)
      else Some (passive_spec, S k)
  end.

Fixpoint next_active (remote : git_remote) (refname : string)
    (active : list git_refspec) (j k : nat) : option (git_refspec * nat * nat) :=
  match active with
  | [] => None
  | spec :: rest =>
      if negb (git_refspec_src_matches spec refname)
      then next_active remote refname rest (S j) k
      else
        match next_passive refname (drop k (passive_refspecs remote)) k with
        | Some (passive_spec, k') => Some (passive_spec, j, k')
        | None => next_active remote refname rest (S j) 0
        end
  end.

Fixpoint next_ref (remote : git_remote) (refs_ : list git_remote_head) (i j k : nat)
  : option (git_refspec * git_remote_head * nat * nat * nat) :=
  match refs_ with
  | [] => None
  | head :: rest =>
      if negb (git_reference_is_valid_name (rh_name head))
      then next_ref remote rest (S i) j k
      else
        match next_active remote (rh_name head) (drop j (active_refspecs remote)) j k with
        | Some (passive_spec, j', k') => Some (passive_spec, head, i, j', k')
        | None => next_ref remote rest (S i) 0 0
        end
  end.

(** [next_head]: [None] is [GIT_ITEROVER]. *)
Definition next_head (remote : git_remote) (refs_ : list git_remote_head) (i j k : nat)
  : option (git_refspec * git_remote_head * nat * nat * nat) :=
  next_ref remote (drop i refs_) i j k.

(** The [while] loop of [opportunistic_updates]; every turn moves the
    cursor forward, [fuel] bounds the number of turns. *)
Fixpoint opportunistic_loop (fuel : nat) (remote : git_remote) (callbacks : update_tips_cb)
    (refs_ : list git_remote_head) (i j k : nat) (st : repo_state)
  : option (Z * repo_state) :=
  match fuel with
  | O => None
  | S fuel' =>
      match next_head remote refs_ i j k with
      | None => Some (0, st)
      | Some (spec, head, i, j, k) =>
          let refname := git_refspec_transform spec (rh_name head) in
          let '(error, old) := git_reference_name_to_id st refname in
          if (error <? 0) && negb (error =? GIT_ENOTFOUND) then Some (error, st)
          else
            let old := if error =? 0 then old else zero_id in
            if git_oid_cmp old (rh_oid head) =? 0
            then opportunistic_loop fuel' remote callbacks refs_ i j k st
            else
              let '(error, st) :=
                if negb (error =? 0)
                then git_reference_create st refname (rh_oid head) true
                else git_reference_create_matching st refname (rh_oid head) old in
              if error <? 0 then Some (error, st)
              else
                match callbacks with
                | Some update_tips =>
                    let r := update_tips refname old (rh_oid head) in
                    let st := log st (ev_update_tips refname old (rh_oid head) r) in
                    if r <? 0 then Some (error, st)
                    else opportunistic_loop fuel' remote callbacks refs_ i j k st
                | None => opportunistic_loop fuel' remote callbacks refs_ i j k st
                end
      end
  end.

Definition opportunistic_updates (remote : git_remote) (callbacks : update_tips_cb)
    (refs_ : list git_remote_head) (st : repo_state) : option (Z * repo_state) :=
  opportunistic_loop
    (S (length refs_ * S (length (active_refspecs remote))
        * S (length (passive_refspecs remote))))
    remote callbacks refs_ 0 0 0 st.

(** *** [git_remote_update_tips] *)

(** The loop over the active refspecs; [error] is the local of that
    name, kept when a refspec is skipped. *)
Fixpoint update_tips_specs (callbacks : update_tips_cb) (update_fetchhead : bool)
    (tagopt : git_remote_autotag_option_t) (specs : list git_refspec)
    (refs_ : list git_remote_head) (error : Z) (st : repo_state) : Z * repo_state :=
  match specs with
  | [] => (error, st)
  | spec :: rest =>
      if rs_push spec
      then update_tips_specs callbacks update_fetchhead tagopt rest refs_ error st
      else
        let '(error, st') :=
          update_tips_for_spec callbacks update_fetchhead tagopt spec refs_ st in
        if error <? 0 then (error, st')
        else update_tips_specs callbacks update_fetchhead tagopt rest refs_ error st'
  end.

Definition git_remote_update_tips (remote : git_remote) (callbacks : update_tips_cb)
    (update_fetchhead : bool) (download_tags_ : git_remote_autotag_option_t)
    (st : repo_state) : option (Z * repo_state) :=
  (* push has its own logic hidden away in the push object *)
  if push remote then Some (git_push_update_tips, st)
  else
    match git_refspec__parse GIT_REFSPEC_TAGS true with
    | None => Some (-1, st)
    | Some tagspec =>
        match heads remote with
        | None => Some (-1, st)
        | Some refs_ =>
            let tagopt :=
              match download_tags_ with
              | GIT_REMOTE_DOWNLOAD_TAGS_UNSPECIFIED => download_tags remote
              | _ => download_tags_
              end in
            let error := truncate_fetch_head in
            if error <? 0 then Some (error, st)
            else
              let '(error, st) :=
                match tagopt with
                | GIT_REMOTE_DOWNLOAD_TAGS_ALL =>
                    update_tips_for_spec callbacks update_fetchhead tagopt tagspec refs_ st
                | _ => (error, st)
                end in
              if error <? 0 then Some (error, st)
              else
                let '(error, st) :=
                  update_tips_specs callbacks update_fetchhead tagopt
                    (active_refspecs remote) refs_ error st in
                if error <? 0 then Some (error, st)
                else
                  (* only try to do opportunistic updates if the refspec lists differ *)
                  if passed_refspecs remote
                  then opportunistic_updates remote callbacks refs_ st
                  else Some (error, st)
        end
    end.

(** *** Prune *)

(** [git_remote__matching_dst_refspec]: the first active fetch refspec
    whose destination matches. *)
Fixpoint git_remote__matching_dst_refspec (active : list git_refspec) (refname : string)
  : option git_refspec :=
  match active with
  | [] => None
  | spec :: rest =>
      if rs_push spec then git_remote__matching_dst_refspec rest refname
      else if git_refspec_dst_matches spec refname then Some spec
      else git_remote__matching_dst_refspec rest refname
  end.

(** [prune_candidates]: the references that match the rhs of an active
    refspec. *)
Definition prune_candidates (remote : git_remote) (st : repo_state) : list string :=
  List.filter
    (fun refname =>
       bool_decide (is_Some (git_remote__matching_dst_refspec (active_refspecs remote) refname)))
    (git_reference_list st).

(** [git_vector_bsearch] over the advertised heads, by name. *)
Definition advertised (remote_refs : list git_remote_head) (refname : string) : bool :=
  existsb (fun h => git__strcmp (rh_name h) refname =? 0) remote_refs.

(** The inner loop of the first pass, for one candidate: is there a
    refspec whose destination matches it and whose source side the
    remote still has? *)
Fixpoint source_found (active : list git_refspec) (remote_refs : list git_remote_head)
    (refname : string) : bool :=
  match active with
  | [] => false
  | spec :: rest =>
      if negb (git_refspec_dst_matches spec refname)
      then source_found rest remote_refs refname
      else if advertised remote_refs (git_refspec_rtransform spec refname) then true
      else source_found rest remote_refs refname
  end.

(** The second pass: the candidates still in the list are removed,
    symbolic references apart.  [error] is the local of that name. *)
Fixpoint prune_loop (callbacks : update_tips_cb) (candidates : list (option string))
    (error : Z) (st : repo_state) : Z * repo_state :=
  match candidates with
  | [] => (error, st)
  | None :: rest => prune_loop callbacks rest error st
  | Some refname :: rest =>
      match refs st !! refname with
      | None =>
          (* as we want it gone, let's not consider this an error *)
          prune_loop callbacks rest GIT_ENOTFOUND st
      | Some (ref_symbolic _) => prune_loop callbacks rest 0 st
      | Some (ref_direct id) =>
          let '(error, st) := git_reference_delete st refname in
          if error <? 0 then (error, st)
          else
            match callbacks with
            | Some update_tips =>
                let error := update_tips refname id zero_id in
                let st := log st (ev_update_tips refname id zero_id error) in
                if error <? 0 then (error, st)
                else prune_loop callbacks rest error st
            | None => prune_loop callbacks rest error st
            end
      end
  end.

(** [git_remote_prune].  The callbacks are taken to carry the right
    version.  The first pass can leave [GIT_ENOTFOUND] in [error] only
    when the last candidate stays in the list, and the second pass then
    assigns [error] again at that candidate; so the second pass is
    started at 0. *)
Definition git_remote_prune (remote : git_remote) (callbacks : update_tips_cb)
    (st : repo_state) : Z * repo_state :=
  match heads remote with
  | None => (-1, st)
  | Some remote_refs =>
      let candidates := prune_candidates remote st in
      let candidates :=
        map (fun refname =>
               if source_found (active_refspecs remote) remote_refs refname
               then None else Some refname)
            candidates in
      prune_loop callbacks candidates 0 st
  end.

(** *** What one head does to the store *)

Lemma create_result (st : repo_state) (refname : string) (id : git_oid) (force : bool) :
  (git_reference_create st refname id force
   = (GIT_EEXISTS, log st (ev_create refname id force GIT_EEXISTS))
   /\ is_Some (refs st !! refname) /\ force = false)
  \/ git_reference_create st refname id force
     = (0, log {| refs := <[refname := ref_direct id]> (refs st);
                  odb := odb st; tips_log := tips_log st |}
               (ev_create refname id force 0)).
Proof.
  unfold git_reference_create.
  destruct (bool_decide (is_Some (refs st !! refname))) eqn:Hex; simpl; [|now right].
  destruct force; simpl; [now right|]. left.
  apply bool_decide_eq_true in Hex. auto.
Qed.

Lemma resolve_failure (fuel : nat) (store : gmap string git_reference) (refname : string) :
  fst (resolve fuel store refname) <> 0 -> snd (resolve fuel store refname) = zero_id.
Proof.
  revert refname. induction fuel as [|fuel IH]; intros refname; simpl;
    destruct (store !! refname) as [[id|target]|]; simpl; auto; congruence.
Qed.

(** The id a name held before the update, all-zero when it held none. *)
Definition old_id (st : repo_state) (refname : string) : git_oid :=
  snd (git_reference_name_to_id st refname).

(** The turn for one head leaves the store alone, or makes exactly one
    [git_reference_create] call, followed, when that call created or
    updated the reference and a hook is set, by exactly one call of the
    hook with the reference's name, its old id and the head's id; the
    loop jumps to [on_error] after a hook call precisely when the hook
    returned a negative value. *)
Lemma update_tip_cases (callbacks : update_tips_cb)
    (tagopt : git_remote_autotag_option_t) (tagspec spec : git_refspec)
    (head : git_remote_head) (st st' : repo_state)
    (update_heads update_heads' : list git_remote_head) (c : control) :
  update_tip callbacks tagopt tagspec spec head st update_heads = (c, st', update_heads') ->
  let tagged := git_refspec_src_matches tagspec (rh_name head) && negb (is_none tagopt) in
  let autotag := tagged && is_auto tagopt in
  st' = st
  \/ exists refname,
       git_reference_is_valid_name (rh_name head) = true
       /\ refname = (if negb autotag && git_refspec_src_matches spec (rh_name head)
                     then git_refspec_transform spec (rh_name head)
                     else rh_name head)
       /\ (negb autotag && git_refspec_src_matches spec (rh_name head) = true \/ tagged = true)
       /\ (autotag = true -> git_odb_exists st (rh_oid head) = true)
       /\ old_id st refname <> rh_oid head
       /\ let '(e, st1) := git_reference_create st refname (rh_oid head) (negb autotag) in
          (e = GIT_EEXISTS /\ c = Continue /\ st' = st1)
          \/ (e = 0
              /\ match callbacks with
                 | Some update_tips =>
                     let r := update_tips refname (old_id st refname) (rh_oid head) in
                     st' = log st1 (ev_update_tips refname (old_id st refname)
                                      (rh_oid head) r)
                     /\ c = (if r <? 0 then OnError else Continue)
                 | None => st' = st1 /\ c = Continue
                 end).
Proof.
  intros H tagged autotag. revert H. unfold update_tip. cbv zeta.
  fold tagged. fold autotag.
  destruct (git_reference_is_valid_name (rh_name head)) eqn:Hvalid;
    [|simpl; intros H; left; congruence].
  simpl negb. cbv iota.
  set (matched := negb autotag && git_refspec_src_matches spec (rh_name head)).
  destruct (matched && negb (bool_decide (is_Some (rs_dst spec)))) eqn:Hnodst;
    [intros H; left; congruence|].
  set (refname := if matched then git_refspec_transform spec (rh_name head)
                  else if tagged then rh_name head else "").
  destruct (strlen refname =? 0)%nat eqn:Hlen; [intros H; left; congruence|].
  destruct (autotag && negb (git_odb_exists st (rh_oid head))) eqn:Hodb;
    [intros H; left; congruence|].
  assert (Hname : refname = (if matched then git_refspec_transform spec (rh_name head)
                             else rh_name head)
                  /\ (matched = true \/ tagged = true)).
  { unfold refname in *. destruct matched; [auto|].
    destruct tagged; [auto|]. simpl in Hlen. discriminate. }
  destruct Hname as [Hname Hwhy].
  unfold old_id.
  pose proof (resolve_failure MAX_NESTING_LEVEL (refs st) refname) as Hfail.
  fold (git_reference_name_to_id st refname) in Hfail.
  destruct (git_reference_name_to_id st refname) as [error old] eqn:Hid.
  destruct ((error <? 0) && negb (error =? GIT_ENOTFOUND)) eqn:Herr;
    [intros H; left; congruence|].
  simpl in Hfail.
  assert (Hold : (if error =? GIT_ENOTFOUND then zero_id else old) = old).
  { destruct (Z.eqb_spec error GIT_ENOTFOUND) as [->|Hne]; [|reflexivity].
    symmetry. apply Hfail. discriminate. }
  rewrite Hold. clear Hold Hfail.
  destruct (git_oid_cmp old (rh_oid head) =? 0) eqn:Hsame; [intros H; left; congruence|].
  intros H. right. exists refname.
  split; [reflexivity|]. split; [exact Hname|]. split; [exact Hwhy|].
  split.
  { intros Ha. rewrite Ha in Hodb. simpl in Hodb. now apply negb_false_iff in Hodb. }
  rewrite Hid. simpl snd.
  split.
  { intros Heq. apply Z.eqb_neq in Hsame. apply Hsame.
    exact (proj2 (git_oid_cmp_0 old (rh_oid head)) Heq). }
  destruct (create_result st refname (rh_oid head) (negb autotag)) as [(Hc & _ & _)|Hc];
    rewrite Hc in H |- *.
  - left. simpl in H. injection H as <- <- <-. auto.
  - right. split; [reflexivity|].
    change (0 =? GIT_EEXISTS) with false in H. change (0 <? 0) with false in H.
    cbv iota in H.
    destruct callbacks as [update_tips|].
    + destruct (update_tips refname old (rh_oid head) <? 0);
        injection H as <- <- <-; auto.
    + injection H as <- <- <-; auto.
Qed.

(** *** The callback protocol of [update_tips_for_spec] *)

(** The shape of what one run adds to the log, for the hook [f]: every
    create that went through is followed at once by the hook's call for
    the same reference and id; after a negative answer nothing follows. *)
Inductive tips_trace (f : string -> git_oid -> git_oid -> Z)
  : list tip_event -> bool -> Prop :=
| trace_done : tips_trace f [] false
| trace_exists (refname : string) (id : git_oid) (force : bool)
    (evs : list tip_event) (aborted : bool) :
    tips_trace f evs aborted ->
    tips_trace f (ev_create refname id force GIT_EEXISTS :: evs) aborted
| trace_update (refname : string) (old id : git_oid) (force : bool)
    (evs : list tip_event) (aborted : bool) :
    0 <= f refname old id ->
    tips_trace f evs aborted ->
    tips_trace f (ev_create refname id force 0
                  :: ev_update_tips refname old id (f refname old id) :: evs) aborted
| trace_abort (refname : string) (old id : git_oid) (force : bool) :
    f refname old id < 0 ->
    tips_trace f [ev_create refname id force 0;
                  ev_update_tips refname old id (f refname old id)] true.

Lemma update_tips_loop_trace (f : string -> git_oid -> git_oid -> Z)
    (tagopt : git_remote_autotag_option_t) (tagspec spec : git_refspec)
    (refs_ : list git_remote_head) :
  forall st update_heads c st' update_heads',
    update_tips_loop (Some f) tagopt tagspec spec refs_ st update_heads
    = (c, st', update_heads') ->
    exists evs aborted,
      tips_log st' = tips_log st ++ evs
      /\ tips_trace f evs aborted
      /\ (aborted = true -> c = OnError).
Proof.
  induction refs_ as [|head rest IH]; intros st uh c st' uh' H; simpl in H.
  - injection H as <- <- <-. exists [], false.
    split; [now rewrite app_nil_r|]. split; [constructor|discriminate].
  - destruct (update_tip (Some f) tagopt tagspec spec head st uh)
      as [[c1 st1] uh1] eqn:Hone.
    pose proof (update_tip_cases _ _ _ _ _ _ _ _ _ _ Hone) as Hcases.
    simpl in Hcases.
    destruct Hcases as [->|(refname & _ & _ & _ & _ & _ & Hcreate)].
    + destruct c1.
      * exact (IH _ _ _ _ _ H).
      * injection H as <- <- <-. exists [], false.
        split; [now rewrite app_nil_r|]. split; [constructor|discriminate].
    + set (force := negb (git_refspec_src_matches tagspec (rh_name head)
                          && negb (is_none tagopt) && is_auto tagopt)) in *.
      destruct (create_result st refname (rh_oid head) force) as [(Hc & _ & _)|Hc];
        rewrite Hc in Hcreate.
      * destruct Hcreate as [(_ & -> & ->)|(He & _)]; [|discriminate He].
        destruct (IH _ _ _ _ _ H) as (evs & aborted & Hlog & Htrace & Hab).
        exists (ev_create refname (rh_oid head) force GIT_EEXISTS :: evs), aborted.
        split; [|split; [now constructor|exact Hab]].
        rewrite Hlog. simpl. now rewrite <- app_assoc.
      * destruct Hcreate as [(He & _)|(_ & -> & ->)]; [discriminate He|].
        destruct (f refname (old_id st refname) (rh_oid head) <? 0) eqn:Hneg.
        -- injection H as <- <- <-.
           exists [ev_create refname (rh_oid head) force 0;
                   ev_update_tips refname (old_id st refname) (rh_oid head)
                     (f refname (old_id st refname) (rh_oid head))], true.
           split; [simpl; now rewrite <- app_assoc|].
           split; [|reflexivity]. apply trace_abort. now apply Z.ltb_lt.
        -- destruct (IH _ _ _ _ _ H) as (evs & aborted & Hlog & Htrace & Hab).
           exists (ev_create refname (rh_oid head) force 0
                   :: ev_update_tips refname (old_id st refname) (rh_oid head)
                        (f refname (old_id st refname) (rh_oid head)) :: evs), aborted.
           split; [|split; [|exact Hab]].
           ++ rewrite Hlog. simpl. now rewrite <- !app_assoc.
           ++ apply trace_update; [now apply Z.ltb_ge|exact Htrace].
Qed.

(** C4, as amended.  In [update_tips_for_spec] with an [update_tips] hook
    [f]: whenever the turn for a head creates or updates a reference, the
    hook is called next, with the reference's name, the id it held before
    (all-zero if none) and the head's id; the loop leaves for [on_error]
    after that call exactly when the hook returned a NEGATIVE value (a
    positive one is ignored).  Over a whole run, every successful create
    is followed at once by the hook's call, and after a negative answer
    nothing more is done: the function returns -1 and no further head is
    processed. *)
Theorem update_tips_callback_protocol (f : string -> git_oid -> git_oid -> Z)
    (update_fetchhead : bool) (tagopt : git_remote_autotag_option_t)
    (spec : git_refspec) (refs_ : list git_remote_head) (st : repo_state) :
  (forall tagspec head st0 uh c st1 uh1,
     update_tip (Some f) tagopt tagspec spec head st0 uh = (c, st1, uh1) ->
     st1 = st0
     \/ exists refname force,
          let '(e, created) := git_reference_create st0 refname (rh_oid head) force in
          (e = GIT_EEXISTS /\ c = Continue /\ st1 = created)
          \/ (e = 0
              /\ st1 = log created
                         (ev_update_tips refname (old_id st0 refname) (rh_oid head)
                            (f refname (old_id st0 refname) (rh_oid head)))
              /\ c = (if f refname (old_id st0 refname) (rh_oid head) <? 0
                      then OnError else Continue)))
  /\ exists evs aborted,
       let result := update_tips_for_spec (Some f) update_fetchhead tagopt spec refs_ st in
       tips_log (snd result) = tips_log st ++ evs
       /\ tips_trace f evs aborted
       /\ (aborted = true -> fst result = -1).
Proof.
  split.
  - intros tagspec head st0 uh c st1 uh1 H.
    destruct (update_tip_cases _ _ _ _ _ _ _ _ _ _ H)
      as [->|(refname & _ & _ & _ & _ & _ & Hcreate)]; [now left|].
    right. exists refname. eexists. exact Hcreate.
  - unfold update_tips_for_spec.
    destruct (git_refspec__parse GIT_REFSPEC_TAGS true) as [tagspec|].
    2:{ exists [], false. simpl. split; [now rewrite app_nil_r|].
        split; [constructor|discriminate]. }
    destruct (update_tips_loop (Some f) tagopt tagspec spec refs_ st [])
      as [[c st'] uh'] eqn:Hloop.
    destruct (update_tips_loop_trace _ _ _ _ _ _ _ _ _ _ Hloop)
      as (evs & aborted & Hlog & Htrace & Hab).
    exists evs, aborted. destruct c.
    + destruct (update_fetchhead && _); simpl; repeat split; auto;
        intros Ha; specialize (Hab Ha); discriminate.
    + simpl. auto.
Qed.

(** *** Tags *)

(** C5, as amended.  For an advertised head with a valid name that
    matches the built-in tag refspec, under a tag policy other than NONE,
    the turn either leaves the store alone or makes one
    [git_reference_create] call, for the head's id, with [force] equal to
    the negation of the auto-tag flag.  The head is an auto-tag exactly
    under the AUTO policy: its destination is then the head's name
    verbatim and the call is made only if the object database holds the
    head's id.  Under any other policy the destination is the head's name
    verbatim UNLESS the refspec at hand matches the head too, in which
    case it is that refspec's transform of the name.  A create that
    reports already-exists is tolerated: the loop goes on and the
    references are unchanged; an auto-tag is written only where no
    reference existed. *)
Theorem tag_head_policy (callbacks : update_tips_cb)
    (tagopt : git_remote_autotag_option_t) (tagspec spec : git_refspec)
    (head : git_remote_head) (st st' : repo_state)
    (update_heads update_heads' : list git_remote_head) (c : control) :
  git_refspec_src_matches tagspec (rh_name head) = true ->
  is_none tagopt = false ->
  update_tip callbacks tagopt tagspec spec head st update_heads = (c, st', update_heads') ->
  let autotag := is_auto tagopt in
  st' = st
  \/ exists refname,
       refname = (if autotag then rh_name head
                  else if git_refspec_src_matches spec (rh_name head)
                       then git_refspec_transform spec (rh_name head)
                       else rh_name head)
       /\ (autotag = true -> git_odb_exists st (rh_oid head) = true)
       /\ let '(e, created) :=
            git_reference_create st refname (rh_oid head) (negb autotag) in
          (e = GIT_EEXISTS /\ c = Continue /\ st' = created /\ refs st' = refs st)
          \/ (e = 0
              /\ refs st' = <[refname := ref_direct (rh_oid head)]> (refs st)
              /\ (autotag = true -> refs st !! refname = None)).
Proof.
  intros Htag Hnone H autotag.
  destruct (update_tip_cases _ _ _ _ _ _ _ _ _ _ H)
    as [->|(refname & _ & Hname & _ & Hodb & _ & Hcreate)]; [now left|].
  right. rewrite Htag, Hnone in Hname, Hodb, Hcreate. simpl in Hname, Hodb, Hcreate.
  fold autotag in Hname, Hodb, Hcreate.
  exists refname. split.
  { rewrite Hname. now destruct autotag. }
  split; [exact Hodb|].
  unfold git_reference_create in *.
  destruct (bool_decide (is_Some (refs st !! refname)) && negb (negb autotag)) eqn:Hex.
  - left. destruct Hcreate as [(He & Hc & Hst)|(He & _)]; [|discriminate He].
    subst st'. auto.
  - right. destruct Hcreate as [(He & _)|(_ & Hst)]; [discriminate He|].
    split; [reflexivity|]. split.
    + destruct callbacks as [update_tips|]; destruct Hst as [-> _]; reflexivity.
    + intros Ha. rewrite Ha in Hex. simpl in Hex. rewrite andb_true_r in Hex.
      apply bool_decide_eq_false in Hex.
      destruct (refs st !! refname); [exfalso; apply Hex; eauto|reflexivity].
Qed.

(** *** What prune removes *)

Definition is_direct (r : option git_reference) : bool :=
  match r with
  | Some (ref_direct _) => true
  | _ => false
  end.

(** What removing the reference [refname] adds to the log. *)
Definition prune_events (callbacks : update_tips_cb)
    (store : gmap string git_reference) (refname : string) : list tip_event :=
  match store !! refname with
  | Some (ref_direct id) =>
      ev_delete refname
      :: match callbacks with
         | Some update_tips =>
             [ev_update_tips refname id zero_id (update_tips refname id zero_id)]
         | None => []
         end
  | _ => []
  end.

Definition candidate_events (callbacks : update_tips_cb)
    (store : gmap string git_reference) (candidate : option string) : list tip_event :=
  match candidate with
  | Some refname => prune_events callbacks store refname
  | None => []
  end.

Definition never_negative (callbacks : update_tips_cb) : Prop :=
  match callbacks with
  | Some update_tips => forall refname a b, 0 <= update_tips refname a b
  | None => True
  end.

(** The references [git_remote_prune] removes: direct, a candidate, and
    with no source found. *)
Definition pruned (remote : git_remote) (remote_refs : list git_remote_head)
    (st : repo_state) (refname : string) : bool :=
  is_direct (refs st !! refname)
  && bool_decide (is_Some (git_remote__matching_dst_refspec (active_refspecs remote) refname))
  && negb (source_found (active_refspecs remote) remote_refs refname).

Lemma matching_dst_refspec_spec (active : list git_refspec) (refname : string) :
  is_Some (git_remote__matching_dst_refspec active refname)
  <-> exists spec, spec ∈ active /\ rs_push spec = false
                   /\ git_refspec_dst_matches spec refname = true.
Proof.
  induction active as [|spec rest IH]; simpl.
  - split; [intros [x Hx]; discriminate Hx|intros (spec & Hin & _)].
    now apply elem_of_nil in Hin.
  - destruct (rs_push spec) eqn:Hpush.
    + rewrite IH. split; intros (s & Hin & Hp & Hm).
      * exists s. rewrite elem_of_cons. auto.
      * apply elem_of_cons in Hin as [->|Hin]; [congruence|eauto].
    + destruct (git_refspec_dst_matches spec refname) eqn:Hm.
      * split; [intros _|eauto]. exists spec. rewrite elem_of_cons. auto.
      * rewrite IH. split; intros (s & Hin & Hp & Hm').
        -- exists s. rewrite elem_of_cons. auto.
        -- apply elem_of_cons in Hin as [->|Hin]; [congruence|eauto].
Qed.

Lemma source_found_spec (active : list git_refspec) (remote_refs : list git_remote_head)
    (refname : string) :
  source_found active remote_refs refname = false
  <-> forall spec, spec ∈ active -> git_refspec_dst_matches spec refname = true ->
                   advertised remote_refs (git_refspec_rtransform spec refname) = false.
Proof.
  induction active as [|spec rest IH]; simpl.
  - split; [intros _ spec Hin|reflexivity]. now apply elem_of_nil in Hin.
  - destruct (git_refspec_dst_matches spec refname) eqn:Hm; simpl.
    + destruct (advertised remote_refs (git_refspec_rtransform spec refname)) eqn:Hadv.
      * split; [discriminate|intros H].
        specialize (H spec (list_elem_of_here _ _) Hm). congruence.
      * rewrite IH. split; intros H s Hin Hs.
        -- apply elem_of_cons in Hin as [->|Hin]; [exact Hadv|now apply H].
        -- apply H; [now apply list_elem_of_further|exact Hs].
    + rewrite IH. split; intros H s Hin Hs.
      * apply elem_of_cons in Hin as [->|Hin]; [congruence|now apply H].
      * apply H; [now apply list_elem_of_further|exact Hs].
Qed.

Lemma flat_map_agree {A B : Type} (f g : A -> list B) (l : list A) :
  (forall x, x ∈ l -> f x = g x) -> flat_map f l = flat_map g l.
Proof.
  induction l as [|x l IH]; intros H; simpl; [reflexivity|].
  rewrite (H x (list_elem_of_here _ _)), IH; [reflexivity|].
  intros y Hy. apply H. now apply list_elem_of_further.
Qed.

Lemma candidate_events_delete (callbacks : update_tips_cb)
    (store : gmap string git_reference) (refname : string) (candidate : option string) :
  candidate <> Some refname ->
  candidate_events callbacks (delete refname store) candidate
  = candidate_events callbacks store candidate.
Proof.
  destruct candidate as [n|]; [|reflexivity]. intros Hne.
  unfold candidate_events, prune_events.
  rewrite lookup_delete_ne; [reflexivity|congruence].
Qed.

(** The second pass, when the hook never answers with a negative value:
    every candidate left in the list that is a direct reference is
    removed, in order, and nothing else is touched. *)
Lemma prune_loop_spec (callbacks : update_tips_cb) :
  never_negative callbacks ->
  forall (candidates : list (option string)) (error : Z) (st : repo_state),
    NoDup (omap id candidates) ->
    (forall n, refs (snd (prune_loop callbacks candidates error st)) !! n
               = if bool_decide (Some n ∈ candidates) && is_direct (refs st !! n)
                 then None else refs st !! n)
    /\ tips_log (snd (prune_loop callbacks candidates error st))
       = tips_log st ++ flat_map (candidate_events callbacks (refs st)) candidates.
Proof.
  intros Hcb. induction candidates as [|[m|] rest IH]; intros error st Hnd.
  - simpl. split; [|now rewrite app_nil_r].
    intros n. reflexivity.
  - simpl in Hnd. apply NoDup_cons in Hnd as [Hm Hnd].
    assert (Hrest : Some m ∉ rest).
    { intros Hin. apply Hm. apply list_elem_of_omap. exists (Some m). auto. }
    assert (Hother : forall n, n <> m ->
              bool_decide (Some n ∈ Some m :: rest) = bool_decide (Some n ∈ rest)).
    { intros n Hne. apply bool_decide_ext. rewrite elem_of_cons.
      split; [intros [Heq|Hin]; [congruence|exact Hin]|auto]. }
    assert (Hskip : forall e, refs st !! m = None \/ (exists t, refs st !! m = Some (ref_symbolic t)) ->
              (forall n, refs (snd (prune_loop callbacks rest e st)) !! n
                 = if bool_decide (Some n ∈ Some m :: rest) && is_direct (refs st !! n)
                   then None else refs st !! n)
              /\ tips_log (snd (prune_loop callbacks rest e st))
                 = tips_log st ++ flat_map (candidate_events callbacks (refs st)) (Some m :: rest)).
    { intros e Hm'. destruct (IH e st Hnd) as [Hrefs Hlog]. split.
      - intros n. rewrite Hrefs. destruct (decide (n = m)) as [->|Hne].
        + assert (is_direct (refs st !! m) = false) as ->
            by (destruct Hm' as [->|[t ->]]; reflexivity).
          now rewrite !andb_false_r.
        + now rewrite (Hother n Hne).
      - rewrite Hlog. simpl. unfold prune_events.
        destruct Hm' as [->|[t ->]]; reflexivity. }
    simpl prune_loop. destruct (refs st !! m) as [[id|t]|] eqn:Hlook.
    + set (st1 := {| refs := delete m (refs st); odb := odb st; tips_log := tips_log st |}).
      assert (Hgoal : forall e st2, refs st2 = delete m (refs st) ->
                tips_log st2 = tips_log st ++ prune_events callbacks (refs st) m ->
                (forall n, refs (snd (prune_loop callbacks rest e st2)) !! n
                   = if bool_decide (Some n ∈ Some m :: rest) && is_direct (refs st !! n)
                     then None else refs st !! n)
                /\ tips_log (snd (prune_loop callbacks rest e st2))
                   = tips_log st ++ flat_map (candidate_events callbacks (refs st))
                                      (Some m :: rest)).
      { intros e st2 Hrefs2 Hlog2. destruct (IH e st2 Hnd) as [Hrefs Hlog]. split.
        - intros n. rewrite Hrefs, Hrefs2. destruct (decide (n = m)) as [->|Hne].
          + rewrite lookup_delete_eq, Hlook.
            rewrite (bool_decide_eq_true_2 (Some m ∈ Some m :: rest))
              by apply list_elem_of_here.
            now rewrite andb_false_r.
          + rewrite lookup_delete_ne by congruence. now rewrite (Hother n Hne).
        - rewrite Hlog, Hlog2, Hrefs2. simpl. rewrite <- app_assoc. do 2 f_equal.
          apply flat_map_agree. intros c Hc. apply candidate_events_delete.
          intros ->. exact (Hrest Hc). }
      simpl. destruct callbacks as [update_tips|].
      * assert ((update_tips m id zero_id <? 0) = false) as ->
          by (apply Z.ltb_ge; apply Hcb).
        apply Hgoal; [reflexivity|].
        unfold prune_events. rewrite Hlook. simpl. now rewrite <- app_assoc.
      * apply Hgoal; [reflexivity|].
        unfold prune_events. rewrite Hlook. reflexivity.
    + apply Hskip. right. eauto.
    + apply Hskip. now left.
  - simpl in *. destruct (IH error st Hnd) as [Hrefs Hlog]. split; [|exact Hlog].
    intros n. rewrite Hrefs.
    replace (bool_decide (Some n ∈ None :: rest)) with (bool_decide (Some n ∈ rest));
      [reflexivity|].
    apply bool_decide_ext. rewrite elem_of_cons.
    split; [auto|intros [Heq|Hin]; [discriminate Heq|exact Hin]].
Qed.

(** The candidate list after the first pass. *)
Definition first_pass (p found : string -> bool) (names : list string)
  : list (option string) :=
  map (fun refname => if found refname then None else Some refname) (List.filter p names).

Lemma first_pass_elem (p found : string -> bool) (names : list string) (n : string) :
  Some n ∈ first_pass p found names <-> n ∈ names /\ p n = true /\ found n = false.
Proof.
  unfold first_pass. induction names as [|x names IH]; simpl.
  - split; [intros H; now apply elem_of_nil in H|intros [H _]; now apply elem_of_nil in H].
  - destruct (p x) eqn:Hp; simpl.
    + rewrite !elem_of_cons, IH. destruct (found x) eqn:Hf.
      * split.
        -- intros [Heq|(Hin & Hpn & Hfn)]; [discriminate Heq|auto].
        -- intros ([->|Hin] & Hpn & Hfn); [congruence|auto].
      * split.
        -- intros [Heq|(Hin & Hpn & Hfn)]; [injection Heq as ->; auto|auto].
        -- intros ([->|Hin] & Hpn & Hfn); auto.
    + rewrite elem_of_cons, IH. split.
      * intros (Hin & Hpn & Hfn); auto.
      * intros ([->|Hin] & Hpn & Hfn); [congruence|auto].
Qed.

Lemma first_pass_NoDup (p found : string -> bool) (names : list string) :
  NoDup names -> NoDup (omap id (first_pass p found names)).
Proof.
  induction 1 as [|x names Hx Hnd IH]; [constructor|].
  unfold first_pass in *. simpl. destruct (p x); simpl; [|exact IH].
  destruct (found x); simpl; [exact IH|].
  constructor; [|exact IH]. intros Hin.
  apply list_elem_of_omap in Hin as (c & Hc & Hid). simpl in Hid. subst c.
  apply (first_pass_elem p found names x) in Hc as [Hc _]. exact (Hx Hc).
Qed.

Lemma first_pass_events (callbacks : update_tips_cb) (store : gmap string git_reference)
    (p found : string -> bool) (names : list string) :
  flat_map (candidate_events callbacks store) (first_pass p found names)
  = flat_map (prune_events callbacks store)
      (List.filter (fun n => is_direct (store !! n) && p n && negb (found n)) names).
Proof.
  unfold first_pass. induction names as [|x names IH]; simpl; [reflexivity|].
  destruct (p x); simpl.
  - destruct (found x); simpl.
    + rewrite !andb_false_r. exact IH.
    + rewrite !andb_true_r. destruct (is_direct (store !! x)) eqn:Hd; simpl.
      * now rewrite IH.
      * rewrite IH. unfold prune_events.
        destruct (store !! x) as [[id|t]|]; [discriminate Hd|reflexivity|reflexivity].
  - rewrite andb_false_r. exact IH.
Qed.


(** *** Opportunistic updates and the hook *)

(** In [opportunistic_updates] a negative answer of the hook leaves the
    loop through [cleanup] with [error] still holding the result of the
    create, so the function reports 0: when the first match of
    [next_head] names a reference that does not exist yet and the hook
    answers its call with a negative value, the reference is created, the
    hook is called once, nothing else is done and the result is 0. *)
Theorem opportunistic_abort_reports_success (remote : git_remote)
    (f : string -> git_oid -> git_oid -> Z) (refs_ : list git_remote_head)
    (st : repo_state) (spec : git_refspec) (head : git_remote_head) (i j k : nat) :
  next_head remote refs_ 0 0 0 = Some (spec, head, i, j, k) ->
  refs st !! git_refspec_transform spec (rh_name head) = None ->
  rh_oid head <> zero_id ->
  f (git_refspec_transform spec (rh_name head)) zero_id (rh_oid head) < 0 ->
  exists st',
    opportunistic_updates remote (Some f) refs_ st = Some (0, st')
    /\ refs st' = <[git_refspec_transform spec (rh_name head) := ref_direct (rh_oid head)]>
                    (refs st)
    /\ tips_log st'
       = tips_log st
         ++ [ev_create (git_refspec_transform spec (rh_name head)) (rh_oid head) true 0;
             ev_update_tips (git_refspec_transform spec (rh_name head)) zero_id
               (rh_oid head)
               (f (git_refspec_transform spec (rh_name head)) zero_id (rh_oid head))].
Proof.
  intros Hnext Hnone Hid Hneg.
  unfold opportunistic_updates. cbn [opportunistic_loop]. rewrite Hnext.
  unfold git_reference_name_to_id, MAX_NESTING_LEVEL. cbn [resolve]. rewrite Hnone.
  change (GIT_ENOTFOUND <? 0) with true.
  change (GIT_ENOTFOUND =? GIT_ENOTFOUND) with true.
  change (GIT_ENOTFOUND =? 0) with false.
  cbn [andb negb].
  destruct (git_oid_cmp zero_id (rh_oid head) =? 0) eqn:Hcmp.
  { apply Z.eqb_eq, git_oid_cmp_0 in Hcmp. congruence. }
  unfold git_reference_create. rewrite Hnone. cbn [negb andb].
  rewrite andb_false_r. change (0 <? 0) with false. cbv iota.
  apply Z.ltb_lt in Hneg. rewrite Hneg.
  eexists. split; [reflexivity|]. split; [reflexivity|].
  simpl. now rewrite <- app_assoc.
Qed.

(** *** Prune, whatever the hook answers *)

Lemma pruned_spec (remote : git_remote) (remote_refs : list git_remote_head)
    (st : repo_state) (n : string) :
  pruned remote remote_refs st n = true
  <-> (exists id, refs st !! n = Some (ref_direct id))
      /\ (exists spec, spec ∈ active_refspecs remote /\ rs_push spec = false
                       /\ git_refspec_dst_matches spec n = true)
      /\ (forall spec, spec ∈ active_refspecs remote ->
            git_refspec_dst_matches spec n = true ->
            advertised remote_refs (git_refspec_rtransform spec n) = false).
Proof.
  unfold pruned. rewrite !andb_true_iff, negb_true_iff.
  rewrite bool_decide_eq_true, matching_dst_refspec_spec, source_found_spec.
  split.
  - intros [[Hd Hm] Hs]. split; [|auto].
    destruct (refs st !! n) as [[id|t]|]; try discriminate Hd. eauto.
  - intros ([id Hid] & Hm & Hs). rewrite Hid. auto.
Qed.

Lemma prune_loop_safe (callbacks : update_tips_cb) (candidates : list (option string)) :
  forall (error : Z) (st : repo_state) (n : string),
    refs (snd (prune_loop callbacks candidates error st)) !! n = refs st !! n
    \/ (refs (snd (prune_loop callbacks candidates error st)) !! n = None
        /\ Some n ∈ candidates /\ is_direct (refs st !! n) = true).
Proof.
  induction candidates as [|[m|] rest IH]; intros error st n; simpl prune_loop.
  - now left.
  - assert (Hkeep : forall e,
              refs (snd (prune_loop callbacks rest e st)) !! n = refs st !! n
              \/ (refs (snd (prune_loop callbacks rest e st)) !! n = None
                  /\ Some n ∈ Some m :: rest /\ is_direct (refs st !! n) = true)).
    { intros e. destruct (IH e st n) as [H|(H1 & H2 & H3)]; [now left|right].
      split; [exact H1|]. split; [now apply list_elem_of_further|exact H3]. }
    destruct (refs st !! m) as [[id|t]|] eqn:Hlook; [|apply Hkeep|apply Hkeep].
    assert (Hgone : forall st2 : repo_state, refs st2 = delete m (refs st) ->
              forall res : repo_state,
                (refs res !! n = refs st2 !! n
                 \/ (refs res !! n = None /\ Some n ∈ rest
                     /\ is_direct (refs st2 !! n) = true)) ->
                refs res !! n = refs st !! n
                \/ (refs res !! n = None /\ Some n ∈ Some m :: rest
                    /\ is_direct (refs st !! n) = true)).
    { intros st2 Hst2 res Hres. rewrite Hst2 in Hres.
      destruct (decide (n = m)) as [->|Hne].
      - rewrite lookup_delete_eq in Hres. right.
        split; [destruct Hres as [H|[H _]]; exact H|].
        split; [apply list_elem_of_here|now rewrite Hlook].
      - rewrite lookup_delete_ne in Hres by congruence.
        destruct Hres as [H|(H1 & H2 & H3)]; [now left|right].
        split; [exact H1|]. split; [now apply list_elem_of_further|exact H3]. }
    simpl. destruct callbacks as [update_tips|].
    + destruct (update_tips m id zero_id <? 0).
      * eapply Hgone; [|left; reflexivity]. reflexivity.
      * eapply Hgone; [|apply IH]. reflexivity.
    + eapply Hgone; [|apply IH]. reflexivity.
  - destruct (IH error st n) as [H|(H1 & H2 & H3)]; [now left|right].
    split; [exact H1|]. split; [now apply list_elem_of_further|exact H3].
Qed.

Lemma prune_loop_odb (callbacks : update_tips_cb) (candidates : list (option string)) :
  forall (error : Z) (st : repo_state),
    odb (snd (prune_loop callbacks candidates error st)) = odb st.
Proof.
  induction candidates as [|[m|] rest IH]; intros error st; simpl prune_loop;
    [reflexivity| |apply IH].
  destruct (refs st !! m) as [[id|t]|]; [|apply IH|apply IH].
  simpl. destruct callbacks as [update_tips|].
  - destruct (update_tips m id zero_id <? 0); [reflexivity|]. now rewrite IH.
  - now rewrite IH.
Qed.

(** Whatever the hook answers, also when it stops the pruning with a
    negative value, [git_remote_prune] touches no reference other than
    the ones it is meant to remove: every reference is either as it was,
    or it is gone and it was a direct reference whose name
    destination-matches an active fetch refspec and for which no active
    refspec that destination-matches it has its reverse transform among
    the advertised heads.  The object database is left alone. *)
Theorem prune_only_orphans (remote : git_remote) (callbacks : update_tips_cb)
    (st : repo_state) (n : string) :
  odb (snd (git_remote_prune remote callbacks st)) = odb st
  /\ (refs (snd (git_remote_prune remote callbacks st)) !! n = refs st !! n
      \/ (refs (snd (git_remote_prune remote callbacks st)) !! n = None
          /\ (exists id, refs st !! n = Some (ref_direct id))
          /\ (exists spec, spec ∈ active_refspecs remote /\ rs_push spec = false
                           /\ git_refspec_dst_matches spec n = true)
          /\ exists remote_refs,
               heads remote = Some remote_refs
               /\ forall spec, spec ∈ active_refspecs remote ->
                    git_refspec_dst_matches spec n = true ->
                    advertised remote_refs (git_refspec_rtransform spec n) = false)).
Proof.
  unfold git_remote_prune. destruct (heads remote) as [remote_refs|] eqn:Hheads.
  2:{ split; [reflexivity|now left]. }
  split; [apply prune_loop_odb|].
  unfold prune_candidates.
  set (p := fun refname => bool_decide (is_Some
              (git_remote__matching_dst_refspec (active_refspecs remote) refname))).
  set (found := source_found (active_refspecs remote) remote_refs).
  change (map _ (List.filter p (git_reference_list st)))
    with (first_pass p found (git_reference_list st)).
  destruct (prune_loop_safe callbacks (first_pass p found (git_reference_list st)) 0 st n)
    as [H|(Hnone & Hin & Hd)]; [now left|right].
  split; [exact Hnone|].
  apply first_pass_elem in Hin as (_ & Hp & Hf).
  assert (Hpruned : pruned remote remote_refs st n = true).
  { unfold pruned. fold p found. fold (p n). now rewrite Hd, Hp, Hf. }
  apply pruned_spec in Hpruned as (Hid & Hm & Hs).
  split; [exact Hid|]. split; [exact Hm|]. exists remote_refs. auto.
Qed.

(** What a prune with a well-behaved hook leaves: the store and the log. *)
Lemma prune_store (remote : git_remote) (callbacks : update_tips_cb)
    (st : repo_state) (remote_refs : list git_remote_head) :
  heads remote = Some remote_refs ->
  never_negative callbacks ->
  (forall n, refs (snd (git_remote_prune remote callbacks st)) !! n
             = if pruned remote remote_refs st n then None else refs st !! n)
  /\ tips_log (snd (git_remote_prune remote callbacks st))
     = tips_log st
       ++ flat_map (prune_events callbacks (refs st))
            (List.filter (pruned remote remote_refs st) (git_reference_list st)).
Proof.
  intros Hheads Hcb. unfold git_remote_prune. rewrite Hheads.
  unfold prune_candidates.
  set (p := fun refname => bool_decide (is_Some
              (git_remote__matching_dst_refspec (active_refspecs remote) refname))).
  set (found := source_found (active_refspecs remote) remote_refs).
  change (map _ (List.filter p (git_reference_list st)))
    with (first_pass p found (git_reference_list st)).
  assert (Hnd : NoDup (git_reference_list st)) by apply NoDup_fst_map_to_list.
  destruct (prune_loop_spec callbacks Hcb (first_pass p found (git_reference_list st)) 0 st
              (first_pass_NoDup p found _ Hnd)) as [Hrefs Hlog].
  split.
  - intros n. rewrite Hrefs.
    enough (Hb : bool_decide (Some n ∈ first_pass p found (git_reference_list st))
                 && is_direct (refs st !! n) = pruned remote remote_refs st n)
      by now rewrite Hb.
    unfold pruned. fold p found. fold (p n).
    destruct (is_direct (refs st !! n)) eqn:Hd; [|now rewrite andb_false_r].
    rewrite andb_true_r. simpl.
    destruct (p n) eqn:Hp, (found n) eqn:Hf; simpl;
      try (apply bool_decide_eq_false_2; rewrite first_pass_elem; intros (_ & ? & ?); congruence).
    apply bool_decide_eq_true_2. rewrite first_pass_elem. split; [|auto].
    unfold git_reference_list. apply list_elem_of_fmap.
    destruct (refs st !! n) as [r|] eqn:Hlook; [|discriminate Hd].
    exists (n, r). split; [reflexivity|]. now apply elem_of_map_to_list.
  - rewrite Hlog, first_pass_events. reflexivity.
Qed.

Lemma filter_none {A : Type} (f : A -> bool) (l : list A) :
  (forall x, f x = false) -> List.filter f l = [].
Proof.
  intros H. induction l as [|x l IH]; simpl; [reflexivity|]. now rewrite H.
Qed.

(** Pruning is idempotent: after a prune with a hook that never returns
    a negative value, a second prune against the same advertised heads
    removes nothing, logs nothing and fires no hook. *)
Theorem prune_twice (remote : git_remote) (callbacks : update_tips_cb)
    (st : repo_state) (remote_refs : list git_remote_head) :
  heads remote = Some remote_refs ->
  never_negative callbacks ->
  let once := snd (git_remote_prune remote callbacks st) in
  let twice := snd (git_remote_prune remote callbacks once) in
  refs twice = refs once /\ tips_log twice = tips_log once /\ odb twice = odb once.
Proof.
  intros Hheads Hcb once twice.
  destruct (prune_store remote callbacks st remote_refs Hheads Hcb) as [Hrefs1 _].
  destruct (prune_store remote callbacks once remote_refs Hheads Hcb) as [Hrefs2 Hlog2].
  fold once in Hrefs1. fold twice in Hrefs2, Hlog2.
  assert (Hnone : forall n, pruned remote remote_refs once n = false).
  { intros n. unfold pruned. rewrite Hrefs1.
    destruct (pruned remote remote_refs st n) eqn:Hp; [reflexivity|].
    exact Hp. }
  split; [|split].
  - apply map_eq. intros n. now rewrite Hrefs2, Hnone.
  - rewrite Hlog2, (filter_none _ _ Hnone). simpl. apply app_nil_r.
  - unfold twice, git_remote_prune. rewrite Hheads. apply prune_loop_odb.
Qed.

(** *** What [git_remote_update_tips] never does *)













(** *** Fetching again when nothing moved *)

(** The name [update_tips_for_spec] writes a head to, for a refspec with
    a destination: the local [refname] when the loop reaches its length
    test (empty: the head is not wanted). *)
Definition tip_destination (tagopt : git_remote_autotag_option_t)
    (tagspec spec : git_refspec) (head : git_remote_head) : string :=
  let tagged := git_refspec_src_matches tagspec (rh_name head) && negb (is_none tagopt) in
  let autotag := tagged && is_auto tagopt in
  if negb autotag && git_refspec_src_matches spec (rh_name head)
  then git_refspec_transform spec (rh_name head)
  else if tagged then rh_name head else "".

Lemma update_tip_up_to_date (callbacks : update_tips_cb)
    (tagopt : git_remote_autotag_option_t) (tagspec spec : git_refspec)
    (head : git_remote_head) (st : repo_state) (update_heads : list git_remote_head) :
  is_Some (rs_dst spec) ->
  (git_reference_is_valid_name (rh_name head) = true ->
   strlen (tip_destination tagopt tagspec spec head) <> 0%nat ->
   refs st !! tip_destination tagopt tagspec spec head = Some (ref_direct (rh_oid head))) ->
  exists update_heads',
    update_tip callbacks tagopt tagspec spec head st update_heads
    = (Continue, st, update_heads').
Proof.
  intros Hdst Hup. unfold update_tip, tip_destination in *.
  destruct (git_reference_is_valid_name (rh_name head)); simpl; [|eauto].
  set (tagged := git_refspec_src_matches tagspec (rh_name head) && negb (is_none tagopt)) in *.
  set (autotag := tagged && is_auto tagopt) in *.
  rewrite (bool_decide_eq_true_2 _ Hdst). simpl negb. rewrite andb_false_r.
  set (refname := if negb autotag && git_refspec_src_matches spec (rh_name head)
                  then git_refspec_transform spec (rh_name head)
                  else if tagged then rh_name head else "") in *.
  destruct (strlen refname =? 0)%nat eqn:Hlen; [eauto|].
  apply Nat.eqb_neq in Hlen. specialize (Hup eq_refl Hlen).
  destruct (autotag && negb (git_odb_exists st (rh_oid head))); [eauto|].
  unfold git_reference_name_to_id, MAX_NESTING_LEVEL. cbn [resolve]. rewrite Hup.
  change (0 <? 0) with false. change (0 =? GIT_ENOTFOUND) with false. cbn [andb].
  assert (Hcmp : (git_oid_cmp (rh_oid head) (rh_oid head) =? 0) = true).
  { apply Z.eqb_eq. now apply git_oid_cmp_0. }
  rewrite Hcmp. eauto.
Qed.

(** When every wanted head is already where it belongs, that is when the
    destination of every advertised head with a valid name is a direct
    reference that holds the head's id, [update_tips_for_spec] for a
    refspec with a destination writes nothing and calls no hook: it
    returns the store and the log as they were, with 0 unless the write
    of FETCH_HEAD was asked for. *)
Theorem update_tips_up_to_date (callbacks : update_tips_cb) (update_fetchhead : bool)
    (tagopt : git_remote_autotag_option_t) (tagspec spec : git_refspec)
    (refs_ : list git_remote_head) (st : repo_state) :
  git_refspec__parse GIT_REFSPEC_TAGS true = Some tagspec ->
  is_Some (rs_dst spec) ->
  (forall head, head ∈ refs_ ->
     git_reference_is_valid_name (rh_name head) = true ->
     strlen (tip_destination tagopt tagspec spec head) <> 0%nat ->
     refs st !! tip_destination tagopt tagspec spec head
     = Some (ref_direct (rh_oid head))) ->
  snd (update_tips_for_spec callbacks update_fetchhead tagopt spec refs_ st) = st
  /\ (update_fetchhead = false ->
      fst (update_tips_for_spec callbacks update_fetchhead tagopt spec refs_ st) = 0).
Proof.
  intros Htags Hdst Hup. unfold update_tips_for_spec. rewrite Htags.
  assert (Hloop : forall uh, exists uh',
            update_tips_loop callbacks tagopt tagspec spec refs_ st uh
            = (Continue, st, uh')).
  { induction refs_ as [|head rest IH]; intros uh; simpl; [eauto|].
    destruct (update_tip_up_to_date callbacks tagopt tagspec spec head st uh Hdst)
      as [uh1 ->].
    - apply Hup. apply list_elem_of_here.
    - apply IH. intros h Hh. apply Hup. now apply list_elem_of_further. }
  destruct (Hloop []) as [uh' ->].
  split.
  - now destruct (update_fetchhead && _).
  - intros ->. reflexivity.
Qed.

(** *** What the opportunistic updates write *)

Lemma next_passive_sound (refname : string) (passive : list git_refspec) :
  forall (k : nat) (spec : git_refspec) (k' : nat),
    next_passive refname passive k = Some (spec, k') ->
    exists d, passive !! d = Some spec /\ k' = S (k + d)
              /\ git_refspec_src_matches spec refname = true.
Proof.
  induction passive as [|p rest IH]; intros k spec k' H; simpl in H; [discriminate H|].
  destruct (git_refspec_src_matches p refname) eqn:Hm; simpl in H.
  - injection H as <- <-. exists 0%nat. rewrite Nat.add_0_r. auto.
  - destruct (IH _ _ _ H) as (d & Hd & -> & Hs). exists (S d).
    split; [exact Hd|]. split; [f_equal; lia|exact Hs].
Qed.

Lemma next_active_sound (remote : git_remote) (refname : string)
    (active : list git_refspec) :
  forall (j k : nat) (spec : git_refspec) (j' k' : nat),
    next_active remote refname active j k = Some (spec, j', k') ->
    (exists d a, active !! d = Some a /\ j' = (j + d)%nat
                 /\ git_refspec_src_matches a refname = true)
    /\ (exists kk, passive_refspecs remote !! kk = Some spec /\ k' = S kk)
    /\ git_refspec_src_matches spec refname = true.
Proof.
  induction active as [|a rest IH]; intros j k spec j' k' H; simpl in H; [discriminate H|].
  assert (Hrest : forall k0, next_active remote refname rest (S j) k0 = Some (spec, j', k') ->
            (exists d a0, (a :: rest) !! d = Some a0 /\ j' = (j + d)%nat
                          /\ git_refspec_src_matches a0 refname = true)
            /\ (exists kk, passive_refspecs remote !! kk = Some spec /\ k' = S kk)
            /\ git_refspec_src_matches spec refname = true).
  { intros k0 H0. destruct (IH _ _ _ _ _ H0) as ((d & a0 & Hd & -> & Ha) & Hp & Hs).
    split; [|auto]. exists (S d), a0. split; [exact Hd|]. split; [lia|exact Ha]. }
  destruct (git_refspec_src_matches a refname) eqn:Hm; simpl in H; [|exact (Hrest _ H)].
  destruct (next_passive refname (drop k (passive_refspecs remote)) k)
    as [[pspec k1]|] eqn:Hp; [|exact (Hrest _ H)].
  injection H as <- <- <-.
  destruct (next_passive_sound _ _ _ _ _ Hp) as (d & Hd & -> & Hs).
  rewrite lookup_drop in Hd.
  split; [|split; [eauto|exact Hs]].
  exists 0%nat, a. rewrite Nat.add_0_r. auto.
Qed.

Lemma next_ref_sound (remote : git_remote) (refs_ : list git_remote_head) :
  forall (i j k : nat) (spec : git_refspec) (head : git_remote_head) (i' j' k' : nat),
    next_ref remote refs_ i j k = Some (spec, head, i', j', k') ->
    (exists d, refs_ !! d = Some head /\ i' = (i + d)%nat)
    /\ git_reference_is_valid_name (rh_name head) = true
    /\ (exists a, active_refspecs remote !! j' = Some a
                  /\ git_refspec_src_matches a (rh_name head) = true)
    /\ (exists kk, passive_refspecs remote !! kk = Some spec /\ k' = S kk)
    /\ git_refspec_src_matches spec (rh_name head) = true.
Proof.
  induction refs_ as [|h rest IH]; intros i j k spec head i' j' k' H; simpl in H;
    [discriminate H|].
  assert (Hrest : forall j0 k0,
            next_ref remote rest (S i) j0 k0 = Some (spec, head, i', j', k') ->
            (exists d, (h :: rest) !! d = Some head /\ i' = (i + d)%nat)
            /\ git_reference_is_valid_name (rh_name head) = true
            /\ (exists a, active_refspecs remote !! j' = Some a
                          /\ git_refspec_src_matches a (rh_name head) = true)
            /\ (exists kk, passive_refspecs remote !! kk = Some spec /\ k' = S kk)
            /\ git_refspec_src_matches spec (rh_name head) = true).
  { intros j0 k0 H0. destruct (IH _ _ _ _ _ _ _ _ H0) as ((d & Hd & ->) & Hrest).
    split; [|exact Hrest]. exists (S d). split; [exact Hd|lia]. }
  destruct (git_reference_is_valid_name (rh_name h)) eqn:Hv; simpl in H;
    [|exact (Hrest _ _ H)].
  destruct (next_active remote (rh_name h) (drop j (active_refspecs remote)) j k)
    as [[[pspec j1] k1]|] eqn:Ha; [|exact (Hrest _ _ H)].
  injection H as <- <- <- <- <-.
  destruct (next_active_sound _ _ _ _ _ _ _ _ Ha) as ((d & a & Hd & -> & Hm) & Hp & Hs).
  rewrite lookup_drop in Hd.
  split; [exists 0%nat; rewrite Nat.add_0_r; auto|].
  split; [exact Hv|]. split; [eauto|]. split; [exact Hp|exact Hs].
Qed.

(** What [next_head] stops at: an advertised head with a valid name that
    an active refspec and the passive refspec it yields both match. *)
Lemma next_head_sound (remote : git_remote) (refs_ : list git_remote_head)
    (i j k : nat) (spec : git_refspec) (head : git_remote_head) (i' j' k' : nat) :
  next_head remote refs_ i j k = Some (spec, head, i', j', k') ->
  refs_ !! i' = Some head
  /\ (i <= i')%nat
  /\ git_reference_is_valid_name (rh_name head) = true
  /\ (exists a, active_refspecs remote !! j' = Some a
                /\ git_refspec_src_matches a (rh_name head) = true)
  /\ (exists kk, passive_refspecs remote !! kk = Some spec /\ k' = S kk)
  /\ git_refspec_src_matches spec (rh_name head) = true.
Proof.
  unfold next_head. intros H.
  destruct (next_ref_sound _ _ _ _ _ _ _ _ _ _ H) as ((d & Hd & ->) & Hrest).
  rewrite lookup_drop in Hd. split; [exact Hd|]. split; [lia|exact Hrest].
Qed.

(** An event the opportunistic updates may log: the forced write of a
    head through a passive refspec, or the hook's call for it. *)
Definition opportunistic_event (remote : git_remote) (refs_ : list git_remote_head)
    (ev : tip_event) : Prop :=
  exists head spec a,
    head ∈ refs_ /\ spec ∈ passive_refspecs remote /\ a ∈ active_refspecs remote
    /\ git_reference_is_valid_name (rh_name head) = true
    /\ git_refspec_src_matches a (rh_name head) = true
    /\ git_refspec_src_matches spec (rh_name head) = true
    /\ match ev with
       | ev_create refname id force _ =>
           refname = git_refspec_transform spec (rh_name head)
           /\ id = rh_oid head /\ force = true
       | ev_update_tips refname _ id _ =>
           refname = git_refspec_transform spec (rh_name head) /\ id = rh_oid head
       | ev_delete _ => False
       end.

Lemma opportunistic_loop_events (remote : git_remote) (callbacks : update_tips_cb)
    (refs_ : list git_remote_head) (fuel : nat) :
  forall (i j k : nat) (st : repo_state) (e : Z) (st' : repo_state),
    opportunistic_loop fuel remote callbacks refs_ i j k st = Some (e, st') ->
    exists evs, tips_log st' = tips_log st ++ evs
                /\ Forall (opportunistic_event remote refs_) evs.
Proof.
  induction fuel as [|fuel IH]; intros i j k st e st' H; simpl in H; [discriminate H|].
  assert (Hnil : forall s : repo_state, exists evs,
            tips_log s = tips_log s ++ evs
            /\ Forall (opportunistic_event remote refs_) evs).
  { intros s. exists []. split; [now rewrite app_nil_r|constructor]. }
  destruct (next_head remote refs_ i j k) as [[[[[spec head] i1] j1] k1]|] eqn:Hnext.
  2:{ injection H as <- <-. apply Hnil. }
  destruct (next_head_sound _ _ _ _ _ _ _ _ _ _ Hnext)
    as (Hhead & _ & Hv & (a & Ha & Hma) & (kk & Hkk & _) & Hms).
  apply list_elem_of_lookup_2 in Hhead, Ha, Hkk.
  set (refname := git_refspec_transform spec (rh_name head)) in *.
  assert (Hcreate : forall force r, force = true ->
            opportunistic_event remote refs_ (ev_create refname (rh_oid head) force r)).
  { intros force r ->. exists head, spec, a. repeat split; auto. }
  assert (Hhook : forall old r,
            opportunistic_event remote refs_ (ev_update_tips refname old (rh_oid head) r)).
  { intros old r. exists head, spec, a. repeat split; auto. }
  destruct (git_reference_name_to_id st refname) as [err old].
  destruct ((err <? 0) && negb (err =? GIT_ENOTFOUND)).
  { injection H as <- <-. apply Hnil. }
  destruct (git_oid_cmp (if err =? 0 then old else zero_id) (rh_oid head) =? 0).
  { exact (IH _ _ _ _ _ _ H). }
  set (old' := if err =? 0 then old else zero_id) in *.
  assert (Hw : exists evs,
            tips_log (snd (if negb (err =? 0)
                           then git_reference_create st refname (rh_oid head) true
                           else git_reference_create_matching st refname (rh_oid head) old'))
            = tips_log st ++ evs
            /\ Forall (opportunistic_event remote refs_) evs).
  { assert (Hc : exists evs,
              tips_log (snd (git_reference_create st refname (rh_oid head) true))
              = tips_log st ++ evs
              /\ Forall (opportunistic_event remote refs_) evs).
    { unfold git_reference_create. rewrite andb_false_r. simpl.
      eexists. split; [reflexivity|]. constructor; [now apply Hcreate|constructor]. }
    destruct (negb (err =? 0)); [exact Hc|].
    unfold git_reference_create_matching.
    destruct (refs st !! refname) as [[cur|t]|]; try apply Hnil.
    destruct (cur =? old')%N; [exact Hc|apply Hnil]. }
  destruct (if negb (err =? 0)
            then git_reference_create st refname (rh_oid head) true
            else git_reference_create_matching st refname (rh_oid head) old')
    as [e1 st1].
  simpl in Hw. destruct Hw as (evs1 & Hlog1 & Hall1).
  destruct (e1 <? 0). { injection H as <- <-. eauto. }
  destruct callbacks as [update_tips|].
  - destruct (update_tips refname old' (rh_oid head) <? 0).
    + injection H as <- <-. eexists. split.
      * simpl. rewrite Hlog1, <- app_assoc. reflexivity.
      * apply Forall_app. split; [exact Hall1|]. constructor; [apply Hhook|constructor].
    + destruct (IH _ _ _ _ _ _ H) as (evs2 & Hlog2 & Hall2).
      eexists. split.
      * rewrite Hlog2. simpl. rewrite Hlog1, <- !app_assoc. reflexivity.
      * apply Forall_app. split; [exact Hall1|].
        apply Forall_app. split; [|exact Hall2].
        constructor; [apply Hhook|constructor].
  - destruct (IH _ _ _ _ _ _ H) as (evs2 & Hlog2 & Hall2).
    eexists. split.
    + rewrite Hlog2, Hlog1, <- app_assoc. reflexivity.
    + apply Forall_app. auto.
Qed.

(** [opportunistic_updates] writes only what a passive refspec asks for:
    everything it adds to the log is the forced write of an advertised
    head with a valid name, matched by an active and by a passive
    refspec, to that passive refspec's transform of the head's name, or
    the hook's call for such a write; it deletes nothing. *)
Theorem opportunistic_updates_events (remote : git_remote) (callbacks : update_tips_cb)
    (refs_ : list git_remote_head) (st st' : repo_state) (error : Z) :
  opportunistic_updates remote callbacks refs_ st = Some (error, st') ->
  exists evs, tips_log st' = tips_log st ++ evs
              /\ Forall (opportunistic_event remote refs_) evs.
Proof.
  unfold opportunistic_updates. apply opportunistic_loop_events.
Qed.

(** *** The opportunistic loop ends *)

Lemma next_passive_progress (refname : string) (passive : list git_refspec) :
  forall (k : nat) (spec : git_refspec) (k' : nat),
    next_passive refname passive k = Some (spec, k') ->
    (k < k' <= k + length passive)%nat.
Proof.
  induction passive as [|p rest IH]; intros k spec k' H; simpl in H; [discriminate H|].
  destruct (git_refspec_src_matches p refname); simpl in H.
  - injection H as <- <-. simpl. lia.
  - apply IH in H. simpl. lia.
Qed.

Lemma next_active_progress (remote : git_remote) (refname : string)
    (active : list git_refspec) :
  forall (j k : nat) (spec : git_refspec) (j' k' : nat),
    next_active remote refname active j k = Some (spec, j', k') ->
    (j <= j' < j + length active)%nat
    /\ (j' = j -> (k < k')%nat)
    /\ (k' <= length (passive_refspecs remote))%nat.
Proof.
  induction active as [|a rest IH]; intros j k spec j' k' H; simpl in H; [discriminate H|].
  assert (Hrest : forall k0, next_active remote refname rest (S j) k0 = Some (spec, j', k') ->
            (j <= j' < j + length (a :: rest))%nat
            /\ (j' = j -> (k < k')%nat)
            /\ (k' <= length (passive_refspecs remote))%nat).
  { intros k0 H0. destruct (IH _ _ _ _ _ H0) as (Hj & _ & Hk). simpl.
    split; [lia|]. split; [lia|exact Hk]. }
  destruct (git_refspec_src_matches a refname); simpl in H; [|exact (Hrest _ H)].
  destruct (next_passive refname (drop k (passive_refspecs remote)) k)
    as [[pspec k1]|] eqn:Hp; [|exact (Hrest _ H)].
  injection H as <- <- <-.
  apply next_passive_progress in Hp. rewrite length_drop in Hp. simpl. lia.
Qed.

Lemma next_ref_progress (remote : git_remote) (refs_ : list git_remote_head) :
  forall (i j k : nat) (spec : git_refspec) (head : git_remote_head) (i' j' k' : nat),
    next_ref remote refs_ i j k = Some (spec, head, i', j', k') ->
    (i <= i' < i + length refs_)%nat
    /\ (i' = i -> (j <= j')%nat /\ (j' = j -> (k < k')%nat))
    /\ (j' < length (active_refspecs remote))%nat
    /\ (k' <= length (passive_refspecs remote))%nat.
Proof.
  induction refs_ as [|h rest IH]; intros i j k spec head i' j' k' H; simpl in H;
    [discriminate H|].
  assert (Hrest : forall j0 k0,
            next_ref remote rest (S i) j0 k0 = Some (spec, head, i', j', k') ->
            (i <= i' < i + length (h :: rest))%nat
            /\ (i' = i -> (j <= j')%nat /\ (j' = j -> (k < k')%nat))
            /\ (j' < length (active_refspecs remote))%nat
            /\ (k' <= length (passive_refspecs remote))%nat).
  { intros j0 k0 H0. destruct (IH _ _ _ _ _ _ _ _ H0) as (Hi & _ & Hj & Hk). simpl.
    split; [lia|]. split; [lia|]. auto. }
  destruct (git_reference_is_valid_name (rh_name h)); simpl in H; [|exact (Hrest _ _ H)].
  destruct (next_active remote (rh_name h) (drop j (active_refspecs remote)) j k)
    as [[[pspec j1] k1]|] eqn:Ha; [|exact (Hrest _ _ H)].
  injection H as <- <- <- <- <-.
  destruct (next_active_progress _ _ _ _ _ _ _ _ Ha) as (Hj & Hk & Hp).
  rewrite length_drop in Hj. simpl. repeat split; try lia; auto.
Qed.

(** The place of a cursor in the order the three loops visit. *)
Definition cursor_rank (remote : git_remote) (i j k : nat) : nat :=
  (i * length (active_refspecs remote) + j) * S (length (passive_refspecs remote)) + k.

Lemma next_head_progress (remote : git_remote) (refs_ : list git_remote_head)
    (i j k : nat) (spec : git_refspec) (head : git_remote_head) (i' j' k' : nat) :
  (j < length (active_refspecs remote))%nat \/ j = 0%nat ->
  (k <= length (passive_refspecs remote))%nat ->
  next_head remote refs_ i j k = Some (spec, head, i', j', k') ->
  (cursor_rank remote i j k < cursor_rank remote i' j' k')%nat
  /\ (i' < length refs_)%nat
  /\ (j' < length (active_refspecs remote))%nat
  /\ (k' <= length (passive_refspecs remote))%nat.
Proof.
  intros Hj Hk H. unfold next_head in H.
  destruct (next_ref_progress _ _ _ _ _ _ _ _ _ _ H) as (Hi & Hlex & Hj' & Hk').
  rewrite length_drop in Hi.
  split; [|repeat split; try lia].
  unfold cursor_rank.
  set (A := length (active_refspecs remote)) in *.
  set (P := length (passive_refspecs remote)) in *.
  assert (HjA : (j < A)%nat) by lia.
  destruct (decide (i' = i)) as [->|Hne].
  - destruct (Hlex eq_refl) as [Hjj Hkk].
    destruct (decide (j' = j)) as [->|Hnj]; [specialize (Hkk eq_refl); lia|].
    assert ((i * A + j) + 1 <= i * A + j')%nat by lia. nia.
  - assert ((i * A + j) + 1 <= i' * A + j')%nat by nia. nia.
Qed.

Lemma cursor_rank_bound (remote : git_remote) (n i j k : nat) :
  (i < n)%nat ->
  (j < length (active_refspecs remote))%nat ->
  (k <= length (passive_refspecs remote))%nat ->
  (cursor_rank remote i j k
   < n * length (active_refspecs remote) * S (length (passive_refspecs remote)))%nat.
Proof.
  intros Hi Hj Hk. unfold cursor_rank.
  set (A := length (active_refspecs remote)) in *.
  set (P := length (passive_refspecs remote)) in *.
  assert ((i * A + j) + 1 <= n * A)%nat by nia. nia.
Qed.

Lemma opportunistic_loop_returns (remote : git_remote) (callbacks : update_tips_cb)
    (refs_ : list git_remote_head) (fuel : nat) :
  forall (i j k : nat) (st : repo_state),
    (j < length (active_refspecs remote))%nat \/ j = 0%nat ->
    (k <= length (passive_refspecs remote))%nat ->
    (cursor_rank remote i j k
     <= length refs_ * length (active_refspecs remote)
        * S (length (passive_refspecs remote)))%nat ->
    (length refs_ * length (active_refspecs remote)
       * S (length (passive_refspecs remote))
     < cursor_rank remote i j k + fuel)%nat ->
    is_Some (opportunistic_loop fuel remote callbacks refs_ i j k st).
Proof.
  induction fuel as [|fuel IH]; intros i j k st Hj Hk Hle Hfuel; [lia|].
  simpl.
  destruct (next_head remote refs_ i j k) as [[[[[spec head] i1] j1] k1]|] eqn:Hn;
    [|eauto].
  destruct (next_head_progress _ _ _ _ _ _ _ _ _ _ Hj Hk Hn) as (Hr & Hi1 & Hj1 & Hk1).
  pose proof (cursor_rank_bound remote (length refs_) i1 j1 k1 Hi1 Hj1 Hk1) as Hb.
  assert (Hnext : forall s, is_Some (opportunistic_loop fuel remote callbacks refs_ i1 j1 k1 s)).
  { intros s. apply IH; [now left|exact Hk1|lia|lia]. }
  destruct (git_reference_name_to_id st (git_refspec_transform spec (rh_name head)))
    as [err old].
  destruct ((err <? 0) && negb (err =? GIT_ENOTFOUND)); [eauto|].
  destruct (git_oid_cmp (if err =? 0 then old else zero_id) (rh_oid head) =? 0);
    [apply Hnext|].
  destruct (if negb (err =? 0)
            then git_reference_create st (git_refspec_transform spec (rh_name head))
                   (rh_oid head) true
            else git_reference_create_matching st
                   (git_refspec_transform spec (rh_name head)) (rh_oid head)
                   (if err =? 0 then old else zero_id)) as [e1 st1].
  destruct (e1 <? 0); [eauto|].
  destruct callbacks as [update_tips|]; [|apply Hnext].
  destruct (update_tips _ _ _ <? 0); [eauto|apply Hnext].
Qed.

(** The [while] loop of [opportunistic_updates] ends, and so does
    [git_remote_update_tips]: each stop of [next_head] is strictly later
    than the one before in the order the three nested loops visit, so
    there are at most |heads| * |active| * (|passive| + 1) turns; the
    functions return a result for every remote, store and hook. *)
Theorem update_tips_returns (remote : git_remote) (callbacks : update_tips_cb)
    (update_fetchhead : bool) (download_tags_ : git_remote_autotag_option_t)
    (refs_ : list git_remote_head) (st : repo_state) :
  is_Some (opportunistic_updates remote callbacks refs_ st)
  /\ is_Some (git_remote_update_tips remote callbacks update_fetchhead download_tags_ st).
Proof.
  assert (Hopp : forall l s, is_Some (opportunistic_updates remote callbacks l s)).
  { intros l s. unfold opportunistic_updates. apply opportunistic_loop_returns.
    - now right.
    - lia.
    - unfold cursor_rank. simpl. lia.
    - unfold cursor_rank. simpl.
      set (A := length (active_refspecs remote)).
      set (P := length (passive_refspecs remote)).
      assert (length l * A * S P <= length l * S A * S P)%nat by nia. lia. }
  split; [apply Hopp|].
  unfold git_remote_update_tips.
  destruct (push remote); [eauto|].
  destruct (git_refspec__parse GIT_REFSPEC_TAGS true) as [tagspec|]; [|eauto].
  destruct (heads remote) as [l|]; [|eauto].
  cbv zeta. destruct (truncate_fetch_head <? 0); [eauto|].
  destruct (match _ with
            | GIT_REMOTE_DOWNLOAD_TAGS_ALL => _
            | _ => _
            end) as [e1 st1].
  destruct (e1 <? 0); [eauto|].
  destruct (update_tips_specs _ _ _ _ _ _ _) as [e2 st2].
  destruct (e2 <? 0); [eauto|].
  destruct (passed_refspecs remote); [apply Hopp|eauto].
Qed.

(** *** Removing a remote's references ([git_remote_delete]) *)

(** Modelled from the spec: [git_reference_remove] of refs.c removes the
    reference of that name, symbolic or not, and reports not-found when
    there is none. *)
Definition git_reference_remove (st : repo_state) (refname : string) : Z * repo_state :=
  match refs st !! refname with
  | Some _ =>
      (0, log {| refs := delete refname (refs st); odb := odb st; tips_log := tips_log st |}
              (ev_delete refname))
  | None => (GIT_ENOTFOUND, st)
  end.

(** The second loop of [remove_refs]: [git_vector_foreach (&refs, i, name)]. *)
Fixpoint remove_names (names : list string) (error : Z) (st : repo_state)
  : Z * repo_state :=
  match names with
  | [] => (error, st)
  | refname :: rest =>
      let '(error, st) := git_reference_remove st refname in
      if error <? 0 then (error, st) else remove_names rest error st
  end.

(** [remove_refs]: collect the names that match the destination of
    [spec], then remove them. *)
Definition remove_refs (spec : git_refspec) (st : repo_state) : Z * repo_state :=
  let names := List.filter (fun refname => git_refspec_dst_matches spec refname)
                 (git_reference_list st) in
  remove_names names 0 st.

(** The loop of [remove_remote_tracking] over the refspecs of the remote
    as [git_remote_lookup] read them; [error] is 0 after the lookup. *)
Fixpoint remove_tracking_loop (refspecs : list git_refspec) (error : Z) (st : repo_state)
  : Z * repo_state :=
  match refspecs with
  | [] => (error, st)
  | refspec :: rest =>
      let '(error, st) := remove_refs refspec st in
      if error <? 0 then (error, st) else remove_tracking_loop rest error st
  end.

Lemma remove_names_spec (names : list string) :
  forall (error : Z) (st : repo_state),
    NoDup names ->
    (forall n, n ∈ names -> is_Some (refs st !! n)) ->
    (fst (remove_names names error st) = if names is [] then error else 0)
    /\ odb (snd (remove_names names error st)) = odb st
    /\ forall n, refs (snd (remove_names names error st)) !! n
                 = if bool_decide (n ∈ names) then None else refs st !! n.
Proof.
  induction names as [|m rest IH]; intros error st Hnd Hex.
  - simpl. repeat split.
  - apply NoDup_cons in Hnd as [Hm Hnd]. simpl remove_names.
    unfold git_reference_remove.
    destruct (Hex m (list_elem_of_here _ _)) as [r Hr]. rewrite Hr.
    change (0 <? 0) with false. cbv iota.
    set (st1 := log {| refs := delete m (refs st); odb := odb st;
                       tips_log := tips_log st |} (ev_delete m)).
    destruct (IH 0 st1 Hnd) as (Hfst & Hodb & Hrefs).
    { intros n Hn. simpl. rewrite lookup_delete_ne by (intros ->; exact (Hm Hn)).
      apply Hex. now apply list_elem_of_further. }
    split; [|split].
    + rewrite Hfst. now destruct rest.
    + exact Hodb.
    + intros n. rewrite Hrefs. simpl. destruct (decide (n = m)) as [->|Hne].
      * rewrite lookup_delete_eq.
        rewrite (bool_decide_eq_true_2 (m ∈ m :: rest)) by apply list_elem_of_here.
        now destruct (bool_decide (m ∈ rest)).
      * rewrite lookup_delete_ne by congruence.
        replace (bool_decide (n ∈ m :: rest)) with (bool_decide (n ∈ rest)); [reflexivity|].
        apply bool_decide_ext. rewrite elem_of_cons.
        split; [auto|intros [Heq|Hin]; [congruence|exact Hin]].
Qed.

Lemma elem_of_bool_filter {A : Type} (f : A -> bool) (l : list A) (x : A) :
  x ∈ List.filter f l <-> x ∈ l /\ f x = true.
Proof.
  rewrite !list_elem_of_In. apply filter_In.
Qed.

Lemma NoDup_bool_filter {A : Type} (f : A -> bool) (l : list A) :
  NoDup l -> NoDup (List.filter f l).
Proof.
  rewrite !NoDup_ListNoDup. apply List.NoDup_filter.
Qed.

Lemma git_reference_list_elem (st : repo_state) (n : string) :
  n ∈ git_reference_list st <-> is_Some (refs st !! n).
Proof.
  unfold git_reference_list. rewrite list_elem_of_fmap. split.
  - intros ([k r] & -> & Hin). apply elem_of_map_to_list in Hin. simpl. eauto.
  - intros [r Hr]. exists (n, r). split; [reflexivity|]. now apply elem_of_map_to_list.
Qed.

Lemma remove_refs_spec (spec : git_refspec) (st : repo_state) :
  fst (remove_refs spec st) = 0
  /\ odb (snd (remove_refs spec st)) = odb st
  /\ forall n, refs (snd (remove_refs spec st)) !! n
               = if git_refspec_dst_matches spec n then None else refs st !! n.
Proof.
  unfold remove_refs.
  set (names := List.filter (fun refname => git_refspec_dst_matches spec refname)
                  (git_reference_list st)).
  destruct (remove_names_spec names 0 st) as (Hfst & Hodb & Hrefs).
  { apply NoDup_bool_filter, NoDup_fst_map_to_list. }
  { intros n Hn. apply elem_of_bool_filter in Hn as [Hn _].
    now apply git_reference_list_elem. }
  split; [rewrite Hfst; now destruct names|]. split; [exact Hodb|].
  intros n. rewrite Hrefs.
  destruct (git_refspec_dst_matches spec n) eqn:Hm.
  - destruct (refs st !! n) as [r|] eqn:Hr.
    + rewrite bool_decide_eq_true_2; [reflexivity|].
      apply elem_of_bool_filter. split; [|exact Hm].
      apply git_reference_list_elem. rewrite Hr. eauto.
    + now destruct (bool_decide (n ∈ names)).
  - rewrite bool_decide_eq_false_2; [reflexivity|].
    intros Hn. apply elem_of_bool_filter in Hn as [_ Hn]. congruence.
Qed.

(** The reference part of [git_remote_delete]: for the refspecs of the
    remote, [remove_remote_tracking] succeeds and removes exactly the
    references whose name matches the destination of one of them.  It
    makes no difference whether a refspec is a fetch or a push refspec,
    nor whether a reference is symbolic; every other reference and the
    object database are left as they were. *)
Theorem remove_tracking_removes (refspecs : list git_refspec) (st : repo_state) :
  fst (remove_tracking_loop refspecs 0 st) = 0
  /\ odb (snd (remove_tracking_loop refspecs 0 st)) = odb st
  /\ forall n, refs (snd (remove_tracking_loop refspecs 0 st)) !! n
               = if existsb (fun spec => git_refspec_dst_matches spec n) refspecs
                 then None else refs st !! n.
Proof.
  revert st. induction refspecs as [|spec rest IH]; intros st; simpl.
  - repeat split.
  - destruct (remove_refs_spec spec st) as (Hfst & Hodb & Hrefs).
    destruct (remove_refs spec st) as [e st1]. simpl in Hfst, Hodb, Hrefs. subst e.
    change (0 <? 0) with false. cbv iota.
    destruct (IH st1) as (Hfst' & Hodb' & Hrefs').
    split; [exact Hfst'|]. split; [congruence|].
    intros n. rewrite Hrefs', Hrefs.
    destruct (git_refspec_dst_matches spec n); simpl; [|reflexivity].
    now destruct (existsb _ rest).
Qed.

End WithOps.

(** *** Concrete runs, with the model of refspec.c *)

#[local] Instance model_ops : RefspecOps := {|
  git_refspec__parse := RefspecModel.git_refspec__parse;
  git_refspec_src_matches := RefspecModel.git_refspec_src_matches;
  git_refspec_dst_matches := RefspecModel.git_refspec_dst_matches;
  git_refspec_transform := RefspecModel.git_refspec_transform;
  git_refspec_rtransform := RefspecModel.git_refspec_rtransform;
  git_reference_is_valid_name := RefspecModel.valid_ref_name
|}.

Definition fetch_spec (src dst : string) : git_refspec :=
  {| rs_string := "+" +:+ src +:+ ":" +:+ dst; rs_src := src; rs_dst := Some dst;
     rs_force := true; rs_push := false; rs_pattern := true |}.

Definition origin_heads : git_refspec := fetch_spec "refs/heads/*" "refs/remotes/origin/*".

Definition head_at (name : string) (id : git_oid) : git_remote_head :=
  {| rh_name := name; rh_oid := id; rh_symref_target := None |}.

Definition empty_repo : repo_state := {| refs := ∅; odb := ∅; tips_log := [] |}.

Definition fetchhead_ok : git_refspec -> list git_remote_head -> Z := fun _ _ => 0.

(** **** The hook's return value *)

Definition two_heads : list git_remote_head :=
  [head_at "refs/heads/main" 10%N; head_at "refs/heads/dev" 11%N].

(** The claim in the spec's words: a call of the hook that returns
    anything but zero is the last thing the run does, and the run fails. *)
Definition nonzero_aborts_claim : Prop :=
  forall (ops : RefspecOps) write f update_fetchhead tagopt spec refs_ st
         before refname a b r after,
    tips_log (snd (update_tips_for_spec write (Some f) update_fetchhead tagopt spec refs_ st))
    = before ++ ev_update_tips refname a b r :: after ->
    r <> 0 ->
    after = []
    /\ fst (update_tips_for_spec write (Some f) update_fetchhead tagopt spec refs_ st) = -1.

(** A hook that answers -1 stops the run at the first head. *)
Example negative_return_aborts :
  let result := update_tips_for_spec fetchhead_ok (Some (fun _ _ _ => -1)) false
                  GIT_REMOTE_DOWNLOAD_TAGS_AUTO origin_heads two_heads empty_repo in
  fst result = -1
  /\ tips_log (snd result)
     = [ev_create "refs/remotes/origin/main" 10%N true 0;
        ev_update_tips "refs/remotes/origin/main" zero_id 10%N (-1)]
  /\ refs (snd result) !! "refs/remotes/origin/dev" = None.
Proof. vm_compute. auto. Qed.

(** C4, counterexample.  The hook answers 1 for every reference: the run
    goes on to the second head, creates its reference too, and returns 0. *)
Lemma positive_return_does_not_abort :
  fst (update_tips_for_spec fetchhead_ok (Some (fun _ _ _ => 1)) false
         GIT_REMOTE_DOWNLOAD_TAGS_AUTO origin_heads two_heads empty_repo) = 0
  /\ tips_log (snd (update_tips_for_spec fetchhead_ok (Some (fun _ _ _ => 1)) false
                      GIT_REMOTE_DOWNLOAD_TAGS_AUTO origin_heads two_heads empty_repo))
     = [ev_create "refs/remotes/origin/main" 10%N true 0;
        ev_update_tips "refs/remotes/origin/main" zero_id 10%N 1;
        ev_create "refs/remotes/origin/dev" 11%N true 0;
        ev_update_tips "refs/remotes/origin/dev" zero_id 11%N 1]
  /\ ~ nonzero_aborts_claim.
Proof.
  split; [reflexivity|]. split; [reflexivity|].
  intros H.
  destruct (H model_ops fetchhead_ok (fun _ _ _ => 1) false
              GIT_REMOTE_DOWNLOAD_TAGS_AUTO origin_heads two_heads empty_repo
              [ev_create "refs/remotes/origin/main" 10%N true 0]
              "refs/remotes/origin/main" zero_id 10%N 1
              [ev_create "refs/remotes/origin/dev" 11%N true 0;
               ev_update_tips "refs/remotes/origin/dev" zero_id 11%N 1]
              eq_refl) as [Hafter _]; [discriminate|].
  discriminate Hafter.
Qed.

(** **** Tags *)

Definition tags_spec : git_refspec :=
  {| rs_string := GIT_REFSPEC_TAGS; rs_src := "refs/tags/*"; rs_dst := Some "refs/tags/*";
     rs_force := false; rs_push := false; rs_pattern := true |}.

Example tags_spec_parsed : git_refspec__parse GIT_REFSPEC_TAGS true = Some tags_spec.
Proof. reflexivity. Qed.

Definition v1 : git_remote_head := head_at "refs/tags/v1" 7%N.

(** A repository that already holds object 7. *)
Definition tag_store : repo_state := {| refs := ∅; odb := {[7%N]}; tips_log := [] |}.

Definition tag_run : control * repo_state * list git_remote_head :=
  update_tip None GIT_REMOTE_DOWNLOAD_TAGS_AUTO tags_spec origin_heads v1 tag_store [].

Lemma tag_head_policy_witness :
  snd (fst tag_run) = tag_store
  \/ exists refname,
       refname = "refs/tags/v1"
       /\ (true = true -> git_odb_exists tag_store 7%N = true)
       /\ let '(e, created) := git_reference_create tag_store refname 7%N false in
          (e = GIT_EEXISTS /\ fst (fst tag_run) = Continue /\ snd (fst tag_run) = created
           /\ refs (snd (fst tag_run)) = refs tag_store)
          \/ (e = 0
              /\ refs (snd (fst tag_run)) = <[refname := ref_direct 7%N]> (refs tag_store)
              /\ (true = true -> refs tag_store !! refname = None)).
Proof.
  exact (tag_head_policy None GIT_REMOTE_DOWNLOAD_TAGS_AUTO tags_spec origin_heads v1
           tag_store (snd (fst tag_run)) [] (snd tag_run) (fst (fst tag_run))
           eq_refl eq_refl eq_refl).
Defined.

(** Under AUTO a tag whose object is missing is not created, and an
    existing tag is not overwritten. *)
Example auto_tag_needs_object :
  update_tip None GIT_REMOTE_DOWNLOAD_TAGS_AUTO tags_spec origin_heads v1 empty_repo []
  = (Continue, empty_repo, []).
Proof. reflexivity. Qed.

Example auto_tag_keeps_existing :
  let st := {| refs := {["refs/tags/v1" := ref_direct 3%N]}; odb := {[7%N]};
               tips_log := [] |} in
  let result := update_tip None GIT_REMOTE_DOWNLOAD_TAGS_AUTO tags_spec origin_heads v1 st [] in
  fst (fst result) = Continue
  /\ refs (snd (fst result)) !! "refs/tags/v1" = Some (ref_direct 3%N)
  /\ tips_log (snd (fst result)) = [ev_create "refs/tags/v1" 7%N false GIT_EEXISTS].
Proof. vm_compute. auto. Qed.

(** The claim in the spec's words: a head that matches the tag refspec,
    under a policy other than NONE, is only ever written under its own
    name. *)
Definition tag_verbatim_claim : Prop :=
  forall (ops : RefspecOps) callbacks tagopt tagspec spec head st update_heads
         refname id force result,
    git_refspec_src_matches tagspec (rh_name head) = true ->
    is_none tagopt = false ->
    tips_log st = [] ->
    ev_create refname id force result
      ∈ tips_log (snd (fst (update_tip callbacks tagopt tagspec spec head st update_heads))) ->
    refname = rh_name head.

Definition mirror_tags : git_refspec :=
  fetch_spec "refs/tags/*" "refs/remotes/origin/tags/*".

(** C5, counterexample.  Policy ALL and a refspec that maps the tags
    elsewhere: the tag [refs/tags/v1] is written to
    [refs/remotes/origin/tags/v1], not under its own name. *)
Lemma all_policy_follows_refspec :
  update_tip None GIT_REMOTE_DOWNLOAD_TAGS_ALL tags_spec mirror_tags v1 empty_repo []
  = (Continue,
     {| refs := {["refs/remotes/origin/tags/v1" := ref_direct 7%N]}; odb := ∅;
        tips_log := [ev_create "refs/remotes/origin/tags/v1" 7%N true 0] |},
     [v1])
  /\ ~ tag_verbatim_claim.
Proof.
  split; [reflexivity|].
  intros H.
  specialize (H model_ops None GIT_REMOTE_DOWNLOAD_TAGS_ALL tags_spec mirror_tags v1
                empty_repo [] "refs/remotes/origin/tags/v1" 7%N true 0
                eq_refl eq_refl eq_refl).
  assert (Hname : "refs/remotes/origin/tags/v1" = rh_name v1).
  { apply H. apply list_elem_of_here. }
  discriminate Hname.
Qed.

(** **** Opportunistic updates *)

Definition upstream_heads : git_refspec :=
  fetch_spec "refs/heads/*" "refs/remotes/upstream/*".

(** A fetch with the refspec [origin_heads] passed in, while the
    configured one is [upstream_heads]. *)
Definition passed_remote : git_remote :=
  {| download_tags := GIT_REMOTE_DOWNLOAD_TAGS_AUTO; active_refspecs := [origin_heads];
     passive_refspecs := [upstream_heads]; passed_refspecs := true; push := false;
     heads := Some [head_at "refs/heads/main" 10%N] |}.

Lemma opportunistic_abort_reports_success_witness :
  exists st',
    opportunistic_updates passed_remote (Some (fun _ _ _ => -1))
      [head_at "refs/heads/main" 10%N] empty_repo = Some (0, st')
    /\ refs st' = <["refs/remotes/upstream/main" := ref_direct 10%N]> (refs empty_repo)
    /\ tips_log st'
       = tips_log empty_repo
         ++ [ev_create "refs/remotes/upstream/main" 10%N true 0;
             ev_update_tips "refs/remotes/upstream/main" zero_id 10%N (-1)].
Proof.
  exact (opportunistic_abort_reports_success passed_remote (fun _ _ _ => -1)
           [head_at "refs/heads/main" 10%N] empty_repo upstream_heads
           (head_at "refs/heads/main" 10%N) 0 0 1
           eq_refl eq_refl ltac:(discriminate) eq_refl).
Defined.

(** **** Prune *)


Definition remote_with (active : list git_refspec) (advertised_heads : list git_remote_head)
  : git_remote :=
  {| download_tags := GIT_REMOTE_DOWNLOAD_TAGS_AUTO; active_refspecs := active;
     passive_refspecs := []; passed_refspecs := false; push := false;
     heads := Some advertised_heads |}.

(** The remote advertises [main] only; locally there are the tracking
    references of [main] and of a branch that is gone, and the symbolic
    [origin/HEAD]. *)
Definition stale_store : repo_state :=
  {| refs := {[ "refs/remotes/origin/main" := ref_direct 10%N;
                "refs/remotes/origin/gone" := ref_direct 9%N;
                "refs/remotes/origin/HEAD" := ref_symbolic "refs/remotes/origin/main";
                "refs/heads/main" := ref_direct 10%N ]};
     odb := ∅; tips_log := [] |}.

Definition stale_remote : git_remote :=
  remote_with [origin_heads] [head_at "HEAD" 10%N; head_at "refs/heads/main" 10%N].


Example prune_stale_branch :
  let result := git_remote_prune stale_remote (Some (fun _ _ _ => 0)) stale_store in
  fst result = 0
  /\ refs (snd result) !! "refs/remotes/origin/gone" = None
  /\ refs (snd result) !! "refs/remotes/origin/main" = Some (ref_direct 10%N)
  /\ refs (snd result) !! "refs/remotes/origin/HEAD"
     = Some (ref_symbolic "refs/remotes/origin/main")
  /\ refs (snd result) !! "refs/heads/main" = Some (ref_direct 10%N)
  /\ tips_log (snd result)
     = [ev_delete "refs/remotes/origin/gone";
        ev_update_tips "refs/remotes/origin/gone" 9%N zero_id 0].
Proof. vm_compute. repeat split; reflexivity. Qed.





(** **** More runs *)

Lemma prune_twice_witness :
  refs (snd (git_remote_prune stale_remote (Some (fun _ _ _ => 0))
               (snd (git_remote_prune stale_remote (Some (fun _ _ _ => 0)) stale_store))))
  = refs (snd (git_remote_prune stale_remote (Some (fun _ _ _ => 0)) stale_store))
  /\ tips_log (snd (git_remote_prune stale_remote (Some (fun _ _ _ => 0))
                      (snd (git_remote_prune stale_remote (Some (fun _ _ _ => 0))
                              stale_store))))
     = tips_log (snd (git_remote_prune stale_remote (Some (fun _ _ _ => 0)) stale_store))
  /\ odb (snd (git_remote_prune stale_remote (Some (fun _ _ _ => 0))
                 (snd (git_remote_prune stale_remote (Some (fun _ _ _ => 0)) stale_store))))
     = odb (snd (git_remote_prune stale_remote (Some (fun _ _ _ => 0)) stale_store)).
Proof.
  exact (prune_twice stale_remote (Some (fun _ _ _ => 0)) stale_store
           [head_at "HEAD" 10%N; head_at "refs/heads/main" 10%N]
           eq_refl (fun _ _ _ => Z.le_refl 0)).
Defined.

(** A fetch of [main] and [dev] into a store that has [origin/gone]. *)
Definition fetch_run : option (Z * repo_state) :=
  git_remote_update_tips fetchhead_ok 0 0
    (remote_with [origin_heads] two_heads) None false
    GIT_REMOTE_DOWNLOAD_TAGS_UNSPECIFIED stale_store.

Example fetch_run_result :
  fst <$> fetch_run = Some 0
  /\ (tips_log ∘ snd) <$> fetch_run
     = Some [ev_create "refs/remotes/origin/dev" 11%N true 0].
Proof. vm_compute. auto. Qed.


(** The tracking reference of [main] is where the remote has it. *)
Definition settled_store : repo_state :=
  {| refs := {[ "refs/remotes/origin/main" := ref_direct 10%N ]};
     odb := ∅; tips_log := [] |}.

Lemma update_tips_up_to_date_witness :
  snd (update_tips_for_spec fetchhead_ok (Some (fun _ _ _ => -1)) false
         GIT_REMOTE_DOWNLOAD_TAGS_AUTO origin_heads
         [head_at "refs/heads/main" 10%N] settled_store) = settled_store
  /\ (false = false ->
      fst (update_tips_for_spec fetchhead_ok (Some (fun _ _ _ => -1)) false
             GIT_REMOTE_DOWNLOAD_TAGS_AUTO origin_heads
             [head_at "refs/heads/main" 10%N] settled_store) = 0).
Proof.
  apply (update_tips_up_to_date fetchhead_ok (Some (fun _ _ _ => -1)) false
           GIT_REMOTE_DOWNLOAD_TAGS_AUTO tags_spec origin_heads
           [head_at "refs/heads/main" 10%N] settled_store).
  - reflexivity.
  - eexists. reflexivity.
  - intros head Hhead _ _. apply list_elem_of_singleton in Hhead. subst head.
    reflexivity.
Defined.

Lemma opportunistic_updates_events_witness :
  exists evs,
    tips_log (snd (default (0, empty_repo)
                     (opportunistic_updates passed_remote None
                        [head_at "refs/heads/main" 10%N] empty_repo)))
    = tips_log empty_repo ++ evs
    /\ Forall (opportunistic_event passed_remote [head_at "refs/heads/main" 10%N]) evs.
Proof.
  apply (opportunistic_updates_events passed_remote None
           [head_at "refs/heads/main" 10%N] empty_repo
           (snd (default (0, empty_repo)
                   (opportunistic_updates passed_remote None
                      [head_at "refs/heads/main" 10%N] empty_repo)))
           (fst (default (0, empty_repo)
                   (opportunistic_updates passed_remote None
                      [head_at "refs/heads/main" 10%N] empty_repo)))).
  vm_compute. reflexivity.
Defined.

(** [git_remote_delete] of a remote with the usual fetch refspec and a
    push refspec for the branches: the tracking references go, the
    symbolic [origin/HEAD] included, and so does the local branch, which
    the destination of the push refspec matches. *)
Example delete_removes_push_destinations :
  let result :=
    remove_tracking_loop
      [origin_heads;
       {| rs_string := "refs/heads/*:refs/heads/*"; rs_src := "refs/heads/*";
          rs_dst := Some "refs/heads/*"; rs_force := false; rs_push := true;
          rs_pattern := true |}] 0 stale_store in
  fst result = 0
  /\ refs (snd result) !! "refs/remotes/origin/main" = None
  /\ refs (snd result) !! "refs/remotes/origin/HEAD" = None
  /\ refs (snd result) !! "refs/heads/main" = None.
Proof. vm_compute. auto. Qed.

End Tips.
